(** * DragAct: locale negotiation, locale-table registration, the
      selection / transfer state machine and the token substitution of
      [src/script.js]

    The development embeds the relevant private methods of the [DragAct]
    class as Rocq functions and proves properties of them.

    Conventions of the embedding:
    - JS strings are [string]s of single-byte characters; [String.length]
      stands for the JS [length] (the two agree on the ASCII language tags
      and message keys the program manipulates);
    - JS numbers that are compared or subtracted are [Z];
    - DOM elements (droptargets, dragitems) are identified by a [nat];
    - an uncaught JS [TypeError] is the [None] of an [option] result. *)

From Stdlib Require Import ZArith String Ascii List Lia Bool Sorting.Sorted.
From Stdlib Require Import DecimalString DecimalN.
From stdpp Require Import base option list functions gmap strings.

Local Open Scope string_scope.
Local Open Scope Z_scope.

(** ** Part 1. Locale negotiation *)

Module Locale.

(** [code.split('-')]: the segments between hyphens; the split of the empty
    string is the one-element list holding the empty string. *)
Fixpoint split (code : string) : list string :=
  match code with
  | EmptyString => [EmptyString]
  | String c rest =>
      if Ascii.eqb c "-"%char then EmptyString :: split rest
      else match split rest with
           | [] => [String c EmptyString]
           | seg :: segs => String c seg :: segs
           end
  end.

(** [segments.join('-')]. *)
Fixpoint join (segments : list string) : string :=
  match segments with
  | [] => EmptyString
  | [seg] => seg
  | seg :: segs => seg ++ "-" ++ join segs
  end.

(** [array.slice(0, -1)]: everything but the last element. *)
Definition slice_0_m1 {A} (l : list A) : list A := removelast l.

(** One turn of the loop body of [#getSubcodes]:
    [code = code.split('-').slice(0, -1).join('-')]. *)
Definition truncate (code : string) : string :=
  join (slice_0_m1 (split code)).

(** The [while(code)] loop of [#getSubcodes]; a non-empty string is truthy.
    [fuel] bounds the number of turns. *)
Fixpoint getSubcodes_loop (fuel : nat) (code : string) (subcodes : list string)
  : list string :=
  match fuel with
  | O => subcodes
  | S fuel' =>
      match code with
      | EmptyString => subcodes
      | _ => let code' := truncate code in
             getSubcodes_loop fuel' code' (subcodes ++ [code'])
      end
  end.

(** [#getSubcodes(code)]: the code followed by its truncations, the final
    empty string sliced off. Every turn shortens the code, so
    [String.length code] turns are enough (lemma [getSubcodes_loop_fuel]). *)
Definition getSubcodes (code : string) : list string :=
  slice_0_m1 (getSubcodes_loop (String.length code) code [code]).

(** [s.includes(sub)]: [sub] occurs somewhere in [s] (substring, not only
    prefix). *)
Fixpoint includes (s sub : string) : bool :=
  String.prefix sub s ||
  match s with
  | EmptyString => false
  | String _ s' => includes s' sub
  end.

(** The objects [{ score, have }] built while scoring. *)
Record Score := mkScore { score : Z; have : string }.

Definition strlen (s : string) : Z := Z.of_nat (String.length s).

(** The comparator of [#doScoreSort]: highest score first, and for equal
    scores the shorter [have] first. *)
Definition compareScores (a b : Score) : Z :=
  if score b =? score a then strlen (have a) - strlen (have b)
  else score b - score a.

(** [Array.prototype.sort] with a comparator, as a stable insertion sort:
    [a] goes before [b] when the comparator is negative, and elements that
    compare equal keep their order. *)
Fixpoint sort_insert {A} (cmp : A -> A -> Z) (x : A) (l : list A) : list A :=
  match l with
  | [] => [x]
  | y :: l' => if cmp x y <=? 0 then x :: y :: l' else y :: sort_insert cmp x l'
  end.

Fixpoint js_sort {A} (cmp : A -> A -> Z) (l : list A) : list A :=
  match l with
  | [] => []
  | x :: l' => sort_insert cmp x (js_sort cmp l')
  end.

(** [#doScoreSort(scores)]. *)
Definition doScoreSort (scores : list Score) : list Score :=
  js_sort compareScores scores.

(** The default language code: the first key of the built-in table. *)
Definition langdefault : string := "en".

(** The inner-most map of [#getLanguageMatch]: one wanted subcode scored
    against every subcode of one available language. *)
Definition subcodeScores (subcode : string) (havesubcodes : list string)
  : list Score :=
  doScoreSort
    (map (fun havesubcode =>
            {| score := if includes subcode havesubcode
                        then strlen havesubcode else 0;
               have := havesubcode |})
         havesubcodes).

(** The middle map: the best score of one available language, labelled with
    the language itself ([havesubcodes[0]]).  For the empty tag, whose chain
    is empty, JS leaves [have] undefined, and the comparator of
    [#doScoreSort] throws when it reads the length of such a [have] next to
    a score of the same value; the model writes the empty string there and
    does not throw.  The model therefore agrees with the code only for
    available tags that are not empty, and the statements about
    [getLanguageMatch] below assume so where they range over the available
    tags. *)
Definition languageScore (subcode : string) (havesubcodes : list string)
  : Score :=
  let scores := subcodeScores subcode havesubcodes in
  {| score := match scores with s :: _ => score s | [] => 0 end;
     have := hd EmptyString havesubcodes |}.

(** [scoresets]: for every subcode of the wanted code, the sorted scores of
    all available languages. *)
Definition scoresets (havecodes : list (list string)) (code : string)
  : list (string * list Score) :=
  map (fun subcode =>
         (subcode, doScoreSort (map (languageScore subcode) havecodes)))
      (getSubcodes code).

(** The object [{ want, ...match }] with [match = scoresets[0].scores[0]].
    [scoresets[0]] is undefined for a wanted code without subcodes (the
    empty string), and reading [.scores] of it throws: [None]. When no
    language is available [match] is undefined and the spread adds no
    [score]: [Some (code, None)]. *)
Definition wantedMatch (havecodes : list (list string)) (code : string)
  : option (string * option Score) :=
  match scoresets havecodes code with
  | [] => None
  | (_, scores) :: _ => Some (code, head scores)
  end.

(** [matches.filter(match => match.score)]: a missing or zero score is
    falsy. *)
Definition truthyScore (m : string * option Score) : bool :=
  match snd m with
  | Some s => negb (score s =? 0)
  | None => false
  end.

(** [#getLanguageMatch(want, have)]. *)
Definition getLanguageMatch (want have : list string) : option string :=
  let havecodes := map getSubcodes have in
  matches ← mapM (wantedMatch havecodes) want;
  match List.filter truthyScore matches with
  | (_, Some m) :: _ => Some (Locale.have m)
  | _ => Some langdefault
  end.

(** The best score one available language [h] reaches against the wanted
    code: the [score] of its entry in [scoresets[0].scores]. *)
Definition tagScore (code h : string) : Z :=
  score (languageScore code (getSubcodes h)).

(** The entry that heads the sorted scores of the available tags for one
    wanted code. *)
Definition bestScore (haves : list string) (code : string) : option Score :=
  head (doScoreSort (map (languageScore code) (map getSubcodes haves))).

(** *** Facts about [#getSubcodes] *)

Lemma getSubcodes_loop_app fuel code subcodes :
  getSubcodes_loop fuel code subcodes
  = (subcodes ++ getSubcodes_loop fuel code [])%list.
Proof.
  revert code subcodes.
  induction fuel as [|fuel IH]; intros code subcodes; simpl.
  - by rewrite app_nil_r.
  - destruct code as [|c code]; [by rewrite app_nil_r|].
    rewrite IH. rewrite (IH _ [_]). by rewrite <- app_assoc.
Qed.

Lemma length_append (s1 s2 : string) :
  String.length (s1 ++ s2) = (String.length s1 + String.length s2)%nat.
Proof. induction s1 as [|c s1 IH]; simpl; [done|]. by rewrite IH. Qed.

Lemma split_not_nil code : split code <> [].
Proof.
  destruct code as [|c code]; simpl; [done|].
  destruct (Ascii.eqb c "-"); [done|]. by destruct (split code).
Qed.

Lemma join_split code : join (split code) = code.
Proof.
  induction code as [|c code IH]; [done|]. cbn [split].
  pose proof (split_not_nil code) as Hne.
  destruct (Ascii.eqb_spec c "-"%char) as [->|Hc];
    destruct (split code) as [|seg segs]; try done.
  - change (join (EmptyString :: seg :: segs))
      with (EmptyString ++ "-" ++ join (seg :: segs)).
    by rewrite IH.
  - revert IH. cbn [join]. destruct segs; intros <-; done.
Qed.

Lemma join_slice_lt2 seg seg' segs :
  (String.length (join (slice_0_m1 (seg :: seg' :: segs)))
   < String.length (join (seg :: seg' :: segs)))%nat.
Proof.
  unfold slice_0_m1. revert seg seg'.
  induction segs as [|seg'' segs IH]; intros seg seg'.
  - change (join (removelast [seg; seg'])) with seg.
    change (join [seg; seg']) with (seg ++ "-" ++ seg').
    rewrite !length_append. change (String.length "-") with 1%nat. lia.
  - specialize (IH seg' seg'').
    change (removelast (seg :: seg' :: seg'' :: segs))
      with (seg :: seg' :: removelast (seg'' :: segs)).
    change (removelast (seg' :: seg'' :: segs))
      with (seg' :: removelast (seg'' :: segs)) in IH.
    change (join (seg :: seg' :: ?l)) with (seg ++ "-" ++ join (seg' :: l)).
    rewrite !length_append. lia.
Qed.

Lemma join_slice_lt segments :
  segments <> [] -> segments <> [EmptyString] ->
  (String.length (join (slice_0_m1 segments))
   < String.length (join segments))%nat.
Proof.
  intros Hnil Hempty. destruct segments as [|seg segs]; [done|].
  destruct segs as [|seg' segs]; [|apply join_slice_lt2].
  destruct seg; [done|]. simpl. lia.
Qed.

(** Every turn of the loop shortens the code. *)
Lemma truncate_shorter code :
  code <> EmptyString ->
  (String.length (truncate code) < String.length code)%nat.
Proof.
  intros Hne. unfold truncate.
  rewrite <- (join_split code) at 2.
  apply join_slice_lt; [apply split_not_nil|].
  intros Hs. apply Hne. by rewrite <- (join_split code), Hs.
Qed.

(** So the loop of [#getSubcodes] ends by itself: more fuel than the length
    of the code changes nothing. *)
Lemma getSubcodes_loop_fuel fuel fuel' code subcodes :
  (String.length code <= fuel)%nat -> (String.length code <= fuel')%nat ->
  getSubcodes_loop fuel code subcodes = getSubcodes_loop fuel' code subcodes.
Proof.
  revert fuel' code subcodes.
  induction fuel as [|fuel IH]; intros fuel' code subcodes Hf Hf'.
  - destruct code; [|simpl in Hf; lia]. by destruct fuel'.
  - destruct code as [|c code]; [by destruct fuel'|].
    destruct fuel' as [|fuel']; [simpl in Hf'; lia|].
    cbn [getSubcodes_loop].
    pose proof (truncate_shorter (String c code)) as Hlt.
    apply IH; simpl in *; specialize (Hlt ltac:(done)); lia.
Qed.

(** The chain of a non-empty code starts with the code itself. *)
Lemma getSubcodes_head code :
  code <> EmptyString ->
  exists chain, getSubcodes code = code :: chain.
Proof.
  intros Hne. unfold getSubcodes.
  destruct code as [|c code]; [done|].
  cbn [String.length getSubcodes_loop].
  rewrite getSubcodes_loop_app. unfold slice_0_m1.
  change ([String c code] ++ [truncate (String c code)])%list
    with [String c code; truncate (String c code)].
  change ([String c code; truncate (String c code)] ++ ?l)%list
    with (String c code :: truncate (String c code) :: l).
  cbn [removelast]. eauto.
Qed.

Lemma getSubcodes_nonempty code :
  code <> EmptyString -> getSubcodes code <> [].
Proof. intros [chain ->]%getSubcodes_head. done. Qed.

(** *** The sort puts a least element of the comparator first *)

Section Sorting.
Context {A : Type} (cmp : A -> A -> Z).
Hypothesis cmp_refl : forall a, cmp a a <= 0.
Hypothesis cmp_trans :
  forall a b c, cmp a b <= 0 -> cmp b c <= 0 -> cmp a c <= 0.
Hypothesis cmp_total : forall a b, 0 < cmp a b -> cmp b a <= 0.

Lemma sort_insert_elem x y l :
  y ∈ sort_insert cmp x l <-> y = x \/ y ∈ l.
Proof.
  induction l as [|z l IH]; simpl.
  - rewrite list_elem_of_singleton, elem_of_nil. tauto.
  - destruct (cmp x z <=? 0).
    + by rewrite (elem_of_cons (z :: l)).
    + rewrite !elem_of_cons, IH. tauto.
Qed.

Lemma js_sort_elem y l : y ∈ js_sort cmp l <-> y ∈ l.
Proof.
  induction l as [|x l IH]; simpl; [done|].
  rewrite sort_insert_elem, IH, elem_of_cons. tauto.
Qed.

(** [first_le l]: the head of [l] is below every element of [l]. *)
Definition first_le (l : list A) : Prop :=
  match l with
  | [] => True
  | h :: _ => forall x, x ∈ l -> cmp h x <= 0
  end.

Lemma sort_insert_first_le x l :
  first_le l -> first_le (sort_insert cmp x l).
Proof.
  destruct l as [|y l]; simpl.
  - intros _ z ->%list_elem_of_singleton. apply cmp_refl.
  - intros Hy. destruct (Z.leb_spec (cmp x y) 0) as [Hle|Hgt].
    + intros z [->|Hz]%elem_of_cons; [apply cmp_refl|].
      eapply cmp_trans; [exact Hle|]. by apply Hy.
    + intros z [->|Hz]%elem_of_cons; [apply cmp_refl|].
      apply sort_insert_elem in Hz as [->|Hz].
      * by apply cmp_total.
      * apply Hy. by right.
Qed.

Lemma js_sort_first_le l : first_le (js_sort cmp l).
Proof.
  induction l as [|x l IH]; simpl; [done|]. by apply sort_insert_first_le.
Qed.

Lemma js_sort_head l h t :
  js_sort cmp l = h :: t -> h ∈ l /\ forall x, x ∈ l -> cmp h x <= 0.
Proof.
  intros Hs. split.
  - apply js_sort_elem. rewrite Hs. by left.
  - intros x Hx. pose proof (js_sort_first_le l) as Hf.
    rewrite Hs in Hf. apply Hf. rewrite <- Hs. by apply js_sort_elem.
Qed.

Lemma js_sort_nil l : js_sort cmp l = [] -> l = [].
Proof.
  destruct l as [|x l]; [done|]. simpl.
  by destruct (js_sort cmp l) as [|y s]; simpl; [|destruct (_ <=? _)].
Qed.
End Sorting.

Lemma compareScores_refl a : compareScores a a <= 0.
Proof. unfold compareScores. rewrite Z.eqb_refl. lia. Qed.

Lemma compareScores_trans a b c :
  compareScores a b <= 0 -> compareScores b c <= 0 -> compareScores a c <= 0.
Proof.
  unfold compareScores.
  destruct (Z.eqb_spec (score b) (score a)), (Z.eqb_spec (score c) (score b)),
    (Z.eqb_spec (score c) (score a)); lia.
Qed.

Lemma compareScores_total a b :
  0 < compareScores a b -> compareScores b a <= 0.
Proof.
  unfold compareScores.
  destruct (Z.eqb_spec (score b) (score a)), (Z.eqb_spec (score a) (score b));
    lia.
Qed.

(** What [compareScores a b <= 0] says: [a] scores at least as much as [b],
    and when the scores are equal [a]'s tag is not the longer one. *)
Lemma compareScores_le a b :
  compareScores a b <= 0 ->
  score b <= score a /\
  (score b = score a -> (String.length (have a) <= String.length (have b))%nat).
Proof.
  unfold compareScores, strlen.
  destruct (Z.eqb_spec (score b) (score a)); lia.
Qed.

Lemma doScoreSort_head scores h t :
  doScoreSort scores = h :: t ->
  h ∈ scores /\ forall x, x ∈ scores -> compareScores h x <= 0.
Proof.
  apply js_sort_head;
    [apply compareScores_refl | apply compareScores_trans
     | apply compareScores_total].
Qed.

(** *** The winner of the negotiation for the first wanted code *)

Lemma wantedMatch_nonempty havecodes code :
  code <> EmptyString ->
  wantedMatch havecodes code
  = Some (code, head (doScoreSort (map (languageScore code) havecodes))).
Proof.
  intros [chain Hc]%getSubcodes_head.
  unfold wantedMatch, scoresets. by rewrite Hc.
Qed.

Lemma mapM_wantedMatch havecodes want :
  Forall (fun c => c <> EmptyString) want ->
  is_Some (mapM (wantedMatch havecodes) want).
Proof.
  induction 1 as [|c want Hc _ [ms IH]]; [by eexists|].
  cbn [mapM]. rewrite (wantedMatch_nonempty _ _ Hc). simpl.
  rewrite IH. by eexists.
Qed.

Lemma languageScore_have code h :
  h <> EmptyString -> have (languageScore code (getSubcodes h)) = h.
Proof. intros [chain Hc]%getSubcodes_head. by rewrite Hc. Qed.

Lemma first_match_wins code rest haves h :
  Forall (fun c => c <> EmptyString) (code :: rest) ->
  Forall (fun c => c <> EmptyString) haves ->
  h ∈ haves -> 0 < tagScore code h ->
  exists r, getLanguageMatch (code :: rest) haves = Some r /\ r ∈ haves /\
    forall h', h' ∈ haves ->
      tagScore code h' <= tagScore code r /\
      (tagScore code h' = tagScore code r ->
       (String.length r <= String.length h')%nat).
Proof.
  intros Hwant Hhave Hh Hpos.
  apply Forall_cons in Hwant as [Hcode Hrest].
  set (entries := map (languageScore code) (map getSubcodes haves)).
  assert (Hin : forall h', h' ∈ haves ->
            languageScore code (getSubcodes h') ∈ entries).
  { intros h' Hh'. subst entries. rewrite list_elem_of_fmap.
    exists (getSubcodes h'). split; [done|].
    rewrite list_elem_of_fmap. eauto. }
  destruct (doScoreSort entries) as [|m t] eqn:Hsort.
  { apply js_sort_nil in Hsort. specialize (Hin h Hh).
    rewrite Hsort in Hin. by apply elem_of_nil in Hin. }
  destruct (doScoreSort_head _ _ _ Hsort) as [Hm Hle].
  subst entries. apply list_elem_of_fmap in Hm as (chain & -> & Hchain).
  apply list_elem_of_fmap in Hchain as (r & -> & Hr).
  assert (Hrne : r <> EmptyString)
    by (rewrite Forall_forall in Hhave; by apply Hhave).
  assert (Hbest : forall h', h' ∈ haves ->
            tagScore code h' <= tagScore code r /\
            (tagScore code h' = tagScore code r ->
             (String.length r <= String.length h')%nat)).
  { intros h' Hh'. specialize (Hle _ (Hin h' Hh')).
    apply compareScores_le in Hle. rewrite !languageScore_have in Hle;
      [done|by rewrite Forall_forall in Hhave; apply Hhave|done]. }
  exists r. split; [|done].
  unfold getLanguageMatch.
  destruct (mapM_wantedMatch (map getSubcodes haves) rest Hrest) as [ms Hms].
  cbn [mapM]. rewrite (wantedMatch_nonempty _ _ Hcode), Hsort. simpl.
  rewrite Hms. simpl.
  assert (Htruthy : truthyScore
            (code, Some (languageScore code (getSubcodes r))) = true).
  { unfold truthyScore. cbn [snd]. fold (tagScore code r).
    apply negb_true_iff, Z.eqb_neq.
    pose proof (Hbest h Hh) as [Hge _]. lia. }
  rewrite Htruthy. by rewrite languageScore_have.
Qed.

(** C1 (as stated, refuted). With ["en-us-fake-cockney"] and ["en"] both
    available, the negotiation for ["en-gb-cockney"] does not return
    ["en-us-fake-cockney"], whichever way the available tags are listed. *)
Lemma cockney_not_preferred_over_base :
  getLanguageMatch ["en-gb-cockney"] ["en-us-fake-cockney"; "en"]
    <> Some "en-us-fake-cockney" /\
  getLanguageMatch ["en-gb-cockney"] ["en"; "en-us-fake-cockney"]
    <> Some "en-us-fake-cockney".
Proof. split; vm_compute; discriminate. Qed.

(** C1 (amended). Wanting ["en-gb-cockney"]: when ["en-us-fake-cockney"] and
    ["en"] are both available they tie at score 2 and the shorter tag ["en"]
    is returned; ["en-us-fake-cockney"] is returned when it is the only
    available tag (it matches through its base code ["en"]). *)
Theorem cockney_negotiation :
  getLanguageMatch ["en-gb-cockney"] ["en-us-fake-cockney"; "en"] = Some "en" /\
  getLanguageMatch ["en-gb-cockney"] ["en"; "en-us-fake-cockney"] = Some "en" /\
  tagScore "en-gb-cockney" "en-us-fake-cockney" = 2 /\
  tagScore "en-gb-cockney" "en" = 2 /\
  getLanguageMatch ["en-gb-cockney"] ["en-us-fake-cockney"]
    = Some "en-us-fake-cockney".
Proof. repeat split; vm_compute; reflexivity. Qed.

(** C7. Wanting ["fr-ca"] with ["fr-be"] and ["fr"] available returns ["fr"];
    and in general, when some available tag scores above zero against the
    first wanted code, the tag returned is an available tag of highest
    score, and no available tag of that same score is shorter. *)
Theorem negotiation_prefers_shorter_tag :
  getLanguageMatch ["fr-ca"] ["fr-be"; "fr"] = Some "fr" /\
  getLanguageMatch ["fr-ca"] ["fr"; "fr-be"] = Some "fr" /\
  forall (code : string) (rest haves : list string) (h : string),
    Forall (fun c => c <> EmptyString) (code :: rest) ->
    Forall (fun c => c <> EmptyString) haves ->
    h ∈ haves -> 0 < tagScore code h ->
    exists r, getLanguageMatch (code :: rest) haves = Some r /\ r ∈ haves /\
      forall h', h' ∈ haves ->
        tagScore code h' <= tagScore code r /\
        (tagScore code h' = tagScore code r ->
         (String.length r <= String.length h')%nat).
Proof.
  split; [by vm_compute|]. split; [by vm_compute|].
  apply first_match_wins.
Qed.

(** The general part of C7 at a concrete input: ["fr-be"] and ["fr"] both
    score above zero against ["fr-ca"], and the tag returned is no longer
    than any available tag of its score. *)
Lemma negotiation_prefers_shorter_tag_witness :
  0 < tagScore "fr-ca" "fr" /\
  exists r, getLanguageMatch ["fr-ca"] ["fr-be"; "fr"] = Some r /\
    r ∈ ["fr-be"; "fr"] /\
    forall h', h' ∈ ["fr-be"; "fr"] ->
      tagScore "fr-ca" h' <= tagScore "fr-ca" r /\
      (tagScore "fr-ca" h' = tagScore "fr-ca" r ->
       (String.length r <= String.length h')%nat).
Proof.
  split; [reflexivity|].
  apply (proj2 (proj2 negotiation_prefers_shorter_tag)
           "fr-ca" [] ["fr-be"; "fr"] "fr").
  - repeat constructor; discriminate.
  - repeat constructor; discriminate.
  - apply elem_of_cons; right; apply elem_of_cons; left; reflexivity.
  - reflexivity.
Defined.

(** *** The chain of subcodes *)

Lemma prefix_refl (s : string) : String.prefix s s = true.
Proof.
  induction s as [|c s IH]; [done|]. cbn [String.prefix].
  by destruct (ascii_dec c c).
Qed.

Lemma prefix_append (s t : string) : String.prefix s (s ++ t) = true.
Proof.
  induction s as [|c s IH]; [by destruct t|].
  change (String c s ++ t) with (String c (s ++ t)). cbn [String.prefix].
  by destruct (ascii_dec c c).
Qed.

Lemma prefix_append_both (s a b : string) :
  String.prefix (s ++ a) (s ++ b) = String.prefix a b.
Proof.
  induction s as [|c s IH]; [done|].
  change (String c s ++ a) with (String c (s ++ a)).
  change (String c s ++ b) with (String c (s ++ b)). cbn [String.prefix].
  by destruct (ascii_dec c c).
Qed.

Lemma prefix_length (a b : string) :
  String.prefix a b = true ->
  (String.length a <= String.length b)%nat /\
  (String.length a = String.length b -> a = b).
Proof.
  revert b. induction a as [|c a IH]; intros b Hp.
  - split; [simpl; lia|]. by destruct b.
  - destruct b as [|d b]; [done|]. cbn in Hp.
    destruct (ascii_dec c d) as [->|]; [|done].
    destruct (IH b Hp) as [Hle Heq]. split; [simpl; lia|].
    simpl. intros [= Hl]. by rewrite (Heq Hl).
Qed.

Lemma join_removelast_prefix (segments : list string) :
  String.prefix (join (slice_0_m1 segments)) (join segments) = true.
Proof.
  unfold slice_0_m1.
  induction segments as [|seg [|seg' segs] IH]; [done|by destruct seg|].
  destruct segs as [|seg'' segs].
  - change (join (removelast [seg; seg'])) with seg.
    change (join [seg; seg']) with (seg ++ "-" ++ seg').
    apply prefix_append.
  - change (removelast (seg :: seg' :: seg'' :: segs))
      with (seg :: removelast (seg' :: seg'' :: segs)).
    change (join (seg :: seg' :: seg'' :: segs))
      with (seg ++ "-" ++ join (seg' :: seg'' :: segs)).
    destruct (removelast (seg' :: seg'' :: segs)) as [|r rs] eqn:Hr.
    { by destruct segs. }
    change (join (seg :: r :: rs)) with (seg ++ "-" ++ join (r :: rs)).
    rewrite prefix_append_both.
    change ("-" ++ ?x) with (String "-" x). cbn [String.prefix].
    destruct (ascii_dec "-" "-"); [|done]. exact IH.
Qed.

Lemma truncate_prefix code : String.prefix (truncate code) code = true.
Proof.
  unfold truncate. rewrite <- (join_split code) at 2.
  apply join_removelast_prefix.
Qed.

(** The loop of [#getSubcodes] unrolled once. *)
Lemma getSubcodes_unroll code :
  code <> EmptyString ->
  getSubcodes code = code :: getSubcodes (truncate code).
Proof.
  intros Hne. unfold getSubcodes, slice_0_m1.
  pose proof (truncate_shorter code Hne) as Hlt.
  destruct code as [|c code]; [done|].
  set (code0 := String c code) in *.
  change (String.length code0) with (S (String.length code)).
  cbn [getSubcodes_loop]. fold code0.
  rewrite getSubcodes_loop_app.
  rewrite (getSubcodes_loop_fuel _ (String.length (truncate code0)))
    by (subst code0; simpl in Hlt; simpl; lia).
  rewrite (getSubcodes_loop_app _ _ [truncate code0]).
  cbn [app].
  by destruct (getSubcodes_loop _ (truncate code0) []).
Qed.

Lemma prefix_trans (a b c : string) :
  String.prefix a b = true -> String.prefix b c = true ->
  String.prefix a c = true.
Proof.
  revert b c. induction a as [|x a IH]; intros b c Hab Hbc.
  - by destruct c.
  - destruct b as [|y b]; [done|]. destruct c as [|z c]; [done|].
    cbn [String.prefix] in *.
    destruct (ascii_dec x y) as [->|]; [|done].
    destruct (ascii_dec y z) as [->|]; [|done].
    by apply (IH b c).
Qed.

(** Every subcode is a non-empty prefix of the code, and the subcodes get
    shorter along the chain. *)
Lemma getSubcodes_spec code :
  Forall (fun sub => sub <> EmptyString /\ String.prefix sub code = true /\
                     (String.length sub <= String.length code)%nat)
         (getSubcodes code) /\
  StronglySorted (fun a b => (String.length b < String.length a)%nat)
                 (getSubcodes code).
Proof.
  remember (String.length code) as n eqn:Hn.
  revert code Hn. induction (lt_wf n) as [n _ IH]. intros code ->.
  destruct (decide (code = EmptyString)) as [->|Hne].
  { split; constructor. }
  rewrite (getSubcodes_unroll code Hne).
  pose proof (truncate_shorter code Hne) as Hlt.
  pose proof (truncate_prefix code) as Hpre.
  destruct (IH _ Hlt (truncate code) eq_refl) as [Hall Hsorted].
  split.
  - constructor; [by rewrite prefix_refl|].
    eapply Forall_impl; [exact Hall|]. intros sub (Hs & Hp & Hl).
    split; [done|]. split; [by eapply prefix_trans|lia].
  - constructor; [done|].
    eapply Forall_impl; [exact Hall|]. intros sub (_ & _ & Hl). simpl. lia.
Qed.

Lemma getSubcodes_elem sub code :
  sub ∈ getSubcodes code ->
  sub <> EmptyString /\ String.prefix sub code = true.
Proof.
  intros Hin. destruct (getSubcodes_spec code) as [Hall _].
  rewrite Forall_forall in Hall. destruct (Hall sub Hin) as (? & ? & _).
  done.
Qed.

(** X1. [#getSubcodes(code)] returns nothing for the empty code and
    otherwise the code followed by the subcodes of the code without its
    last hyphen-separated segment; every subcode is a non-empty prefix of
    the code, and each is strictly shorter than the one before it. *)
Theorem subcodes_chain (code : string) :
  getSubcodes EmptyString = [] /\
  (code <> EmptyString ->
   getSubcodes code = code :: getSubcodes (truncate code)) /\
  Forall (fun sub => sub <> EmptyString /\ String.prefix sub code = true)
         (getSubcodes code) /\
  StronglySorted (fun a b => (String.length b < String.length a)%nat)
                 (getSubcodes code).
Proof.
  split; [done|]. split; [apply getSubcodes_unroll|].
  destruct (getSubcodes_spec code) as [Hall Hsorted]. split; [|done].
  eapply Forall_impl; [exact Hall|]. by intros sub (? & ? & _).
Qed.

(** *** The sort orders the whole array *)

Section SortingAll.
Context {A : Type} (cmp : A -> A -> Z).
Hypothesis cmp_trans :
  forall a b c, cmp a b <= 0 -> cmp b c <= 0 -> cmp a c <= 0.
Hypothesis cmp_total : forall a b, 0 < cmp a b -> cmp b a <= 0.

Lemma sort_insert_Permutation x l : sort_insert cmp x l ≡ₚ x :: l.
Proof.
  induction l as [|y l IH]; simpl; [done|].
  destruct (cmp x y <=? 0); [done|]. rewrite IH. apply Permutation_swap.
Qed.

Lemma js_sort_Permutation l : js_sort cmp l ≡ₚ l.
Proof.
  induction l as [|x l IH]; simpl; [done|].
  by rewrite sort_insert_Permutation, IH.
Qed.

Lemma sort_insert_sorted x l :
  StronglySorted (fun a b => cmp a b <= 0) l ->
  StronglySorted (fun a b => cmp a b <= 0) (sort_insert cmp x l).
Proof.
  induction 1 as [|y l Hsorted IH Hall]; simpl.
  - repeat constructor.
  - destruct (Z.leb_spec (cmp x y) 0) as [Hle|Hgt].
    + constructor; [by constructor|]. constructor; [done|].
      eapply Forall_impl; [exact Hall|]. intros z Hz. by eapply cmp_trans.
    + constructor; [done|].
      rewrite sort_insert_Permutation. constructor; [|done].
      by apply cmp_total.
Qed.

Lemma js_sort_sorted l :
  StronglySorted (fun a b => cmp a b <= 0) (js_sort cmp l).
Proof.
  induction l as [|x l IH]; simpl; [constructor|].
  by apply sort_insert_sorted.
Qed.
End SortingAll.

Lemma StronglySorted_weaken {A} (R R' : A -> A -> Prop) (l : list A) :
  (forall a b, R a b -> R' a b) -> StronglySorted R l -> StronglySorted R' l.
Proof.
  intros HR. induction 1 as [|x l _ IH Hall]; constructor; [done|].
  eapply Forall_impl; [exact Hall|]. intros y. apply HR.
Qed.

(** X2. [#doScoreSort(scores)] returns the same entries, rearranged so
    that each entry scores at least as much as every entry after it and,
    where two scores are equal, the entry that comes first does not have
    the longer tag. *)
Theorem doScoreSort_sorts (scores : list Score) :
  doScoreSort scores ≡ₚ scores /\
  StronglySorted
    (fun a b =>
       score b < score a \/
       (score b = score a /\
        (String.length (have a) <= String.length (have b))%nat))
    (doScoreSort scores).
Proof.
  split; [apply js_sort_Permutation|].
  eapply StronglySorted_weaken;
    [|apply js_sort_sorted;
      [apply compareScores_trans|apply compareScores_total]].
  intros a b Hle%compareScores_le. lia.
Qed.

(** *** Scores *)

Lemma includes_refl (s : string) : includes s s = true.
Proof. destruct s; cbn [includes]; by rewrite prefix_refl. Qed.

Lemma includes_length (s sub : string) :
  includes s sub = true ->
  (String.length sub <= String.length s)%nat /\
  (String.length sub = String.length s -> sub = s).
Proof.
  induction s as [|c s IH]; cbn [includes].
  - rewrite orb_false_r. apply prefix_length.
  - intros [Hp|Hi]%orb_true_iff; [by apply prefix_length|].
    destruct (IH Hi) as [Hle _]. simpl. split; lia.
Qed.

(** The score of an available tag against a wanted code is the length of
    the longest subcode of the tag that occurs in the code, or 0. *)
Lemma tagScore_spec code h :
  (forall sub, sub ∈ getSubcodes h -> includes code sub = true ->
               strlen sub <= tagScore code h) /\
  (tagScore code h = 0 \/
   exists sub, sub ∈ getSubcodes h /\ includes code sub = true /\
               tagScore code h = strlen sub).
Proof.
  unfold tagScore, languageScore, subcodeScores. cbn [score].
  set (entry := fun havesubcode =>
         {| score := if includes code havesubcode
                     then strlen havesubcode else 0;
            have := havesubcode |}).
  destruct (doScoreSort (map entry (getSubcodes h))) as [|m t] eqn:Hsort.
  { apply js_sort_nil in Hsort. apply fmap_nil_inv in Hsort.
    rewrite Hsort. split; [by intros sub ?%elem_of_nil|by left]. }
  destruct (doScoreSort_head _ _ _ Hsort) as [Hm Hle].
  apply list_elem_of_fmap in Hm as (best & -> & Hbest).
  split.
  - intros sub Hsub Hinc.
    assert (Hin : entry sub ∈ map entry (getSubcodes h))
      by (apply list_elem_of_fmap; eauto).
    apply Hle, compareScores_le in Hin as [Hin _].
    unfold entry in Hin at 1. cbn [score] in Hin. by rewrite Hinc in Hin.
  - cbn [score entry].
    destruct (includes code best) eqn:Hinc; [right; eauto|by left].
Qed.

Lemma tagScore_range code h : 0 <= tagScore code h <= strlen code.
Proof.
  destruct (tagScore_spec code h) as [_ [->|(sub & _ & Hinc & ->)]];
    unfold strlen; [lia|].
  apply includes_length in Hinc as [Hle _]. lia.
Qed.

Lemma tagScore_self code :
  code <> EmptyString -> tagScore code code = strlen code.
Proof.
  intros [chain Hchain]%getSubcodes_head.
  destruct (tagScore_spec code code) as [Hge _].
  specialize (Hge code). rewrite Hchain in Hge.
  pose proof (tagScore_range code code).
  specialize (Hge ltac:(by left) (includes_refl code)). lia.
Qed.

(** A tag that scores the whole length of the wanted code and is not
    longer than the code is the code. *)
Lemma tagScore_full code r :
  tagScore code r = strlen code -> code <> EmptyString ->
  (String.length r <= String.length code)%nat -> r = code.
Proof.
  intros Hfull Hne Hlen.
  destruct (tagScore_spec code r) as [_ [Hz|(sub & Hsub & Hinc & Hs)]].
  { rewrite Hz in Hfull. unfold strlen in Hfull. destruct code; [done|].
    simpl in Hfull. lia. }
  apply includes_length in Hinc as [_ Heq].
  assert (sub = code) as -> by (apply Heq; unfold strlen in *; lia).
  apply getSubcodes_elem in Hsub as [_ Hp].
  apply prefix_length in Hp as [Hle Heq']. symmetry. apply Heq'. lia.
Qed.

(** X3. When the first wanted code is itself one of the available tags,
    [#getLanguageMatch] returns it, whatever else is available. *)
Theorem exact_tag_is_returned (code : string) (rest haves : list string) :
  Forall (fun c => c <> EmptyString) (code :: rest) ->
  Forall (fun c => c <> EmptyString) haves ->
  code ∈ haves ->
  getLanguageMatch (code :: rest) haves = Some code.
Proof.
  intros Hwant Hhaves Hin.
  assert (Hne : code <> EmptyString) by (by apply Forall_cons in Hwant as [? _]).
  pose proof (tagScore_self code Hne) as Hself.
  destruct (first_match_wins code rest haves code) as (r & -> & Hr & Hbest);
    try done.
  { rewrite Hself. unfold strlen. destruct code; [done|]. simpl. lia. }
  destruct (Hbest code Hin) as [Hge Htie].
  pose proof (tagScore_range code r) as Hrange.
  f_equal. apply tagScore_full; [lia|done|]. apply Htie. lia.
Qed.

Lemma exact_tag_is_returned_witness :
  getLanguageMatch ["en-gb"; "fr"] ["en"; "en-gb-x"; "en-gb"; "fr"]
  = Some "en-gb".
Proof.
  apply exact_tag_is_returned.
  - repeat constructor; discriminate.
  - repeat constructor; discriminate.
  - rewrite list_elem_of_In. simpl. tauto.
Defined.

(** *** The wanted codes are tried in order *)

Lemma getLanguageMatch_cons code rest haves :
  code <> EmptyString ->
  getLanguageMatch (code :: rest) haves
  = r ← getLanguageMatch rest haves;
    Some (match bestScore haves code with
          | Some m => if score m =? 0 then r else have m
          | None => r
          end).
Proof.
  intros Hne. unfold getLanguageMatch, bestScore. cbn [mapM].
  rewrite (wantedMatch_nonempty _ _ Hne). cbn [mbind option_bind].
  destruct (mapM _ rest) as [ms|]; [|done]. cbn [mbind option_bind mret option_ret].
  cbn [List.filter].
  destruct (head _) as [m|]; unfold truthyScore at 1; cbn [snd].
  - destruct (score m =? 0); cbn [negb];
      by destruct (List.filter _ ms) as [|[? [?|]] ?].
  - by destruct (List.filter _ ms) as [|[? [?|]] ?].
Qed.

Lemma bestScore_elem haves code m :
  bestScore haves code = Some m ->
  exists h, h ∈ haves /\ m = languageScore code (getSubcodes h) /\
            score m = tagScore code h.
Proof.
  unfold bestScore. destruct (doScoreSort _) as [|m' t] eqn:Hsort; [done|].
  intros [= ->]. destruct (doScoreSort_head _ _ _ Hsort) as [Hm _].
  apply list_elem_of_fmap in Hm as (chain & -> & Hchain).
  apply list_elem_of_fmap in Hchain as (h & -> & Hh). by exists h.
Qed.

Lemma tagScore_empty_tag code : tagScore code EmptyString = 0.
Proof. done. Qed.

Lemma getLanguageMatch_result want haves :
  Forall (fun c => c <> EmptyString) want ->
  exists r, getLanguageMatch want haves = Some r /\
            (r ∈ haves \/ r = langdefault).
Proof.
  induction 1 as [|code want Hne _ (r & Hr & Hin)].
  - exists langdefault. by split; [|right].
  - rewrite (getLanguageMatch_cons _ _ _ Hne), Hr. cbn [mbind option_bind].
    eexists. split; [done|].
    destruct (bestScore haves code) as [m|] eqn:Hbest; [|done].
    destruct (Z.eqb_spec (score m) 0) as [|Hpos]; [done|]. left.
    apply bestScore_elem in Hbest as (h & Hh & -> & Hscore).
    destruct (decide (h = EmptyString)) as [->|Hhne]; [done|].
    by rewrite languageScore_have.
Qed.

(** X4. For wanted codes and available tags none of which is empty,
    [#getLanguageMatch] returns either one of the available tags or the
    default code ["en"]; with nothing wanted, or nothing available, it
    returns the default. *)
Theorem negotiation_result (want haves : list string) :
  Forall (fun c => c <> EmptyString) want ->
  Forall (fun h => h <> EmptyString) haves ->
  (exists r, getLanguageMatch want haves = Some r /\
             (r ∈ haves \/ r = langdefault)) /\
  getLanguageMatch [] haves = Some langdefault /\
  getLanguageMatch want [] = Some langdefault.
Proof.
  intros Hwant _. split; [by apply getLanguageMatch_result|].
  split; [done|].
  destruct (getLanguageMatch_result want [] Hwant) as (r & -> & [Hin| ->]);
    [by apply elem_of_nil in Hin|done].
Qed.

Lemma negotiation_result_witness :
  (exists r, getLanguageMatch ["de-at"; "it"] ["en"; "it"] = Some r /\
             (r ∈ ["en"; "it"] \/ r = langdefault)) /\
  getLanguageMatch [] ["en"; "it"] = Some langdefault /\
  getLanguageMatch ["de-at"; "it"] [] = Some langdefault.
Proof.
  apply negotiation_result; repeat constructor; discriminate.
Defined.

(** X5. A wanted list that holds the empty code makes
    [#getLanguageMatch] throw (it reads [scoresets[0].scores] of a code
    without subcodes), whatever the other codes are. *)
Theorem negotiation_throws_on_empty_code (want haves : list string) :
  EmptyString ∈ want -> getLanguageMatch want haves = None.
Proof.
  unfold getLanguageMatch. intros Hin.
  assert (mapM (wantedMatch (map getSubcodes haves)) want = None) as ->;
    [|done].
  induction want as [|code want IH]; [by apply elem_of_nil in Hin|].
  cbn [mapM]. apply elem_of_cons in Hin as [<-|Hin]; [done|].
  rewrite IH by done. by destruct (wantedMatch _ code).
Qed.

Lemma negotiation_throws_on_empty_code_witness :
  getLanguageMatch ["en"; ""] ["en"; "it"] = None.
Proof.
  apply negotiation_throws_on_empty_code. right. left.
Defined.

(** X6. Wanted codes are tried in their order of precedence: when no
    available tag is empty, leading codes that score zero against every
    available tag are passed over, and the result is that of the remaining
    codes (the default when none remains). *)
Theorem unmatched_codes_are_skipped (pre rest haves : list string) :
  Forall (fun h => h <> EmptyString) haves ->
  Forall (fun c => c <> EmptyString /\
                   forall h, h ∈ haves -> tagScore c h = 0) pre ->
  getLanguageMatch (pre ++ rest) haves = getLanguageMatch rest haves.
Proof.
  intros _.
  induction 1 as [|code pre [Hne Hzero] _ IH]; [done|].
  cbn [app]. rewrite (getLanguageMatch_cons _ _ _ Hne), IH.
  destruct (getLanguageMatch rest haves) as [r|]; [|done].
  cbn [mbind option_bind]. f_equal.
  destruct (bestScore haves code) as [m|] eqn:Hbest; [|done].
  apply bestScore_elem in Hbest as (h & Hh & _ & ->).
  by rewrite (Hzero h Hh).
Qed.

Lemma unmatched_codes_are_skipped_witness :
  getLanguageMatch (["de-at"; "nl"] ++ ["it-ch"; "en"]) ["en"; "it"]
  = getLanguageMatch ["it-ch"; "en"] ["en"; "it"].
Proof.
  apply unmatched_codes_are_skipped; [repeat constructor; discriminate|].
  repeat constructor; try discriminate;
    intros h Hh; apply list_elem_of_In in Hh; simpl in Hh;
    destruct Hh as [<-|[<-|[]]]; reflexivity.
Defined.

End Locale.

(** ** Part 2. Registration of locale tables: the static method [i18n] *)

Module I18n.

(** A value found in an author-supplied table: a string, or anything whose
    [typeof] is not ['string']. *)
Inductive JSValue :=
| JSString (s : string)
| JSOther.

(** [#langkeys]: the keys of the built-in English table. *)
Definition langkeys : list string :=
  [ "role-description"; "selection-notes"; "empty-notes"; "drop-notes";
    "sort-notes"; "sort-number"; "selected-items"; "dropped-items";
    "item-single"; "item-plural" ].

(** The exceptions [i18n] throws, with the language code they name and the
    keys they list ([invalid] and [notokens] in the order of [langkeys]). *)
Inductive Exception :=
| TypeError_code (code : string)
| TypeError_missing (code : string) (missing : list string)
| TypeError_invalid (code : string) (invalid : list string)
| SyntaxError_tokens (code : string) (notokens : list string).

(** [str.indexOf(token)]: the position of the first occurrence, or -1. *)
Definition indexOf (str token : string) : Z :=
  match String.index 0 token str with
  | Some n => Z.of_nat n
  | None => -1
  end.

(** The built-in tables of [#language]. *)
Definition table (l : list (string * string)) : gmap string JSValue :=
  list_to_map (map (fun kv => (fst kv, JSString (snd kv))) l).

Definition language_en : gmap string JSValue :=
  table [ ("role-description", "{{role}} drag and drop");
          ("selection-notes", "To choose items press Space.");
          ("empty-notes", "No items.");
          ("drop-notes", "To drop items press Enter.");
          ("sort-notes", "Sort by chosen order.");
          ("sort-number", "#{{number}}");
          ("selected-items", "{{count}} {{items}} checked.");
          ("dropped-items", "{{count}} {{items}} dropped.");
          ("item-single", "item");
          ("item-plural", "items") ].

Definition language_it : gmap string JSValue :=
  table [ ("role-description", "{{role}} drag and drop");
          ("selection-notes",
           "Per scegliere l elemento premere Barra Spaziatrice.");
          ("empty-notes", "Non ci sono definizioni.");
          ("drop-notes", "Per rilasciare l elemento selezionato premere Invio");
          ("sort-notes", "Riordina scegliendo l ordine");
          ("sort-number", "#{{number}}");
          ("selected-items", "{{count}} {{items}} selezionate.");
          ("dropped-items", "{{count}} {{items}} spostate.");
          ("item-single", "elemento");
          ("item-plural", "elementi") ].

Definition default_language : gmap string (gmap string JSValue) :=
  <["it" := language_it]> (<["en" := language_en]> ∅).

(** [String.prototype.trim] and [toLowerCase] restricted to ASCII: the
    white space removed is tab, line feed, vertical tab, form feed,
    carriage return and space. The definitions of [i18n] below take the two
    built-ins as parameters, so what is proved of [i18n] does not depend on
    this restriction. *)
Definition is_space (c : ascii) : bool :=
  let n := nat_of_ascii c in
  ((9 <=? n) && (n <=? 13) || (n =? 32))%nat.

Fixpoint trim_start (s : string) : string :=
  match s with
  | String c s' => if is_space c then trim_start s' else s
  | EmptyString => EmptyString
  end.

Fixpoint trim_end (s : string) : string :=
  match s with
  | String c s' =>
      match trim_end s' with
      | EmptyString => if is_space c then EmptyString else String c EmptyString
      | t => String c t
      end
  | EmptyString => EmptyString
  end.

Definition ascii_trim (s : string) : string := trim_end (trim_start s).

Definition lower_char (c : ascii) : ascii :=
  let n := nat_of_ascii c in
  if ((65 <=? n) && (n <=? 90))%nat then ascii_of_nat (n + 32) else c.

Fixpoint ascii_toLowerCase (s : string) : string :=
  match s with
  | String c s' => String (lower_char c) (ascii_toLowerCase s')
  | EmptyString => EmptyString
  end.

Section I18n.
(** The JS built-ins [String.prototype.trim] and
    [String.prototype.toLowerCase]. *)
Variable trim : string -> string.
Variable toLowerCase : string -> string.

(** A string is truthy when it is not empty. *)
Definition truthy (s : string) : bool :=
  match s with EmptyString => false | _ => true end.

(** [typeof(v) == 'string' && v.trim()]. *)
Definition valid_string (v : option JSValue) : bool :=
  match v with
  | Some (JSString s) => truthy (trim s)
  | _ => false
  end.

(** The [switch(true)] of the token check: does the value at [key] lack a
    token it must hold? Called once every value is a valid string. *)
Definition notoken (strings : gmap string JSValue) (key : string) : bool :=
  match strings !! key with
  | Some (JSString str) =>
      if String.eqb key "role-description" then indexOf str "{{role}}" <? 0
      else if String.eqb key "sort-number" then indexOf str "{{number}}" <? 0
      else if negb (String.eqb key "selected-items"
                    || String.eqb key "dropped-items") then false
      else (indexOf str "{{count}}" <? 0) || (indexOf str "{{items}}" <? 0)
  | _ => false
  end.

(** The body of the loop of [i18n] up to the assignment: the table that
    will be saved for [code], or the exception thrown. The code walks the
    keys of the filtered table in the order of the table; here they are
    walked in the order of [langkeys]. Once no key is missing these are
    the same keys, so that only the order in which an exception lists the
    keys it names can differ. *)
Definition validate (code : string) (strings : gmap string JSValue)
  : Exception + gmap string JSValue :=
  if negb (truthy (trim code)) then inl (TypeError_code code) else
  let strings := filter (fun entry => entry.1 ∈ langkeys) strings in
  let missing :=
    List.filter (fun expected => bool_decide (strings !! expected = None))
                langkeys in
  if negb (Nat.eqb (length missing) 0) then inl (TypeError_missing code missing)
  else
  let keys := List.filter (fun key => bool_decide (is_Some (strings !! key)))
                          langkeys in
  let invalid :=
    List.filter (fun key => negb (valid_string (strings !! key))) keys in
  if negb (Nat.eqb (length invalid) 0) then inl (TypeError_invalid code invalid)
  else
  let notokens := List.filter (notoken strings) keys in
  if negb (Nat.eqb (length notokens) 0)
  then inl (SyntaxError_tokens code notokens)
  else inr strings.

(** [i18n(lang)] over [Object.entries(lang)] with the registry
    [#language] threaded through: the registry afterwards, and the
    exception that ended the call, if any. *)
Fixpoint i18n (lang : list (string * gmap string JSValue))
    (language : gmap string (gmap string JSValue))
  : gmap string (gmap string JSValue) * option Exception :=
  match lang with
  | [] => (language, None)
  | (code, strings) :: rest =>
      match validate code strings with
      | inl ex => (language, Some ex)
      | inr strings => i18n rest (<[toLowerCase code := strings]> language)
      end
  end.

(** The codes the constructor looks for, in their order of precedence:
    the [lang] attribute of the scope, that of the document element, and
    [navigator.language], each trimmed and in lower case, the empty ones
    left out. A missing attribute is [None]. *)
Definition wantedCodes (scope_lang document_lang : option string)
    (navigator_language : string) : list string :=
  List.filter truthy
    (map (fun code => toLowerCase (trim (default EmptyString code)))
         [scope_lang; document_lang; Some navigator_language]).

(** [#langcode] as the constructor sets it; [have] is
    [Object.keys(#language)]. *)
Definition langcode (scope_lang document_lang : option string)
    (navigator_language : string) (have : list string) : option string :=
  Locale.getLanguageMatch
    (wantedCodes scope_lang document_lang navigator_language) have.

(** The registries the class can have: the built-in one, changed by any
    calls of [i18n] (a call that throws keeps what it had registered). *)
Inductive registry : gmap string (gmap string JSValue) -> Prop :=
| registry_default : registry default_language
| registry_i18n lang language :
    registry language -> registry (i18n lang language).1.

(** *** Rejected tables *)

Lemma filter_nonempty {A} (f : A -> bool) (l : list A) (x : A) :
  In x l -> f x = true -> negb (Nat.eqb (length (List.filter f l)) 0) = true.
Proof.
  intros Hx Hf.
  assert (Hin : In x (List.filter f l)) by (apply filter_In; done).
  by destruct (List.filter f l).
Qed.

Lemma langkeys_lookup_filter (strings : gmap string JSValue) key :
  key ∈ langkeys ->
  filter (fun entry => entry.1 ∈ langkeys) strings !! key = strings !! key.
Proof.
  intros Hkey. destruct (strings !! key) as [v|] eqn:Hv.
  - by apply map_lookup_filter_Some.
  - apply map_lookup_filter_None. left. done.
Qed.

(** A table that misses an expected key is rejected. *)
Lemma validate_missing code strings key :
  key ∈ langkeys -> strings !! key = None ->
  exists ex, validate code strings = inl ex.
Proof.
  intros Hkey Hnone. unfold validate.
  destruct (negb (truthy (trim code))); [by eexists|].
  rewrite (filter_nonempty _ _ key); [by eexists| |].
  - by apply list_elem_of_In.
  - apply bool_decide_eq_true. by rewrite langkeys_lookup_filter.
Qed.

(** A table whose count template lacks a placeholder is rejected. *)
Lemma validate_notokens code strings key str :
  key = "selected-items" \/ key = "dropped-items" ->
  strings !! key = Some (JSString str) ->
  indexOf str "{{count}}" < 0 \/ indexOf str "{{items}}" < 0 ->
  exists ex, validate code strings = inl ex.
Proof.
  intros Hkey Hstr Htok. unfold validate.
  destruct (negb (truthy (trim code))); [by eexists|].
  destruct (negb (length (List.filter _ langkeys) =? 0)%nat); [by eexists|].
  destruct (negb (length (List.filter _ _) =? 0)%nat); [by eexists|].
  assert (Hin : key ∈ langkeys).
  { apply list_elem_of_In. destruct Hkey as [-> | ->]; simpl; tauto. }
  rewrite (filter_nonempty _ _ key); [by eexists| |].
  - apply filter_In. split; [by apply list_elem_of_In|].
    apply bool_decide_eq_true. rewrite langkeys_lookup_filter by done.
    by eexists.
  - unfold notoken. rewrite langkeys_lookup_filter, Hstr by done.
    destruct Hkey as [-> | ->]; cbn [String.eqb Ascii.eqb Bool.eqb negb orb];
      apply orb_true_iff; rewrite !Z.ltb_lt; done.
Qed.

(** C9. Registering a single table that misses one of the expected keys,
    or whose count template (["selected-items"] or ["dropped-items"])
    lacks [{{count}}] or [{{items}}], throws, and the registry is what it
    was: in particular a tag that had no entry has none afterwards. *)
Theorem i18n_rejects_invalid_table
    (language : gmap string (gmap string JSValue))
    (code : string) (strings : gmap string JSValue) :
  (exists key, key ∈ langkeys /\ strings !! key = None) \/
  (exists key str,
      (key = "selected-items" \/ key = "dropped-items") /\
      strings !! key = Some (JSString str) /\
      (indexOf str "{{count}}" < 0 \/ indexOf str "{{items}}" < 0)) ->
  exists ex,
    i18n [(code, strings)] language = (language, Some ex) /\
    (language !! toLowerCase code = None ->
     (i18n [(code, strings)] language).1 !! toLowerCase code = None).
Proof.
  intros Hbad.
  assert (Hex : exists ex, validate code strings = inl ex).
  { destruct Hbad as [(key & Hkey & Hnone) | (key & str & Hkey & Hstr & Htok)].
    - by eapply validate_missing.
    - by eapply validate_notokens. }
  destruct Hex as [ex Hex]. exists ex. cbn [i18n]. by rewrite Hex.
Qed.

(** A table that passes every check is saved under the lower-cased code. *)
Lemma i18n_accepts language code strings strings' :
  validate code strings = inr strings' ->
  i18n [(code, strings)] language
  = (<[toLowerCase code := strings']> language, None).
Proof. intros Hv. cbn [i18n]. by rewrite Hv. Qed.

End I18n.

(** C9 at a concrete input: the English table without ["item-plural"],
    registered as ["fr"] with the ASCII built-ins. *)
Lemma i18n_rejects_invalid_table_witness :
  exists ex,
    i18n ascii_trim ascii_toLowerCase
      [("fr", delete "item-plural" language_en)] default_language
    = (default_language, Some ex) /\
    (default_language !! ascii_toLowerCase "fr" = None ->
     (i18n ascii_trim ascii_toLowerCase
        [("fr", delete "item-plural" language_en)] default_language).1
       !! ascii_toLowerCase "fr" = None).
Proof.
  apply i18n_rejects_invalid_table. left. exists "item-plural". split.
  - apply list_elem_of_In. simpl. tauto.
  - apply lookup_delete_eq.
Defined.

(** The three ways a table is turned down, and a table that is accepted. *)
Example validate_missing_key :
  validate ascii_trim "fr" (delete "item-plural" language_en)
  = inl (TypeError_missing "fr" ["item-plural"]).
Proof. vm_compute. reflexivity. Qed.

Example validate_missing_token :
  validate ascii_trim "fr"
    (<["selected-items" := JSString "{{count}} checked."]> language_en)
  = inl (SyntaxError_tokens "fr" ["selected-items"]).
Proof. vm_compute. reflexivity. Qed.

Example validate_blank_value :
  validate ascii_trim "fr" (<["empty-notes" := JSString "  "]> language_en)
  = inl (TypeError_invalid "fr" ["empty-notes"]).
Proof. vm_compute. reflexivity. Qed.

Example i18n_registers_valid_table :
  let r := i18n ascii_trim ascii_toLowerCase [("FR-ca", language_it)]
             default_language in
  r.2 = None /\
  (r.1 !! "fr-ca") ≫= (fun strings => strings !! "item-single")
  = Some (JSString "elemento").
Proof. vm_compute. split; reflexivity. Qed.

Section Registry.
Variable trim toLowerCase : string -> string.

(** *** Several tables *)

Lemma i18n_app lang lang' language :
  i18n trim toLowerCase (lang ++ lang') language
  = match (i18n trim toLowerCase lang language).2 with
    | None => i18n trim toLowerCase lang'
                (i18n trim toLowerCase lang language).1
    | Some ex => ((i18n trim toLowerCase lang language).1, Some ex)
    end.
Proof.
  revert language. induction lang as [|[code strings] lang IH];
    intros language; [done|].
  cbn [app i18n]. destruct (validate trim code strings); [done|]. apply IH.
Qed.

(** X7. [i18n] registers the tables in the order of the object's
    entries and stops at the first one it rejects: the tables before it
    are registered, the rejected one and those after it are not. *)
Theorem i18n_stops_at_first_rejected
    (good rest : list (string * gmap string JSValue))
    (code : string) (strings : gmap string JSValue)
    (language : gmap string (gmap string JSValue)) (ex : Exception) :
  (i18n trim toLowerCase good language).2 = None ->
  validate trim code strings = inl ex ->
  i18n trim toLowerCase (good ++ (code, strings) :: rest) language
  = ((i18n trim toLowerCase good language).1, Some ex).
Proof.
  intros Hgood Hbad. rewrite i18n_app, Hgood. cbn [i18n].
  by rewrite Hbad.
Qed.

End Registry.

(** *** What an accepted table holds *)

Section Accepted.
Variable trim : string -> string.

Lemma filter_nil_length {A} (f : A -> bool) (l : list A) :
  negb (Nat.eqb (length (List.filter f l)) 0) = false ->
  forall x, x ∈ l -> f x = false.
Proof.
  intros Hlen x Hx%list_elem_of_In.
  destruct (f x) eqn:Hf; [|done].
  assert (Hin : In x (List.filter f l)) by (by apply filter_In).
  by destruct (List.filter f l).
Qed.

Lemma validate_accepted code strings strings' :
  validate trim code strings = inr strings' ->
  strings' = filter (fun entry => entry.1 ∈ langkeys) strings /\
  forall key, key ∈ langkeys ->
    exists str, strings' !! key = Some (JSString str) /\
                trim str <> EmptyString /\ notoken strings' key = false.
Proof.
  unfold validate.
  destruct (negb (truthy (trim code))); [done|].
  set (kept := filter (fun entry => entry.1 ∈ langkeys) strings).
  set (keys := List.filter
                 (fun key => bool_decide (is_Some (kept !! key))) langkeys).
  destruct (negb (Nat.eqb (length (List.filter
              (fun expected => bool_decide (kept !! expected = None))
              langkeys)) 0)) eqn:Hmissing; [done|].
  destruct (negb (Nat.eqb (length (List.filter
              (fun key => negb (valid_string trim (kept !! key))) keys)) 0))
    eqn:Hinvalid; [done|].
  destruct (negb (Nat.eqb (length (List.filter (notoken kept) keys)) 0))
    eqn:Htokens; [done|].
  intros [= <-]. split; [done|]. intros key Hkey.
  pose proof (filter_nil_length _ _ Hmissing key Hkey) as Hsome.
  apply bool_decide_eq_false in Hsome.
  assert (Hkeys : In key keys).
  { apply filter_In. split; [by apply list_elem_of_In|].
    apply bool_decide_eq_true. by destruct (kept !! key); [eexists|]. }
  apply list_elem_of_In in Hkeys.
  pose proof (filter_nil_length _ _ Hinvalid key Hkeys) as Hvalid.
  pose proof (filter_nil_length _ _ Htokens key Hkeys) as Htoken.
  apply negb_false_iff in Hvalid. unfold valid_string in Hvalid.
  destruct (kept !! key) as [[str|]|] eqn:Hk; try done.
  exists str. split; [done|]. split; [|done].
  intros Hempty. by rewrite Hempty in Hvalid.
Qed.

(** X8. A table that [i18n] accepts is saved with exactly the expected
    keys (unexpected ones are dropped), each with the author's value, a
    string that is not blank; and the templates hold their tokens:
    [{{role}}] in ["role-description"], [{{number}}] in ["sort-number"],
    [{{count}}] and [{{items}}] in ["selected-items"] and
    ["dropped-items"]. *)
Theorem accepted_table_is_complete
    (code : string) (strings strings' : gmap string JSValue) :
  validate trim code strings = inr strings' ->
  (forall key, is_Some (strings' !! key) <-> key ∈ langkeys) /\
  (forall key value, strings' !! key = Some value ->
                     strings !! key = Some value) /\
  (forall key, key ∈ langkeys ->
     exists str, strings' !! key = Some (JSString str) /\
                 trim str <> EmptyString) /\
  (exists str, strings' !! "role-description" = Some (JSString str) /\
               0 <= indexOf str "{{role}}") /\
  (exists str, strings' !! "sort-number" = Some (JSString str) /\
               0 <= indexOf str "{{number}}") /\
  (forall key, key = "selected-items" \/ key = "dropped-items" ->
     exists str, strings' !! key = Some (JSString str) /\
                 0 <= indexOf str "{{count}}" /\
                 0 <= indexOf str "{{items}}").
Proof.
  intros [Hkept Hkeys]%validate_accepted.
  assert (Htoken : forall key, key ∈ langkeys ->
            exists str, strings' !! key = Some (JSString str) /\
                        notoken strings' key = false).
  { intros key (str & Hstr & _ & Htok)%Hkeys. by exists str. }
  split; [|split; [|split; [|split; [|split]]]].
  - intros key. split; [|by intros (str & -> & _)%Hkeys].
    rewrite Hkept. intros [value Hv].
    by apply map_lookup_filter_Some in Hv as [_ Hin].
  - intros key value. rewrite Hkept.
    by intros [Hv _]%map_lookup_filter_Some.
  - intros key (str & Hstr & Hne & _)%Hkeys. by exists str.
  - destruct (Htoken "role-description") as (str & Hstr & Htok).
    { rewrite list_elem_of_In. simpl. tauto. }
    exists str. split; [done|]. unfold notoken in Htok. rewrite Hstr in Htok.
    cbn [String.eqb Ascii.eqb Bool.eqb] in Htok. lia.
  - destruct (Htoken "sort-number") as (str & Hstr & Htok).
    { rewrite list_elem_of_In. simpl. tauto. }
    exists str. split; [done|]. unfold notoken in Htok. rewrite Hstr in Htok.
    cbn [String.eqb Ascii.eqb Bool.eqb] in Htok. lia.
  - intros key Hkey. destruct (Htoken key) as (str & Hstr & Htok).
    { rewrite list_elem_of_In. destruct Hkey as [-> | ->]; simpl; tauto. }
    exists str. split; [done|]. unfold notoken in Htok. rewrite Hstr in Htok.
    destruct Hkey as [-> | ->];
      cbn [String.eqb Ascii.eqb Bool.eqb negb orb] in Htok;
      apply orb_false_iff in Htok; lia.
Qed.

End Accepted.

(** *** Looking up what was registered *)

Section Lookup.
Variable trim toLowerCase : string -> string.

(** X9. After a call of [i18n] that accepts all its tables, the entry of
    the registry for a code is the table (cut down to the expected keys)
    of the last entry of the argument whose code is that code in lower
    case; so tables given under codes that differ only in case replace one
    another. *)
Theorem i18n_lookup
    (lang : list (string * gmap string JSValue))
    (language : gmap string (gmap string JSValue))
    (k code : string) (strings : gmap string JSValue) :
  (i18n trim toLowerCase lang language).2 = None ->
  last (List.filter (fun entry => String.eqb (toLowerCase entry.1) k) lang)
  = Some (code, strings) ->
  (i18n trim toLowerCase lang language).1 !! k
  = Some (filter (fun entry => entry.1 ∈ langkeys) strings).
Proof.
  revert code strings.
  induction lang as [|[c s] lang IH] using rev_ind; intros code strings;
    [done|].
  rewrite i18n_app, List.filter_app, last_app.
  destruct (i18n trim toLowerCase lang language).2 as [ex|] eqn:Hok;
    [done|].
  cbn [i18n List.filter fst].
  destruct (validate trim c s) as [ex|s'] eqn:Hv; [done|]. intros _.
  apply validate_accepted in Hv as [-> _]. cbn [fst].
  destruct (String.eqb_spec (toLowerCase c) k) as [<-|Hne].
  - cbn [last]. intros [= <- <-]. apply lookup_insert_eq.
  - cbn [last]. intros Hlast. rewrite lookup_insert_ne by done.
    by apply (IH code).
Qed.

(** X10. [i18n] never takes an entry out of the registry, and it leaves
    the entry of every code alone that is not the lower-case form of a
    code it is given; in particular the default language stays
    registered. *)
Theorem i18n_keeps_entries
    (lang : list (string * gmap string JSValue))
    (language : gmap string (gmap string JSValue)) (k : string) :
  (is_Some (language !! k) ->
   is_Some ((i18n trim toLowerCase lang language).1 !! k)) /\
  ((forall entry, entry ∈ lang -> toLowerCase entry.1 <> k) ->
   (i18n trim toLowerCase lang language).1 !! k = language !! k).
Proof.
  revert language. induction lang as [|[c s] lang IH]; intros language;
    [done|].
  cbn [i18n]. destruct (validate trim c s) as [ex|s']; [done|].
  destruct (IH (<[toLowerCase c := s']> language)) as [IH1 IH2]. split.
  - intros Hk. apply IH1. rewrite lookup_insert_is_Some'. by right.
  - intros Hother. rewrite IH2.
    + apply lookup_insert_ne. apply (Hother (c, s)). by left.
    + intros entry Hentry. apply Hother. by right.
Qed.
End Lookup.

(** The tables used to try the registry. *)
Lemma italian_as_french_accepted :
  (i18n ascii_trim ascii_toLowerCase [("fr", language_it)]
     default_language).2 = None.
Proof. vm_compute. reflexivity. Qed.

Lemma table_without_plural_rejected :
  validate ascii_trim "de" (delete "item-plural" language_en)
  = inl (TypeError_missing "de" ["item-plural"]).
Proof. vm_compute. reflexivity. Qed.

Lemma table_with_unexpected_key_accepted :
  match validate ascii_trim "fr" (<["unexpected" := JSOther]> language_it) with
  | inl _ => False
  | inr _ => True
  end.
Proof. vm_compute. exact I. Qed.

Lemma two_french_tables_accepted :
  (i18n ascii_trim ascii_toLowerCase
     [("FR", language_en); ("fr", language_it)] default_language).2 = None.
Proof. vm_compute. reflexivity. Qed.

Lemma i18n_stops_at_first_rejected_witness :
  i18n ascii_trim ascii_toLowerCase
    ([("fr", language_it)]
     ++ ("de", delete "item-plural" language_en) :: [("es", language_en)])
    default_language
  = ((i18n ascii_trim ascii_toLowerCase [("fr", language_it)]
        default_language).1,
     Some (TypeError_missing "de" ["item-plural"])).
Proof.
  apply i18n_stops_at_first_rejected.
  - exact italian_as_french_accepted.
  - exact table_without_plural_rejected.
Defined.

Lemma accepted_table_is_complete_witness :
  exists strings',
    validate ascii_trim "fr" (<["unexpected" := JSOther]> language_it)
    = inr strings' /\
    forall key, is_Some (strings' !! key) <-> key ∈ langkeys.
Proof.
  pose proof table_with_unexpected_key_accepted as Hok.
  destruct (validate ascii_trim "fr" (<["unexpected" := JSOther]> language_it))
    as [ex|strings'] eqn:Hv; [destruct Hok|].
  exists strings'. split; [reflexivity|].
  exact (proj1 (accepted_table_is_complete ascii_trim "fr" _ _ Hv)).
Defined.

Lemma i18n_lookup_witness :
  (i18n ascii_trim ascii_toLowerCase
     [("FR", language_en); ("fr", language_it)] default_language).1 !! "fr"
  = Some (filter (fun entry => entry.1 ∈ langkeys) language_it).
Proof.
  apply (i18n_lookup ascii_trim ascii_toLowerCase _ _ "fr" "fr").
  - exact two_french_tables_accepted.
  - reflexivity.
Defined.

Lemma i18n_keeps_entries_witness :
  is_Some ((i18n ascii_trim ascii_toLowerCase [("fr", language_it)]
              default_language).1 !! "en") /\
  (i18n ascii_trim ascii_toLowerCase [("fr", language_it)]
     default_language).1 !! "en" = default_language !! "en".
Proof.
  destruct (i18n_keeps_entries ascii_trim ascii_toLowerCase
              [("fr", language_it)] default_language "en") as [Hkept Hsame].
  split.
  - apply Hkept. unfold default_language.
    rewrite lookup_insert_ne by discriminate. rewrite lookup_insert_eq.
    eexists. reflexivity.
  - apply Hsame. intros entry Hentry.
    apply list_elem_of_In in Hentry. destruct Hentry as [<-|[]].
    discriminate.
Defined.

(** *** The language of an instance *)

Section InstanceLanguage.
Variable trim toLowerCase : string -> string.

Lemma i18n_is_Some lang language k :
  is_Some (language !! k) ->
  is_Some ((i18n trim toLowerCase lang language).1 !! k).
Proof.
  revert language. induction lang as [|[c s] lang IH]; intros language;
    [done|].
  cbn [i18n]. destruct (validate trim c s) as [ex|s']; [done|].
  intros Hk. apply IH. rewrite lookup_insert_is_Some'. by right.
Qed.

Lemma registry_default_language language :
  registry trim toLowerCase language ->
  is_Some (language !! Locale.langdefault).
Proof.
  induction 1 as [|lang language _ IH]; [|by apply i18n_is_Some].
  unfold default_language. rewrite lookup_insert_ne by done.
  rewrite lookup_insert_eq. by eexists.
Qed.

Lemma wantedCodes_nonempty scope_lang document_lang navigator_language :
  Forall (fun c => c <> EmptyString)
    (wantedCodes trim toLowerCase scope_lang document_lang
       navigator_language).
Proof.
  apply Forall_forall. intros code Hcode%list_elem_of_In.
  unfold wantedCodes in Hcode. apply filter_In in Hcode as [_ Hcode].
  by destruct code.
Qed.

(** X11. The constructor always finds a language: whatever the [lang]
    attributes and the browser language are, and whatever [i18n] has
    registered or rejected before, the negotiation does not throw and the
    code it returns has a table in the registry. *)
Theorem instance_language_is_registered
    (language : gmap string (gmap string JSValue)) (have : list string)
    (scope_lang document_lang : option string) (navigator_language : string) :
  registry trim toLowerCase language ->
  (forall h, h ∈ have <-> is_Some (language !! h)) ->
  exists code strings,
    langcode trim toLowerCase scope_lang document_lang navigator_language
      have = Some code /\
    language !! code = Some strings.
Proof.
  intros Hreg Hhave. unfold langcode.
  destruct (Locale.getLanguageMatch_result
              (wantedCodes trim toLowerCase scope_lang document_lang
                 navigator_language) have)
    as (code & Hcode & Hin); [apply wantedCodes_nonempty|].
  assert (Hsome : is_Some (language !! code)).
  { destruct Hin as [Hin| ->]; [by apply Hhave|].
    by apply registry_default_language. }
  destruct Hsome as [strings Hstrings]. by exists code, strings.
Qed.

End InstanceLanguage.

Lemma instance_language_is_registered_witness :
  exists code strings,
    langcode ascii_trim ascii_toLowerCase (Some " IT-ch ") None "en-US"
      ["en"; "it"] = Some code /\
    default_language !! code = Some strings.
Proof.
  apply (instance_language_is_registered ascii_trim ascii_toLowerCase).
  - apply registry_default.
  - intros h. unfold default_language.
    rewrite !lookup_insert_is_Some', lookup_empty, !elem_of_cons, elem_of_nil.
    split.
    + intros [->|[->|[]]]; auto.
    + intros [<-|[<-|[? [=]]]]; auto.
Defined.

Example langcode_prefers_the_scope :
  langcode ascii_trim ascii_toLowerCase (Some " IT-ch ") None "en-US"
    ["en"; "it"] = Some "it".
Proof. vm_compute. reflexivity. Qed.

End I18n.

(** ** Part 3. The selection and transfer state machine *)

Module Widget.

Local Open Scope Z_scope.
Local Open Scope list_scope.

(** *** The data *)

(** Elements are identified by number: an [Item] is a
    [data-drag-act="dragitem"] element, a [Droptarget] a
    [data-drag-act="droptarget"] element. *)
Abbreviation Item := nat (only parsing).
Abbreviation Droptarget := nat (only parsing).

(** The attributes of a dragitem the state machine reads and writes.
    [drag_state] is the value of the selection attribute its droptarget
    names in [data-drag-state] ([aria-checked] or [aria-selected]): ['true'],
    ['false'], or absent. An item only ever carries the selection attribute
    of the droptarget it is in ([#doDropThing] removes the owner's before the
    move and re-initialisation writes the new one), so one field stands for
    it. [data_drag_disabled] is the remembered [aria-disabled] state. *)
Record ItemAttrs := mkItemAttrs {
  drag_state : option bool;
  aria_disabled : bool;
  data_drag_disabled : option bool;
  role_radio : bool
}.

(** The attributes of a droptarget: [aria-activedescendant] and
    [data-drag-lastdescendant] (item ids), whether [data-drag-state] is
    ['aria-checked'], and whether [data-drag-safari] is ['macos']. *)
Record TargetAttrs := mkTargetAttrs {
  aria_activedescendant : option Item;
  data_drag_lastdescendant : option Item;
  state_is_checked : bool;
  safari_macos : bool
}.

(** A member of the [#collection] dictionary: the cached array of the
    droptarget's dragitems, whether it has a sort button (which is also what
    its [data-drag-sorted] attribute says), and its default multimode
    (-1, 0 or 1). The label and the insertion parent never change and are
    not represented. *)
Record Collection := mkCollection {
  dragitems : list Item;
  sorted : bool;
  multimode : Z
}.

(** What the handlers learn from an event node through [#getClosest]: the
    surrounding droptarget, dragitem and sort button, if any. *)
Record Target := mkTarget {
  t_droptarget : option Droptarget;
  t_dragitem : option Item;
  t_sorted : bool
}.

(** One instance of [DragAct]: the [#selection] dictionary (its four
    members flattened), [#collection], the [#touching] flag, the
    [#dragenter] node, and whether [#observer] is connected; then the part
    of the document inside its scope: for every droptarget the dragitems
    under its insertion parent in document order, and the attributes of
    items and droptargets. *)
Record Instance := mkInstance {
  selection_dragitems : list Item;
  selection_owner : option Droptarget;
  selection_droptarget : option Droptarget;
  selection_nodesort : bool;
  collection : gmap Droptarget Collection;
  touching : bool;
  dragenter : option Target;
  observing : bool;
  dom_items : Droptarget -> list Item;
  item_attrs : Item -> ItemAttrs;
  target_attrs : Droptarget -> TargetAttrs
}.

(** The page: every instance by its index, and the static
    [#draginstance] reference. *)
Record World := mkWorld {
  instances : nat -> Instance;
  draginstance : option nat
}.

(** Field updates. *)
Definition set_selection_dragitems (v : list Item) (i : Instance) : Instance :=
  mkInstance v (selection_owner i) (selection_droptarget i)
    (selection_nodesort i) (collection i) (touching i) (dragenter i)
    (observing i) (dom_items i) (item_attrs i) (target_attrs i).
Definition set_selection_owner (v : option Droptarget) (i : Instance)
  : Instance :=
  mkInstance (selection_dragitems i) v (selection_droptarget i)
    (selection_nodesort i) (collection i) (touching i) (dragenter i)
    (observing i) (dom_items i) (item_attrs i) (target_attrs i).
Definition set_selection_droptarget (v : option Droptarget) (i : Instance)
  : Instance :=
  mkInstance (selection_dragitems i) (selection_owner i) v
    (selection_nodesort i) (collection i) (touching i) (dragenter i)
    (observing i) (dom_items i) (item_attrs i) (target_attrs i).
Definition set_selection_nodesort (v : bool) (i : Instance) : Instance :=
  mkInstance (selection_dragitems i) (selection_owner i)
    (selection_droptarget i) v (collection i) (touching i) (dragenter i)
    (observing i) (dom_items i) (item_attrs i) (target_attrs i).
Definition set_collection (v : gmap Droptarget Collection) (i : Instance)
  : Instance :=
  mkInstance (selection_dragitems i) (selection_owner i)
    (selection_droptarget i) (selection_nodesort i) v (touching i)
    (dragenter i) (observing i) (dom_items i) (item_attrs i) (target_attrs i).
Definition set_touching (v : bool) (i : Instance) : Instance :=
  mkInstance (selection_dragitems i) (selection_owner i)
    (selection_droptarget i) (selection_nodesort i) (collection i) v
    (dragenter i) (observing i) (dom_items i) (item_attrs i) (target_attrs i).
Definition set_dragenter (v : option Target) (i : Instance) : Instance :=
  mkInstance (selection_dragitems i) (selection_owner i)
    (selection_droptarget i) (selection_nodesort i) (collection i)
    (touching i) v (observing i) (dom_items i) (item_attrs i) (target_attrs i).
Definition set_observing (v : bool) (i : Instance) : Instance :=
  mkInstance (selection_dragitems i) (selection_owner i)
    (selection_droptarget i) (selection_nodesort i) (collection i)
    (touching i) (dragenter i) v (dom_items i) (item_attrs i) (target_attrs i).
Definition set_dom_items (v : Droptarget -> list Item) (i : Instance)
  : Instance :=
  mkInstance (selection_dragitems i) (selection_owner i)
    (selection_droptarget i) (selection_nodesort i) (collection i)
    (touching i) (dragenter i) (observing i) v (item_attrs i) (target_attrs i).
Definition set_item_attrs (v : Item -> ItemAttrs) (i : Instance) : Instance :=
  mkInstance (selection_dragitems i) (selection_owner i)
    (selection_droptarget i) (selection_nodesort i) (collection i)
    (touching i) (dragenter i) (observing i) (dom_items i) v (target_attrs i).
Definition set_target_attrs (v : Droptarget -> TargetAttrs) (i : Instance)
  : Instance :=
  mkInstance (selection_dragitems i) (selection_owner i)
    (selection_droptarget i) (selection_nodesort i) (collection i)
    (touching i) (dragenter i) (observing i) (dom_items i) (item_attrs i) v.

Definition set_drag_state (v : option bool) (a : ItemAttrs) : ItemAttrs :=
  mkItemAttrs v (aria_disabled a) (data_drag_disabled a) (role_radio a).

Definition set_instance (this : nat) (i : Instance) (w : World) : World :=
  mkWorld (<[this := i]> (instances w)) (draginstance w).
Definition set_draginstance (v : option nat) (w : World) : World :=
  mkWorld (instances w) v.

(** [array.forEach(f)] where [f] may throw. *)
Fixpoint forEach {A S : Type} (f : A -> S -> option S) (l : list A) (s : S)
  : option S :=
  match l with
  | [] => Some s
  | x :: l' => s' ← f x s; forEach f l' s'
  end.


(** Run a method that only touches the fields of its own instance. *)
Definition on_instance (this : nat) (f : Instance -> Instance) (w : World)
  : World :=
  set_instance this (f (instances w this)) w.

(** *** Registry of droptargets *)

(** [#getDefaultMultimode(droptarget, dragitems)]. *)
Definition getDefaultMultimode (i : Instance) (droptarget : Droptarget)
    (dragitems : list Item) : Z :=
  if state_is_checked (target_attrs i droptarget) then
    match dragitems with
    | [] => -1
    | first :: _ => if role_radio (item_attrs i first) then 0 else 1
    end
  else -1.

(** The modifier state of an event; [key] says that [e.key] is truthy,
    which it is for keyboard events and is not for pointer events. *)
Record Modifiers := mkModifiers {
  shiftKey : bool;
  ctrlKey : bool;
  metaKey : bool;
  key : bool
}.

(** [#getMultimode(e, droptarget)]; reading [.multimode] of a droptarget
    that is not in [#collection] throws. *)
Definition getMultimode (i : Instance) (e : Modifiers) (droptarget : Droptarget)
  : option Z :=
  col ← collection i !! droptarget;
  Some (match multimode col with
        | 0 => 0
        | 1 => if shiftKey e then 2 else 1
        | _ => if shiftKey e then 2
               else if ctrlKey e || metaKey e || touching i || key e then 1
               else 0
        end).

(** [#getDragitems(droptarget)]: the dragitems of the droptarget in
    document order. *)
Definition getDragitems (i : Instance) (droptarget : Droptarget) : list Item :=
  dom_items i droptarget.

(** [#getDroptarget(droptarget, setdescendant)]: (re-)initialise the
    droptarget and its dragitems, and return the dragitems. Every dragitem
    gets the selection state ['false'] ([#getDragitems(droptarget, true)]);
    in a droptarget that is not empty the active and the last descendant
    become [setdescendant || dragitems[0]], in an empty one
    [aria-activedescendant] is removed. The role and label checks, which
    passed when the instance was constructed, are not represented. *)
Definition getDroptarget (droptarget : Droptarget) (setdescendant : option Item)
    (i : Instance) : Instance * list Item :=
  let dragitems := getDragitems i droptarget in
  let attrs :=
    foldl (fun attrs dragitem =>
             alter (set_drag_state (Some false)) dragitem attrs)
          (item_attrs i) dragitems in
  let ta := target_attrs i droptarget in
  let ta' :=
    match dragitems with
    | first :: _ =>
        let activedescendant := default first setdescendant in
        mkTargetAttrs (Some activedescendant) (Some activedescendant)
          (state_is_checked ta) (safari_macos ta)
    | [] =>
        mkTargetAttrs None (data_drag_lastdescendant ta)
          (state_is_checked ta) (safari_macos ta)
    end in
  (set_target_attrs (<[droptarget := ta']> (target_attrs i))
     (set_item_attrs attrs i),
   dragitems).

(** The rebuild of one member of [#collection] that follows a drop or an
    observed mutation: [#getDroptarget], then the assignments to
    [dragitems] and [multimode] (the assignment throws for a droptarget that
    is not in [#collection]). *)
Definition rebuild (droptarget : Droptarget) (setdescendant : option Item)
    (i : Instance) : option Instance :=
  col ← collection i !! droptarget;
  let '(i, dragitems) := getDroptarget droptarget setdescendant i in
  Some (set_collection
          (<[droptarget :=
               mkCollection dragitems (sorted col)
                 (getDefaultMultimode i droptarget dragitems)]>
             (collection i))
          i).

(** *** Virtual focus *)

(** [#activeUpdate(droptarget, dragitem)]. *)
Definition activeUpdate (droptarget : option Droptarget)
    (dragitem : option Item) (i : Instance) : option Instance :=
  match droptarget, dragitem with
  | Some droptarget, Some dragitem =>
      let ta := target_attrs i droptarget in
      if decide (aria_activedescendant ta = Some dragitem) then Some i
      else
        col ← collection i !! droptarget;
        let active :=
          if decide (dragitem ∈ dragitems col) then Some dragitem
          else aria_activedescendant ta in
        Some (set_target_attrs
                (<[droptarget :=
                     mkTargetAttrs active (aria_activedescendant ta)
                       (state_is_checked ta) (safari_macos ta)]>
                   (target_attrs i))
                i)
  | _, _ => Some i
  end.

(** *** Valid-target marking *)

(** What [#addDragValid] does to a dragitem of a droptarget that is not the
    owner: remember its [aria-disabled] state unless one is remembered
    already, then disable it. *)
Definition disable (a : ItemAttrs) : ItemAttrs :=
  mkItemAttrs (drag_state a) true
    (match data_drag_disabled a with
     | None => Some (aria_disabled a)
     | Some remembered => Some remembered
     end)
    (role_radio a).

(** What [#clearDragValid] does to a dragitem: put back the remembered
    [aria-disabled] state and forget it. *)
Definition restore (a : ItemAttrs) : ItemAttrs :=
  mkItemAttrs (drag_state a)
    (bool_decide (data_drag_disabled a = Some true)) None (role_radio a).

(** A loop over the dragitems of the members of [#collection] chosen by
    [affected], changing the attributes of each with [f]. The members are
    visited in the order of [map_to_list]; JS visits them in insertion
    order, which gives the same attributes as long as no dragitem is listed
    twice. *)
Definition forDragitems (affected : Droptarget -> bool)
    (f : ItemAttrs -> ItemAttrs) (i : Instance) : Item -> ItemAttrs :=
  foldl (fun attrs entry =>
           if affected entry.1
           then foldl (fun attrs dragitem => alter f dragitem attrs)
                      attrs (dragitems entry.2)
           else attrs)
        (item_attrs i) (map_to_list (collection i)).

(** [#addDragValid()]: the dragitems of every droptarget other than the
    selection owner are disabled. ([data-drag-valid], the sort buttons and
    the descriptions are not represented.) *)
Definition addDragValid (i : Instance) : Instance :=
  set_item_attrs
    (forDragitems
       (fun droptarget =>
          negb (bool_decide (selection_owner i = Some droptarget)))
       disable i)
    i.

(** [#clearDragValid()]. *)
Definition clearDragValid (i : Instance) : Instance :=
  match selection_dragitems i with
  | [] => i
  | _ =>
      set_item_attrs
        (forDragitems
           (fun droptarget =>
              negb (bool_decide (selection_owner i = Some droptarget))
              || negb (selection_nodesort i))
           restore i)
        i
  end.

(** *** Selection *)

(** [this.#getClosest(dragitem)] is not null: the dragitem is inside one
    of the droptargets of the scope. *)
Definition inside_droptarget (i : Instance) (dragitem : Item) : Prop :=
  map_Exists (fun droptarget _ => dragitem ∈ dom_items i droptarget)
             (collection i).

(** [#removeSelection(dragitem, droptarget = null)]. It throws when
    neither a droptarget nor a selection owner is there to name the
    selection attribute, and when the dragitem is inside no droptarget. *)
Definition removeSelection (this : nat) (dragitem : Item)
    (droptarget : option Droptarget) (w : World) : option World :=
  let i := instances w this in
  let droptarget :=
    match droptarget with
    | Some droptarget => Some droptarget
    | None => selection_owner i
    end in
  _ ← droptarget;
  let i := set_item_attrs
             (alter (set_drag_state (Some false)) dragitem (item_attrs i)) i in
  let i := set_selection_dragitems
             (filter (fun item => item <> dragitem) (selection_dragitems i))
             i in
  if decide (inside_droptarget i dragitem) then
    match selection_dragitems i with
    | [] =>
        Some (set_draginstance None
                (set_instance this
                   (set_observing true (set_selection_nodesort true i)) w))
    | _ => Some (set_instance this i w)
    end
  else None.

(** [#clearSelections(droptarget = null)]; the [forEach] walks the array
    the selection held when the call began. *)
Definition clearSelections (this : nat) (droptarget : option Droptarget)
    (w : World) : option World :=
  match selection_dragitems (instances w this) with
  | [] => Some w
  | dragitems =>
      w ← forEach (fun dragitem => removeSelection this dragitem droptarget)
                  dragitems w;
      Some (on_instance this (set_selection_owner None) w)
  end.

(** [#addSelection(dragitem, owner)]. When [#draginstance] is another
    instance, that instance is made to clear its valid-target marking and
    its selection ([.owner.classList] throws if it has no owner) before
    [#draginstance] is pointed at this one. *)
Definition addSelection (this : nat) (dragitem : Item) (owner : Droptarget)
    (w : World) : option World :=
  let i := instances w this in
  if aria_disabled (item_attrs i dragitem) then Some w
  else if match selection_owner i with
          | Some current => negb (bool_decide (current = owner))
          | None => false
          end then Some w
  else
    let i := set_selection_owner (Some owner) i in
    let i := set_item_attrs
               (alter (set_drag_state (Some true)) dragitem (item_attrs i)) i in
    let i := set_selection_dragitems (selection_dragitems i ++ [dragitem]) i in
    let i := set_selection_nodesort true i in
    let i := set_observing false i in
    let w := set_instance this i w in
    w ← match draginstance w with
        | Some other =>
            if decide (other = this) then Some w
            else
              let w := on_instance other clearDragValid w in
              _ ← selection_owner (instances w other);
              clearSelections other None w
        | None => Some w
        end;
    Some (set_draginstance (Some this) w).

(** [array.findIndex(x => item === x)]: the first position, or -1. *)
Fixpoint findIndex (item : Item) (l : list Item) : Z :=
  match l with
  | [] => -1
  | x :: l' =>
      if decide (x = item) then 0
      else let n := findIndex item l' in if n <? 0 then -1 else n + 1
  end.

(** [array[n]], undefined outside the array. *)
Definition at_index (l : list Item) (n : Z) : option Item :=
  if n <? 0 then None else l !! Z.to_nat n.

(** [#addSelectionRange(droptarget)]. A boundary that is not a dragitem of
    the droptarget is undefined and has index -1; the loop then pushes the
    undefined [dragitems[-1]], and [#addSelection] throws on it. *)
Definition addSelectionRange (this : nat) (droptarget : Droptarget) (w : World)
  : option World :=
  let i := instances w this in
  col ← collection i !! droptarget;
  let dragitems := dragitems col in
  let ta := target_attrs i droptarget in
  let find (attr : option Item) : option Item :=
    id ← attr; if decide (id ∈ dragitems) then Some id else None in
  let boundary (rangeitem : option Item) : Z :=
    match rangeitem with
    | Some rangeitem => findIndex rangeitem dragitems
    | None => -1
    end in
  let b0 := boundary (find (data_drag_lastdescendant ta)) in
  let b1 := boundary (find (aria_activedescendant ta)) in
  let t0 := Z.min b0 b1 in
  let t1 := Z.max b0 b1 in
  let range := map (at_index dragitems) (seqZ t0 (t1 - t0 + 1)) in
  let range := if b1 <? b0 then reverse range else range in
  let i := set_selection_dragitems
             (filter (fun item => Some item ∉ range) (selection_dragitems i))
             i in
  forEach (fun rangeitem w =>
             rangeitem ← rangeitem; addSelection this rangeitem droptarget w)
          range (set_instance this i w).

(** [if(this.#selection.dragitems.length) this.#addDragValid()]. *)
Definition addDragValid_if_selected (i : Instance) : Instance :=
  match selection_dragitems i with
  | [] => i
  | _ => addDragValid i
  end.

(** [#doSelectionThing(droptarget, dragitem, multimode)]: 2 is
    contiguous, 1 non-contiguous, anything else exclusive. *)
Definition doSelectionThing (this : nat) (droptarget : Droptarget)
    (dragitem : Item) (multimode : Z) (w : World) : option World :=
  let state w := drag_state (item_attrs (instances w this) dragitem) in
  if multimode =? 2 then
    w ← (if decide (state w = Some false)
         then addSelection this dragitem droptarget w else Some w);
    w ← addSelectionRange this droptarget w;
    Some (on_instance this addDragValid_if_selected w)
  else if multimode =? 1 then
    if decide (state w = Some true) then
      let w :=
        if (length (selection_dragitems (instances w this)) =? 1)%nat
        then on_instance this clearDragValid w else w in
      w ← removeSelection this dragitem None w;
      Some (match selection_dragitems (instances w this) with
            | [] => on_instance this (set_selection_owner None) w
            | _ => w
            end)
    else
      w ← addSelection this dragitem droptarget w;
      Some (on_instance this addDragValid_if_selected w)
  else
    let i := instances w this in
    let single :=
      (length (selection_dragitems i) =? 1)%nat
      && bool_decide (dragitem ∈ selection_dragitems i) in
    let w := on_instance this clearDragValid w in
    w ← clearSelections this None w;
    if negb single then
      w ← addSelection this dragitem droptarget w;
      Some (on_instance this addDragValid_if_selected w)
    else Some w.

(** *** Transfer *)

(** [parent.appendChild(item)] for the insertion parent of [droptarget]:
    the item leaves the place it had and becomes the last dragitem of the
    droptarget. *)
Definition appendChild (droptarget : Droptarget) (item : Item)
    (dom : Droptarget -> list Item) : Droptarget -> list Item :=
  fun c =>
    let others := filter (fun x => x <> item) (dom c) in
    if decide (c = droptarget) then others ++ [item] else others.

(** [#doDropThing()]: the world afterwards and the boolean returned. With
    a drop target but no owner, or with either of them missing from
    [#collection], the method throws (at the latest when it rebuilds the
    collection). *)
Definition doDropThing (this : nat) (w : World) : option (World * bool) :=
  let i := instances w this in
  match selection_droptarget i with
  | None => Some (w, false)
  | Some droptarget =>
      owner ← selection_owner i;
      ownercol ← collection i !! owner;
      _ ← collection i !! droptarget;
      let i := set_item_attrs
                 (foldl (fun attrs dragitem =>
                           alter (set_drag_state None) dragitem attrs)
                        (item_attrs i) (selection_dragitems i))
                 i in
      let appendages :=
        if selection_nodesort i
        then filter (fun item => item ∈ selection_dragitems i)
                    (dragitems ownercol)
        else selection_dragitems i in
      let i := set_dom_items
                 (foldl (fun dom item => appendChild droptarget item dom)
                        (dom_items i) appendages)
                 i in
      i ← forEach
            (fun c i =>
               let setdescendant :=
                 if bool_decide (droptarget = owner)
                    || negb (bool_decide (c = owner))
                 then last (getDragitems i c) else None in
               rebuild c setdescendant i)
            [owner; droptarget] i;
      let i := clearDragValid i in
      w ← clearSelections this (Some droptarget) (set_instance this i w);
      Some (on_instance this (set_selection_droptarget None) w, true)
  end.

(** *** Event listeners

    A listener is a function of the world; the event is given by what
    [#getClosest] finds for its target and by its modifier state. Parts of a
    listener that only touch classes, focus, scrolling or the descriptions
    are left out. *)

(** The [touchstart], [pointerdown] and zero-detail [mousedown] listeners
    set [#touching]. *)
Definition on_touch (this : nat) (w : World) : option World :=
  Some (on_instance this (set_touching true) w).

(** The scope [mousedown] listener, for a click of the pointer (an event
    with [detail] 1). For an event with [detail] 0, which voice control
    sends, the listener goes on to focus the droptarget, and throws when
    the event is outside every droptarget; that call is not represented,
    and such an event outside the droptargets is not an event of the
    model. *)
Definition on_mousedown (this : nat) (target : Target) (w : World)
  : option World :=
  i ← activeUpdate (t_droptarget target) (t_dragitem target) (instances w this);
  Some (set_instance this i w).

(** The scope [mouseup] listener, for an event that passes the button and
    pointer filters: the press before it was inside the same dragitem
    or, away from the dragitems, inside the same droptarget. The field
    [#pointer], which the document [mousedown] listener sets and this
    listener resets after a selection action, is not part of the state: a
    [mouseup] whose press was elsewhere returns before it acts, and one
    on a dragitem while [#pointer] is null throws where the filter reads
    it. Neither is an event of the model, and no statement below is about
    what the listener does on them. *)
Definition on_mouseup (this : nat) (e : Modifiers) (target : Target) (w : World)
  : option World :=
  let i := instances w this in
  match t_droptarget target with
  | None => Some w
  | Some droptarget =>
      if negb (length (selection_dragitems i) =? 0)%nat
         && (negb (bool_decide (selection_owner i = Some droptarget))
             || t_sorted target)
      then
        let i := set_selection_nodesort (negb (t_sorted target)) i in
        let i := set_selection_droptarget (Some droptarget) i in
        fst <$> doDropThing this (set_instance this i w)
      else
        match t_dragitem target with
        | None => Some w
        | Some dragitem =>
            multimode ← getMultimode i e droptarget;
            doSelectionThing this droptarget dragitem multimode w
        end
  end.

(** The document [mouseup] listener. *)
Definition on_document_mouseup (this : nat) (target : Target) (w : World)
  : option World :=
  let w := on_instance this (set_touching false) w in
  let i := instances w this in
  match t_dragitem target with
  | Some _ => Some w
  | None =>
      if match t_droptarget target with
         | None => true
         | Some droptarget => bool_decide (selection_owner i = Some droptarget)
         end
      then clearSelections this None (on_instance this clearDragValid w)
      else Some w
  end.

(** The scope [dragstart] listener. The droptarget found from the event
    node is also the one found from the dragitem. *)
Definition on_dragstart (this : nat) (e : Modifiers) (target : Target)
    (w : World) : option World :=
  let i := instances w this in
  match t_dragitem target, t_droptarget target with
  | Some dragitem, Some droptarget =>
      if match selection_owner i with
         | Some owner => negb (bool_decide (owner = droptarget))
         | None => false
         end then Some w
      else if aria_disabled (item_attrs i dragitem) then Some w
      else
        w ← (if decide (drag_state (item_attrs i dragitem) = Some false)
             then multimode ← getMultimode i e droptarget;
                  doSelectionThing this droptarget dragitem multimode w
             else Some w);
        i ← activeUpdate (Some droptarget) (Some dragitem) (instances w this);
        Some (set_instance this i w)
  | _, _ => Some w
  end.

(** The document [dragenter] listener. The code keeps the node of the
    event in [#dragenter] and looks for its droptarget and its sort button
    when [dragleave] or [drop] comes; the model keeps what [#getClosest]
    finds for the node at the time of the [dragenter], which is the same
    as long as the node is not moved in between. *)
Definition on_dragenter (this : nat) (target : Target) (w : World)
  : option World :=
  if decide (draginstance w = Some this)
  then Some (on_instance this (set_dragenter (Some target)) w)
  else Some w.

(** The document [dragleave] listener; [#getClosest(null)] throws. *)
Definition on_dragleave (this : nat) (w : World) : option World :=
  if decide (draginstance w = Some this) then
    let i := instances w this in
    entered ← dragenter i;
    let droptarget :=
      if decide (t_droptarget entered = selection_owner i) then None
      else t_droptarget entered in
    Some (set_instance this (set_selection_droptarget droptarget i) w)
  else Some w.

(** The scope [drop] listener. *)
Definition on_drop (this : nat) (w : World) : option World :=
  let i := instances w this in
  entered ← dragenter i;
  let i := set_selection_nodesort (negb (t_sorted entered)) i in
  let i :=
    if t_sorted entered
    then match selection_droptarget i with
         | None => set_selection_droptarget (selection_owner i) i
         | Some _ => i
         end
    else i in
  fst <$> doDropThing this (set_instance this i w).

(** The keys of [#keynames] other than Escape. *)
Inductive Key :=
| ArrowUp | ArrowRight | ArrowDown | ArrowLeft
| PageUp | PageDown | Home | End_
| Space | KeyX | KeyA | Enter | KeyV | KeyS.

(** [droptarget.querySelector('#' + aria-activedescendant)]. *)
Definition query_activedescendant (i : Instance) (droptarget : Droptarget)
  : option Item :=
  id ← aria_activedescendant (target_attrs i droptarget);
  if decide (id ∈ dom_items i droptarget) then Some id else None.

(** [!this.#selection.owner || this.#selection.owner === droptarget]. *)
Definition owner_null_or (i : Instance) (droptarget : Droptarget) : bool :=
  match selection_owner i with
  | None => true
  | Some owner => bool_decide (owner = droptarget)
  end.

(** [droptarget.getAttribute('data-drag-sorted') == 'true']: the attribute
    is set when the droptarget is registered with a sort button. *)
Definition data_drag_sorted (i : Instance) (droptarget : Droptarget) : bool :=
  match collection i !! droptarget with
  | Some col => sorted col
  | None => false
  end.

(** The loop of the navigation keys: the index the key leads to from the
    entry whose id is the active one, or -1. *)
Definition nextindex (keyname : Key) (activeid : option Item)
    (dragitems : list Item) : Z :=
  let lastindex := Z.of_nat (length dragitems) - 1 in
  foldl (fun nextindex entry =>
           let n := Z.of_nat entry.1 in
           if decide (Some entry.2 = activeid) then
             match keyname with
             | ArrowDown | ArrowRight => if n =? lastindex then 0 else n + 1
             | PageDown => if lastindex <? n + 5 then lastindex else n + 5
             | End_ => lastindex
             | ArrowUp | ArrowLeft => if n =? 0 then lastindex else n - 1
             | PageUp => if n - 5 <? 0 then 0 else n - 5
             | Home => 0
             | _ => nextindex
             end
           else nextindex)
        (-1) (imap (fun n item => (n, item)) dragitems).

(** The select-all branch (Ctrl/Cmd + A) once its guards have passed. *)
Definition select_all (this : nat) (droptarget : Droptarget)
    (dragitems : list Item) (w : World) : option World :=
  let w := on_instance this (set_selection_dragitems []) w in
  w ← forEach (fun item => addSelection this item droptarget) dragitems w;
  Some (on_instance this addDragValid_if_selected w).

(** The scope [keydown] listener for a key of [#keynames] other than
    Escape that is not a repeat. [modified] is [e.ctrlKey || e.metaKey]. *)
Definition on_keydown (this : nat) (e : Modifiers) (keyname : Key)
    (target : Target) (w : World) : option World :=
  let i := instances w this in
  let modified := ctrlKey e || metaKey e in
  match t_droptarget target with
  | None => Some w
  | Some droptarget =>
      let sorted := t_sorted target in
      let keyname :=
        if sorted then match keyname with Space => Enter | k => k end
        else keyname in
      if sorted
         && negb match keyname with Enter | KeyS => true | _ => false end
      then Some w
      else
      match keyname with
      | Space | KeyX =>
          if match keyname with KeyX => negb modified | _ => false end
          then Some w
          else
            match query_activedescendant i droptarget with
            | Some dragitem =>
                let state := drag_state (item_attrs i dragitem) in
                if negb (owner_null_or i droptarget) then Some w
                else if safari_macos (target_attrs i droptarget)
                        && bool_decide (state = Some true) then Some w
                else if match keyname with Space => true | _ => false end
                        || bool_decide (state = Some false)
                then multimode ← getMultimode i e droptarget;
                     doSelectionThing this droptarget dragitem multimode w
                else Some w
            | None => Some w
            end
      | KeyA =>
          if negb modified then Some w
          else
            col ← collection i !! droptarget;
            if multimode col =? 0 then Some w
            else
              match query_activedescendant i droptarget with
              | Some _ =>
                  if owner_null_or i droptarget
                     && (length (selection_dragitems i)
                         <? length (dragitems col))%nat
                  then select_all this droptarget (dragitems col) w
                  else Some w
              | None => Some w
              end
      | Enter | KeyV | KeyS =>
          if match keyname with Enter => false | _ => negb modified end
          then Some w
          else if match keyname with
                  | Enter => negb sorted
                  | KeyV => true
                  | _ => false
                  end
          then
            match selection_owner i with
            | Some owner =>
                if decide (droptarget = owner) then Some w
                else
                  let i := set_selection_droptarget (Some droptarget) i in
                  fst <$> doDropThing this (set_instance this i w)
            | None => Some w
            end
          else
            match selection_owner i with
            | Some _ =>
                if data_drag_sorted i droptarget then
                  let i := set_selection_nodesort false i in
                  let i := set_selection_droptarget (Some droptarget) i in
                  fst <$> doDropThing this (set_instance this i w)
                else Some w
            | None => Some w
            end
      | _ =>
          let ta := target_attrs i droptarget in
          if safari_macos ta
             && match keyname with Home | End_ => true | _ => false end
          then Some w
          else
            col ← collection i !! droptarget;
            let dragitems := dragitems col in
            let nextindex :=
              nextindex keyname (aria_activedescendant ta) dragitems in
            if nextindex <? 0 then Some w
            else
              next ← at_index dragitems nextindex;
              multimode ← getMultimode i e droptarget;
              if multimode =? 2 then
                if owner_null_or i droptarget then
                  i ← activeUpdate (Some droptarget) (Some next) i;
                  doSelectionThing this droptarget next 2
                    (set_instance this i w)
                else Some w
              else
                w ← (if owner_null_or i droptarget
                        && (safari_macos ta || (Widget.multimode col =? 0))
                     then doSelectionThing this droptarget next 0 w
                     else Some w);
                i ← activeUpdate (Some droptarget) (Some next)
                      (instances w this);
                Some (set_instance this i w)
      end
  end.

(** The document [keydown] listener for Escape; [.owner.classList] throws
    when items are selected and there is no owner. *)
Definition on_escape (this : nat) (w : World) : option World :=
  let i := instances w this in
  match selection_dragitems i with
  | [] => Some w
  | _ =>
      let w := on_instance this clearDragValid w in
      _ ← selection_owner (instances w this);
      clearSelections this None w
  end.

(** The mutation observer. A script outside the widget has changed the
    dragitems of [droptarget] to [items]: the document changes whether or
    not the observer is told. The callback runs only while the observer is
    connected, and it acts only on a record that has, among its added and
    removed nodes, an element that is itself a dragitem ([noticed]; a
    dragitem that arrives inside a wrapper element, or an element that is
    turned into a dragitem by an attribute, is not noticed). It then
    rebuilds that member of [#collection], keeping the active descendant if
    it is still there; [#getDragitems] throws on the way when a dragitem of
    the droptarget has no role ([roles] says that each of them has one). *)
Definition on_mutation (this : nat) (droptarget : Droptarget)
    (items : list Item) (noticed roles : bool) (w : World) : option World :=
  let i := instances w this in
  let i := set_dom_items (<[droptarget := items]> (dom_items i)) i in
  if observing i && noticed then
    if roles then
      i ← rebuild droptarget (query_activedescendant i droptarget) i;
      Some (set_instance this i w)
    else None
  else Some (set_instance this i w).

(** *** The invariant of the state machine *)

(** The registry agrees with the document: the cached dragitems of every
    registered droptarget are its dragitems in the document, without
    repetition, and no dragitem is in two droptargets; a droptarget that is
    not empty has its active and last descendant among its dragitems; the
    pending drop target and the droptarget of the last [dragenter] are
    registered. *)
Record registry_ok (i : Instance) : Prop := {
  reg_cache : forall c col,
    collection i !! c = Some col -> dragitems col = dom_items i c;
  reg_nodup : forall c col,
    collection i !! c = Some col -> NoDup (dragitems col);
  reg_disjoint : forall c1 c2 col1 col2 x,
    collection i !! c1 = Some col1 -> collection i !! c2 = Some col2 ->
    x ∈ dragitems col1 -> x ∈ dragitems col2 -> c1 = c2;
  reg_active : forall c col,
    collection i !! c = Some col -> dragitems col <> [] ->
    (exists a, aria_activedescendant (target_attrs i c) = Some a /\
               a ∈ dragitems col) /\
    (exists l, data_drag_lastdescendant (target_attrs i c) = Some l /\
               l ∈ dragitems col);
  reg_target : forall droptarget,
    selection_droptarget i = Some droptarget ->
    is_Some (collection i !! droptarget);
  reg_entered : forall entered droptarget,
    dragenter i = Some entered -> t_droptarget entered = Some droptarget ->
    is_Some (collection i !! droptarget)
}.

(** The selection: items are selected exactly when an owner is set; they
    are dragitems of the owner, without repetition; among the registered
    dragitems the selected ones are those whose selection attribute is
    ['true']; the observer is connected exactly when nothing is selected;
    and selected items are not disabled. *)
Record selection_ok (i : Instance) : Prop := {
  sel_owner : selection_dragitems i = [] <-> selection_owner i = None;
  sel_owned : forall owner,
    selection_owner i = Some owner ->
    exists col, collection i !! owner = Some col /\
                forall x, x ∈ selection_dragitems i -> x ∈ dragitems col;
  sel_nodup : NoDup (selection_dragitems i);
  sel_state : forall c col x,
    collection i !! c = Some col -> x ∈ dragitems col ->
    (drag_state (item_attrs i x) = Some true <-> x ∈ selection_dragitems i);
  sel_observing : observing i = true <-> selection_dragitems i = [];
  sel_enabled : forall x,
    x ∈ selection_dragitems i -> aria_disabled (item_attrs i x) = false
}.

Definition Inv (i : Instance) : Prop := registry_ok i /\ selection_ok i.

(** The page: every instance satisfies [Inv], and [#draginstance] is the
    one instance, if any, that has items selected. *)
Record Inv_world (w : World) : Prop := {
  inv_instances : forall k, Inv (instances w k);
  inv_holder : forall d,
    draginstance w = Some d -> selection_dragitems (instances w d) <> [];
  inv_exclusive : forall k,
    selection_dragitems (instances w k) <> [] -> draginstance w = Some k
}.

(** An instance as its constructor leaves it, over a document in which no
    dragitem is in two droptargets. *)
Record initial (i : Instance) : Prop := {
  init_selection : selection_dragitems i = [];
  init_owner : selection_owner i = None;
  init_droptarget : selection_droptarget i = None;
  init_nodesort : selection_nodesort i = true;
  init_dragenter : dragenter i = None;
  init_observing : observing i = true;
  init_registry : registry_ok i;
  init_state : forall c col x,
    collection i !! c = Some col -> x ∈ dragitems col ->
    drag_state (item_attrs i x) = Some false
}.

Definition initial_world (w : World) : Prop :=
  (forall k, initial (instances w k)) /\ draginstance w = None.

(** *** The state machine of a page *)

(** The events the listeners of an instance react to. *)
Inductive Event :=
| Touch
| MouseDown (target : Target)
| MouseUp (e : Modifiers) (target : Target)
| DocumentMouseUp (target : Target)
| DragStart (e : Modifiers) (target : Target)
| DragEnter (target : Target)
| DragLeave
| Drop
| KeyDown (e : Modifiers) (keyname : Key) (target : Target)
| Escape
| Mutation (droptarget : Droptarget) (items : list Item)
    (noticed roles : bool).

Definition listener (this : nat) (ev : Event) (w : World) : option World :=
  match ev with
  | Touch => on_touch this w
  | MouseDown target => on_mousedown this target w
  | MouseUp e target => on_mouseup this e target w
  | DocumentMouseUp target => on_document_mouseup this target w
  | DragStart e target => on_dragstart this e target w
  | DragEnter target => on_dragenter this target w
  | DragLeave => on_dragleave this w
  | Drop => on_drop this w
  | KeyDown e keyname target => on_keydown this e keyname target w
  | Escape => on_escape this w
  | Mutation droptarget items noticed roles =>
      on_mutation this droptarget items noticed roles w
  end.

(** What [#getClosest] finds for the target of an event agrees with the
    registry: the droptarget is registered, and a dragitem is a dragitem
    of the droptarget found with it. *)
Definition target_ok (i : Instance) (target : Target) : Prop :=
  (forall droptarget, t_droptarget target = Some droptarget ->
     is_Some (collection i !! droptarget)) /\
  (forall dragitem, t_dragitem target = Some dragitem ->
     exists droptarget col,
       t_droptarget target = Some droptarget /\
       collection i !! droptarget = Some col /\ dragitem ∈ dragitems col).

(** The events of the state machine, on which every listener runs to its
    end ([listener_world] below). The target of an event agrees with the
    registry; [dragleave] and [drop] follow a [dragenter]; a [drop] comes
    while the pending drop target, if any, still has a selection owner
    (without one the listener raises, as on [stale_page] below, and a
    listener that raises is not a step of the machine); the other scripts of
    the page change the dragitems of a registered droptarget only while the
    observer is connected, only by adding or removing dragitem elements
    themselves, which the observer notices, and only to dragitems that all
    have a role, and they keep the dragitems of the droptargets apart. *)
Definition event_ok (this : nat) (ev : Event) (w : World) : Prop :=
  let i := instances w this in
  match ev with
  | Touch | Escape => True
  | MouseDown target | MouseUp _ target | DocumentMouseUp target
  | DragStart _ target | DragEnter target | KeyDown _ _ target =>
      target_ok i target
  | DragLeave => draginstance w = Some this -> is_Some (dragenter i)
  | Drop =>
      is_Some (dragenter i) /\
      (is_Some (selection_droptarget i) -> is_Some (selection_owner i))
  | Mutation droptarget items noticed roles =>
      observing i = true /\ noticed = true /\ roles = true /\
      is_Some (collection i !! droptarget) /\
      NoDup items /\
      forall c col x,
        collection i !! c = Some col -> c <> droptarget ->
        x ∈ dragitems col -> x ∉ items
  end.

(** The pages that a run of the listeners, each on an event as above,
    reaches from a page whose instances have just been constructed. *)
Inductive reachable : World -> Prop :=
| reachable_initial w : initial_world w -> reachable w
| reachable_step w this ev w' :
    reachable w -> event_ok this ev w -> listener this ev w = Some w' ->
    reachable w'.

(** *** A page with two instances

    Each instance has two droptargets: 10 with the dragitems 1, 2, 3, 4
    (of which 4 is disabled in the markup) and 20 with the dragitems 5, 6,
    7. *)

Definition page_collection : gmap Droptarget Collection :=
  <[10%nat := mkCollection [1; 2; 3; 4]%nat false (-1)]>
    (<[20%nat := mkCollection [5; 6; 7]%nat false (-1)]> ∅).

Definition page_dom (c : Droptarget) : list Item :=
  if decide (c = 10%nat) then [1; 2; 3; 4]%nat
  else if decide (c = 20%nat) then [5; 6; 7]%nat
  else [].

Definition page_item_attrs (x : Item) : ItemAttrs :=
  mkItemAttrs (Some false) (bool_decide (x = 4%nat)) None false.

Definition page_target_attrs (c : Droptarget) : TargetAttrs :=
  mkTargetAttrs (head (page_dom c)) (head (page_dom c)) false false.

Definition page_instance : Instance :=
  mkInstance [] None None true page_collection false None true
    page_dom page_item_attrs page_target_attrs.

Definition page : World := mkWorld (fun _ => page_instance) None.

(** A pointer event without modifier keys, and the targets used below. *)
Definition plain : Modifiers := mkModifiers false false false false.
Definition with_ctrl : Modifiers := mkModifiers false true false false.
Definition with_shift : Modifiers := mkModifiers true false false false.
Definition on_item (droptarget : Droptarget) (item : Item) : Target :=
  mkTarget (Some droptarget) (Some item) false.
Definition on_droptarget (droptarget : Droptarget) : Target :=
  mkTarget (Some droptarget) None false.

(** A run of events, each with the instance whose listener runs. *)
Definition run (events : list (nat * Event)) (w : World) : option World :=
  forEach (fun ev => listener ev.1 ev.2) events w.

(** The events of the run can be delivered one after the other. *)
Fixpoint run_ok (events : list (nat * Event)) (w : World) : Prop :=
  match events with
  | [] => True
  | ev :: events =>
      event_ok ev.1 ev.2 w /\
      forall w', listener ev.1 ev.2 w = Some w' -> run_ok events w'
  end.

(** The page after item 3 of droptarget 10 of instance 0 was clicked. *)
Definition selected_events : list (nat * Event) :=
  [(0%nat, MouseUp plain (on_item 10 3))].

Definition selected_page : World := default page (run selected_events page).

(** The page after item 3 of droptarget 10 was selected and dragged over
    droptarget 20, and the Escape key then cleared the selection: the
    pending drop target is still droptarget 20. *)
Definition stale_events : list (nat * Event) :=
  [(0%nat, MouseUp plain (on_item 10 3));
   (0%nat, DragEnter (on_droptarget 20));
   (0%nat, DragLeave);
   (0%nat, Escape)].

Definition stale_page : World := default page (run stale_events page).

(** The page after items 7 and 5 of droptarget 20 were selected in this
    order and dragged over droptarget 10. *)
Definition transfer_events : list (nat * Event) :=
  [(0%nat, MouseUp with_ctrl (on_item 20 7));
   (0%nat, MouseUp with_ctrl (on_item 20 5));
   (0%nat, DragEnter (on_droptarget 10));
   (0%nat, DragLeave)].

Definition transfer_page : World := default page (run transfer_events page).

(** The page after the pointer went down on item 1 and then on item 3
    of droptarget 10: item 3 is the active and item 1 the last
    descendant. *)
Definition ranged_events : list (nat * Event) :=
  [(0%nat, MouseDown (on_item 10 1)); (0%nat, MouseDown (on_item 10 3))].

Definition ranged_page : World := default page (run ranged_events page).

(** Pages like [page] with other dragitems disabled in the markup: the
    dragitems for which [disabled] holds. On [blocked_page] item 2 is
    disabled and the pointer went down on item 1 and then on item 3; on
    [crowded_page] no item is disabled, item 4 was selected with the
    Control key held, and the pointer then went down on item 1 and on
    item 3. On both, item 3 is the active and item 1 the last descendant
    of droptarget 10. *)
Definition page_with (disabled : Item -> bool) : World :=
  mkWorld
    (fun _ =>
       set_item_attrs
         (fun x => mkItemAttrs (Some false) (disabled x) None false)
         page_instance)
    None.

Definition blocked_page : World :=
  let start := page_with (fun x => bool_decide (x = 2%nat)) in
  default start (run ranged_events start).

Definition crowded_events : list (nat * Event) :=
  (0%nat, MouseUp with_ctrl (on_item 10 4)) :: ranged_events.

Definition crowded_page : World :=
  let start := page_with (fun _ => false) in
  default start (run crowded_events start).

(** A page like [page] whose droptargets have sort buttons, and the
    target of an event on the sort button of a droptarget. *)
Definition sortable_page : World :=
  mkWorld
    (fun _ =>
       set_collection
         ((fun col => mkCollection (dragitems col) true (multimode col))
            <$> page_collection)
         page_instance)
    None.

Definition on_sorted (droptarget : Droptarget) : Target :=
  mkTarget (Some droptarget) None true.

(** A page like [page] whose droptargets are groups of radio items: the
    selection attribute is [aria-checked], every dragitem has the role
    [radio], and the default multimode is therefore 0. *)
Definition radio_collection : gmap Droptarget Collection :=
  <[10%nat := mkCollection [1; 2; 3; 4]%nat false 0]>
    (<[20%nat := mkCollection [5; 6; 7]%nat false 0]> ∅).

Definition radio_instance : Instance :=
  mkInstance [] None None true radio_collection false None true page_dom
    (fun _ => mkItemAttrs (Some false) false None true)
    (fun c => mkTargetAttrs (head (page_dom c)) (head (page_dom c)) true false).

Definition radio_page : World := mkWorld (fun _ => radio_instance) None.

(** *** What the selection methods compute

    The methods above are written as the source has them, on the whole
    page. The functions below say, field by field, what they leave in the
    instance they are called on; the lemmas after them prove that they do. *)

(** [this] afterwards holds [i'], the other instances are as before, and
    [#draginstance] is [d']. *)
Definition updates (this : nat) (i' : Instance) (d' : option nat)
    (w w' : World) : Prop :=
  instances w' this = i' /\
  (forall k, k <> this -> instances w' k = instances w k) /\
  draginstance w' = d'.

(** The instance after [#removeSelection(dragitem)]. *)
Definition unselect (dragitem : Item) (i : Instance) : Instance :=
  let i := set_item_attrs
             (alter (set_drag_state (Some false)) dragitem (item_attrs i)) i in
  let i := set_selection_dragitems
             (filter (fun item => item <> dragitem) (selection_dragitems i))
             i in
  match selection_dragitems i with
  | [] => set_observing true (set_selection_nodesort true i)
  | _ => i
  end.

(** The instance after [#clearSelections()]. *)
Definition cleared (i : Instance) : Instance :=
  match selection_dragitems i with
  | [] => i
  | dragitems =>
      mkInstance [] None (selection_droptarget i) true (collection i)
        (touching i) (dragenter i) true (dom_items i)
        (foldl (fun attrs dragitem =>
                  alter (set_drag_state (Some false)) dragitem attrs)
               (item_attrs i) dragitems)
        (target_attrs i)
  end.

(** The instance after a run of successful [#addSelection(item, owner)]
    calls for the items [added]. *)
Definition selected (added : list Item) (owner : Droptarget) (i : Instance)
  : Instance :=
  match added with
  | [] => i
  | _ =>
      mkInstance (selection_dragitems i ++ added) (Some owner)
        (selection_droptarget i) true (collection i) (touching i)
        (dragenter i) false (dom_items i)
        (foldl (fun attrs dragitem =>
                  alter (set_drag_state (Some true)) dragitem attrs)
               (item_attrs i) added)
        (target_attrs i)
  end.

(** The items of [l] that [#addSelection] accepts: those not disabled. *)
Definition enabled (i : Instance) (l : list Item) : list Item :=
  filter (fun item => aria_disabled (item_attrs i item) = false) l.

(** The instance after the items of [l] were taken out of the selection
    array and passed to [#addSelection] one by one, as range selection and
    select-all do. *)
Definition reselected (l : list Item) (owner : Droptarget) (i : Instance)
  : Instance :=
  selected (enabled i l) owner
    (set_selection_dragitems
       (filter (fun item => item ∉ l) (selection_dragitems i)) i).

(** The instance that had [#draginstance] after another instance has taken
    it over. *)
Definition evicted (i : Instance) : Instance := cleared (clearDragValid i).

(** [#addDragValid] and [#clearDragValid] only write attributes of
    dragitems. *)
Definition same_but_item_attrs (i i' : Instance) : Prop :=
  selection_dragitems i' = selection_dragitems i /\
  selection_owner i' = selection_owner i /\
  selection_droptarget i' = selection_droptarget i /\
  selection_nodesort i' = selection_nodesort i /\
  collection i' = collection i /\
  touching i' = touching i /\
  dragenter i' = dragenter i /\
  observing i' = observing i /\
  dom_items i' = dom_items i /\
  target_attrs i' = target_attrs i.

(** What another instance must look like for its eviction to go through:
    an owner is set, and its selected items are inside droptargets. *)
Definition evictable (j : Instance) : Prop :=
  is_Some (selection_owner j) /\
  forall y, y ∈ selection_dragitems j -> inside_droptarget j y.

(** The dragitems between the last and the active descendant, in the
    order [#addSelectionRange] passes them to [#addSelection]. *)
Definition range_items (last active : Item) (dragitems : list Item)
  : list Item :=
  let b0 := findIndex last dragitems in
  let b1 := findIndex active dragitems in
  let t0 := Z.min b0 b1 in
  let t1 := Z.max b0 b1 in
  let range := take (Z.to_nat (t1 - t0 + 1)) (drop (Z.to_nat t0) dragitems) in
  if b1 <? b0 then reverse range else range.

(** The registry and the other fields the selection methods leave alone. *)
Definition same_registry (i i' : Instance) : Prop :=
  collection i' = collection i /\
  dom_items i' = dom_items i /\
  target_attrs i' = target_attrs i /\
  selection_droptarget i' = selection_droptarget i /\
  dragenter i' = dragenter i /\
  touching i' = touching i.

(** The items a drop appends, in the order in which it appends them: node
    order (the order of the owner's dragitems) or selection order. *)
Definition appendages (i : Instance) (ownercol : Collection) : list Item :=
  if selection_nodesort i
  then filter (fun item => item ∈ selection_dragitems i) (dragitems ownercol)
  else selection_dragitems i.

(** Where the dragitems of an instance are after a drop. *)
Definition dropped_dom (i : Instance) (droptarget : Droptarget)
    (ownercol : Collection) : Droptarget -> list Item :=
  fun c =>
    let others :=
      filter (fun x => x ∉ appendages i ownercol) (dom_items i c) in
    if decide (c = droptarget) then others ++ appendages i ownercol
    else others.

(** **** Worlds *)

Lemma instances_set_instance this i w :
  instances (set_instance this i w) this = i.
Proof. unfold set_instance. simpl. apply fn_lookup_insert. Qed.

Lemma instances_set_instance_ne this k i w :
  k <> this -> instances (set_instance this i w) k = instances w k.
Proof. intros Hk. unfold set_instance. simpl. by apply fn_lookup_insert_ne. Qed.

Lemma updates_refl this w : updates this (instances w this) (draginstance w) w w.
Proof. done. Qed.

Lemma updates_set this i d w :
  updates this i d w (set_draginstance d (set_instance this i w)).
Proof.
  split; [apply instances_set_instance|]. split; [|done].
  intros k Hk. by apply instances_set_instance_ne.
Qed.

Lemma updates_set_instance this i w :
  updates this i (draginstance w) w (set_instance this i w).
Proof.
  split; [apply instances_set_instance|]. split; [|done].
  intros k Hk. by apply instances_set_instance_ne.
Qed.

Lemma updates_trans this i1 d1 i2 d2 w w1 w2 :
  updates this i1 d1 w w1 -> updates this i2 d2 w1 w2 -> updates this i2 d2 w w2.
Proof.
  intros (_ & Hk1 & _) (Hi & Hk2 & Hd). split; [done|]. split; [|done].
  intros k Hk. by rewrite Hk2, Hk1.
Qed.

(** **** Removing *)

Lemma inside_droptarget_same i i' x :
  collection i' = collection i -> dom_items i' = dom_items i ->
  inside_droptarget i x -> inside_droptarget i' x.
Proof. unfold inside_droptarget. by intros -> ->. Qed.

Lemma unselect_selection x i :
  selection_dragitems (unselect x i)
  = filter (fun item => item <> x) (selection_dragitems i).
Proof.
  unfold unselect. simpl.
  by destruct (filter _ (selection_dragitems i)).
Qed.

Lemma unselect_item_attrs x i :
  item_attrs (unselect x i)
  = alter (set_drag_state (Some false)) x (item_attrs i).
Proof.
  unfold unselect. simpl. by destruct (filter _ (selection_dragitems i)).
Qed.

Lemma unselect_registry x i :
  selection_owner (unselect x i) = selection_owner i /\
  selection_droptarget (unselect x i) = selection_droptarget i /\
  collection (unselect x i) = collection i /\
  touching (unselect x i) = touching i /\
  dragenter (unselect x i) = dragenter i /\
  dom_items (unselect x i) = dom_items i /\
  target_attrs (unselect x i) = target_attrs i.
Proof.
  unfold unselect. simpl. by destruct (filter _ (selection_dragitems i)).
Qed.

Lemma foldl_unselect_empty l i :
  selection_dragitems i = [] ->
  selection_dragitems (foldl (fun i x => unselect x i) i l) = [].
Proof.
  revert i. induction l as [|y l IH]; intros i Hi; [done|].
  cbn [foldl]. apply IH. by rewrite unselect_selection, Hi.
Qed.

Lemma removeSelection_updates this x droptarget w :
  let i := instances w this in
  is_Some droptarget \/ is_Some (selection_owner i) ->
  inside_droptarget i x ->
  exists w',
    removeSelection this x droptarget w = Some w' /\
    updates this (unselect x i)
      (match selection_dragitems (unselect x i) with
       | [] => None
       | _ => draginstance w
       end) w w'.
Proof.
  intros i Hdt Hin. unfold removeSelection. fold i.
  assert (Hsome : is_Some match droptarget with
                          | Some d => Some d
                          | None => selection_owner i
                          end).
  { destruct droptarget; [by eexists|]. by destruct Hdt as [[? [=]]|]. }
  destruct Hsome as [d ->]. cbn [mbind option_bind].
  rewrite decide_True
    by (eapply inside_droptarget_same; [..|exact Hin]; done).
  unfold unselect. simpl.
  destruct (filter (fun item => item <> x) (selection_dragitems i)) eqn:Hf.
  - eexists. split; [done|]. apply updates_set.
  - eexists. split; [done|]. apply updates_set_instance.
Qed.

Lemma forEach_removeSelection this droptarget l :
  forall w,
    let i := instances w this in
    is_Some droptarget \/ is_Some (selection_owner i) ->
    (forall x, x ∈ l -> inside_droptarget i x) ->
    exists w',
      forEach (fun x => removeSelection this x droptarget) l w = Some w' /\
      updates this (foldl (fun i x => unselect x i) i l)
        (match l, selection_dragitems (foldl (fun i x => unselect x i) i l) with
         | _ :: _, [] => None
         | _, _ => draginstance w
         end) w w'.
Proof.
  induction l as [|x l IH]; intros w i Hdt Hin.
  - eexists. split; [done|]. apply updates_refl.
  - destruct (removeSelection_updates this x droptarget w) as (w1 & Hw1 & Hu1);
      [done|apply Hin; by left|].
    fold i in Hu1. cbn [forEach]. rewrite Hw1. cbn [mbind option_bind].
    pose proof Hu1 as (Hi1 & Hk1 & Hd1).
    destruct (unselect_registry x i) as (Ho & _ & Hc & _ & _ & Hdom & _).
    destruct (IH w1) as (w2 & Hw2 & Hu2).
    { rewrite Hi1, Ho. done. }
    { intros y Hy. rewrite Hi1.
      eapply inside_droptarget_same; [done..|]. apply Hin. by right. }
    exists w2. split; [done|].
    rewrite Hi1 in Hu2. cbn [foldl].
    eapply updates_trans; [exact Hu1|].
    destruct Hu2 as (Hi2 & Hk2 & Hd2). split; [done|]. split; [exact Hk2|].
    rewrite Hd2, Hd1.
    destruct l as [|y l]; [done|].
    pose proof (foldl_unselect_empty (y :: l) (unselect x i)) as Hmono.
    destruct (selection_dragitems (foldl _ (unselect x i) (y :: l)));
      [done|].
    destruct (selection_dragitems (unselect x i)); [|done].
    by specialize (Hmono eq_refl).
Qed.

Lemma instance_eq (i j : Instance) :
  selection_dragitems i = selection_dragitems j ->
  selection_owner i = selection_owner j ->
  selection_droptarget i = selection_droptarget j ->
  selection_nodesort i = selection_nodesort j ->
  collection i = collection j ->
  touching i = touching j ->
  dragenter i = dragenter j ->
  observing i = observing j ->
  dom_items i = dom_items j ->
  item_attrs i = item_attrs j ->
  target_attrs i = target_attrs j ->
  i = j.
Proof. destruct i, j. simpl. by intros -> -> -> -> -> -> -> -> -> -> ->. Qed.

Lemma filter_all {A} (P : A -> Prop) `{!forall x, Decision (P x)} (l : list A) :
  (forall x, x ∈ l -> P x) -> filter P l = l.
Proof.
  induction l as [|x l IH]; intros HP; [done|].
  rewrite filter_cons_True by (apply HP; by left).
  f_equal. apply IH. intros y Hy. apply HP. by right.
Qed.

Lemma filter_none {A} (P : A -> Prop) `{!forall x, Decision (P x)} (l : list A) :
  (forall x, x ∈ l -> ~ P x) -> filter P l = [].
Proof.
  induction l as [|x l IH]; intros HP; [done|].
  rewrite filter_cons_False by (apply HP; by left).
  apply IH. intros y Hy. apply HP. by right.
Qed.

Lemma foldl_unselect_selection l i :
  selection_dragitems (foldl (fun i x => unselect x i) i l)
  = filter (fun item => item ∉ l) (selection_dragitems i).
Proof.
  revert i. induction l as [|x l IH]; intros i; cbn [foldl].
  - symmetry. apply filter_all. intros y _. apply not_elem_of_nil.
  - rewrite IH, unselect_selection, list_filter_filter.
    apply list_filter_iff. intros y. rewrite not_elem_of_cons. tauto.
Qed.

Lemma foldl_unselect_item_attrs l i :
  item_attrs (foldl (fun i x => unselect x i) i l)
  = foldl (fun attrs x => alter (set_drag_state (Some false)) x attrs)
          (item_attrs i) l.
Proof.
  revert i. induction l as [|x l IH]; intros i; cbn [foldl]; [done|].
  by rewrite IH, unselect_item_attrs.
Qed.

Lemma foldl_unselect_registry l i :
  let i' := foldl (fun i x => unselect x i) i l in
  selection_owner i' = selection_owner i /\
  selection_droptarget i' = selection_droptarget i /\
  collection i' = collection i /\
  touching i' = touching i /\
  dragenter i' = dragenter i /\
  dom_items i' = dom_items i /\
  target_attrs i' = target_attrs i.
Proof.
  revert i. induction l as [|x l IH]; intros i; cbn [foldl]; [done|].
  destruct (IH (unselect x i)) as (-> & -> & -> & -> & -> & -> & ->).
  apply unselect_registry.
Qed.

Lemma unselect_flags x i :
  selection_dragitems (unselect x i) = [] ->
  selection_nodesort (unselect x i) = true /\ observing (unselect x i) = true.
Proof.
  rewrite unselect_selection. unfold unselect. simpl. by intros ->.
Qed.

Lemma foldl_unselect_flags l i :
  l <> [] ->
  selection_dragitems (foldl (fun i x => unselect x i) i l) = [] ->
  selection_nodesort (foldl (fun i x => unselect x i) i l) = true /\
  observing (foldl (fun i x => unselect x i) i l) = true.
Proof.
  revert i. induction l as [|x l IH]; intros i Hl; [done|]. cbn [foldl].
  destruct l as [|y l]; [apply unselect_flags|]. by apply IH.
Qed.

(** Unselecting every selected item and forgetting the owner leaves the
    instance [cleared]. *)
Lemma foldl_unselect_cleared i :
  selection_dragitems i <> [] ->
  set_selection_owner None
    (foldl (fun i x => unselect x i) i (selection_dragitems i))
  = cleared i.
Proof.
  intros Hsel.
  pose proof (foldl_unselect_selection (selection_dragitems i) i) as Hs.
  rewrite (filter_none _ _) in Hs by (intros x Hx Hn; done).
  destruct (foldl_unselect_flags _ i Hsel Hs) as [Hn Ho].
  destruct (foldl_unselect_registry (selection_dragitems i) i)
    as (_ & Hdt & Hc & Ht & He & Hdom & Hta).
  pose proof (foldl_unselect_item_attrs (selection_dragitems i) i) as Ha.
  unfold cleared. destruct (selection_dragitems i) eqn:Hsi; [done|].
  by apply instance_eq.
Qed.

Lemma clearSelections_updates this droptarget w :
  let i := instances w this in
  (selection_dragitems i <> [] ->
   (is_Some droptarget \/ is_Some (selection_owner i)) /\
   forall x, x ∈ selection_dragitems i -> inside_droptarget i x) ->
  exists w',
    clearSelections this droptarget w = Some w' /\
    updates this (cleared i)
      (match selection_dragitems i with
       | [] => draginstance w
       | _ => None
       end) w w'.
Proof.
  intros i Hpre. unfold clearSelections. fold i.
  destruct (selection_dragitems i) as [|x l] eqn:Hsel.
  - exists w. split; [done|]. unfold cleared. rewrite Hsel. apply updates_refl.
  - destruct Hpre as [Hdt Hin]; [done|].
    destruct (forEach_removeSelection this droptarget (x :: l) w)
      as (w1 & Hw1 & Hu1); [done..|].
    fold i in Hu1. rewrite Hw1. cbn [mbind option_bind].
    eexists. split; [done|].
    eapply updates_trans; [exact Hu1|]. unfold on_instance.
    destruct Hu1 as (Hi1 & _ & Hd1).
    assert (Hc : set_selection_owner None
                   (foldl (fun i x => unselect x i) i (x :: l)) = cleared i).
    { rewrite <- Hsel. apply foldl_unselect_cleared. by rewrite Hsel. }
    pose proof (foldl_unselect_selection (x :: l) i) as Hs.
    rewrite Hsel, (filter_none _ _) in Hs by (intros y Hy Hn; done).
    rewrite Hs in Hd1. rewrite Hi1, Hc, <- Hd1.
    apply updates_set_instance.
Qed.

(** **** Marking *)

Lemma clearDragValid_same i : same_but_item_attrs i (clearDragValid i).
Proof. unfold clearDragValid. by destruct (selection_dragitems i). Qed.

Lemma addDragValid_same i : same_but_item_attrs i (addDragValid i).
Proof. done. Qed.

Lemma addDragValid_if_selected_same i :
  same_but_item_attrs i (addDragValid_if_selected i).
Proof. unfold addDragValid_if_selected. by destruct (selection_dragitems i). Qed.

(** **** Loops that alter attributes *)

Section AlterLoop.
Context {B : Type} (g : ItemAttrs -> ItemAttrs) (proj : ItemAttrs -> B).

Lemma foldl_alter_notin (attrs : Item -> ItemAttrs) l y :
  y ∉ l ->
  foldl (fun attrs x => alter g x attrs) attrs l y = attrs y.
Proof.
  revert attrs. induction l as [|x l IH]; intros attrs Hy; [done|].
  apply not_elem_of_cons in Hy as [Hne Hy]. cbn [foldl].
  rewrite IH by done. by apply fn_lookup_alter_ne.
Qed.

Lemma foldl_alter_proj (attrs : Item -> ItemAttrs) l y :
  (forall a, proj (g a) = proj a) ->
  proj (foldl (fun attrs x => alter g x attrs) attrs l y) = proj (attrs y).
Proof.
  intros Hg. revert attrs. induction l as [|x l IH]; intros attrs; [done|].
  cbn [foldl]. rewrite IH. destruct (decide (x = y)) as [->|Hne].
  - by rewrite fn_lookup_alter.
  - by rewrite fn_lookup_alter_ne.
Qed.

Lemma foldl_alter_in (attrs : Item -> ItemAttrs) l y :
  (forall a, proj (g (g a)) = proj (g a)) -> y ∈ l ->
  proj (foldl (fun attrs x => alter g x attrs) attrs l y) = proj (g (attrs y)).
Proof.
  intros Hg. revert attrs. induction l as [|x l IH]; intros attrs Hy.
  - by apply elem_of_nil in Hy.
  - cbn [foldl]. destruct (decide (y ∈ l)) as [Hin|Hnotin].
    + rewrite IH by done. destruct (decide (x = y)) as [->|Hne].
      * by rewrite fn_lookup_alter.
      * by rewrite fn_lookup_alter_ne.
    + apply elem_of_cons in Hy as [->|Hy]; [|done].
      rewrite foldl_alter_notin by done. by rewrite fn_lookup_alter.
Qed.
End AlterLoop.

Section ForDragitems.
Context {B : Type} (affected : Droptarget -> bool)
        (f : ItemAttrs -> ItemAttrs) (proj : ItemAttrs -> B).

Lemma forDragitems_proj i y :
  (forall a, proj (f a) = proj a) ->
  proj (forDragitems affected f i y) = proj (item_attrs i y).
Proof.
  intros Hf. unfold forDragitems.
  generalize (map_to_list (collection i)) (item_attrs i).
  intros entries. induction entries as [|entry entries IH]; intros attrs;
    [done|].
  cbn [foldl]. rewrite IH. destruct (affected entry.1); [|done].
  by apply foldl_alter_proj.
Qed.

Lemma forDragitems_notin i y :
  (forall c col, collection i !! c = Some col -> affected c = true ->
                 y ∉ dragitems col) ->
  forDragitems affected f i y = item_attrs i y.
Proof.
  intros Hy. unfold forDragitems.
  assert (Hentries : forall entry, entry ∈ map_to_list (collection i) ->
            affected entry.1 = true -> y ∉ dragitems entry.2).
  { intros [c col] Hin. apply elem_of_map_to_list in Hin. by apply Hy. }
  revert Hentries.
  generalize (map_to_list (collection i)) (item_attrs i).
  intros entries. induction entries as [|entry entries IH];
    intros attrs Hentries; [done|].
  cbn [foldl]. rewrite IH by (intros e He; apply Hentries; by right).
  destruct (affected entry.1) eqn:Haff; [|done].
  apply foldl_alter_notin. apply Hentries; [by left|done].
Qed.
End ForDragitems.

Lemma addDragValid_drag_state i y :
  drag_state (item_attrs (addDragValid i) y) = drag_state (item_attrs i y).
Proof. by apply (forDragitems_proj _ _ drag_state). Qed.

Lemma clearDragValid_drag_state i y :
  drag_state (item_attrs (clearDragValid i) y) = drag_state (item_attrs i y).
Proof.
  unfold clearDragValid. destruct (selection_dragitems i); [done|].
  by apply (forDragitems_proj _ _ drag_state).
Qed.

(** **** Adding *)

Lemma addSelection_rejected this x owner w :
  let i := instances w this in
  aria_disabled (item_attrs i x) = true \/
  (exists current, selection_owner i = Some current /\ current <> owner) ->
  addSelection this x owner w = Some w.
Proof.
  intros i Hrej. unfold addSelection. fold i.
  destruct (aria_disabled (item_attrs i x)); [done|].
  destruct Hrej as [[=]|(current & -> & Hne)].
  by rewrite bool_decide_eq_false_2.
Qed.

Lemma addSelection_updates this x owner w :
  let i := instances w this in
  aria_disabled (item_attrs i x) = false ->
  selection_owner i = None \/ selection_owner i = Some owner ->
  (forall other, draginstance w = Some other -> other <> this ->
                 evictable (instances w other)) ->
  exists w',
    addSelection this x owner w = Some w' /\
    instances w' this = selected [x] owner i /\
    draginstance w' = Some this /\
    forall k, k <> this ->
      instances w' k
      = if decide (draginstance w = Some k) then evicted (instances w k)
        else instances w k.
Proof.
  intros i Hen Howner Hev. unfold addSelection. fold i. rewrite Hen.
  assert (Hacc : match selection_owner i with
                 | Some current => negb (bool_decide (current = owner))
                 | None => false
                 end = false).
  { destruct Howner as [-> | ->]; [done|]. by rewrite bool_decide_eq_true_2. }
  rewrite Hacc. clear Hacc.
  set (i1 := set_observing false _).
  assert (Hi1 : i1 = selected [x] owner i) by done.
  destruct (draginstance (set_instance this i1 w)) as [other|] eqn:Hd;
    cbn [draginstance set_instance] in Hd.
  - destruct (decide (other = this)) as [->|Hne].
    + cbn [mbind option_bind]. eexists. split; [done|].
      split; [by rewrite <- Hi1; apply instances_set_instance|].
      split; [done|]. intros k Hk.
      rewrite decide_False by (rewrite Hd; congruence).
      cbn [instances set_draginstance]. by apply instances_set_instance_ne.
    + destruct (Hev other Hd Hne) as [Hown Hin].
      set (w2 := on_instance other clearDragValid (set_instance this i1 w)).
      assert (Hw2 : instances w2 other = clearDragValid (instances w other)).
      { subst w2. unfold on_instance.
        by rewrite instances_set_instance, instances_set_instance_ne. }
      destruct (clearDragValid_same (instances w other))
        as (Hs & Ho & _ & _ & Hc & _ & _ & _ & Hdom & _).
      destruct (clearSelections_updates other None w2) as (w3 & Hw3 & Hu3).
      { rewrite Hw2, Hs, Ho. intros _. split; [by right|].
        intros y Hy. eapply inside_droptarget_same; [done..|by apply Hin]. }
      rewrite Hw2, Ho. destruct Hown as [o ->]. cbn [mbind option_bind].
      rewrite Hw3. cbn [mbind option_bind].
      eexists. split; [done|]. cbn [instances draginstance set_draginstance].
      destruct Hu3 as (Hi3 & Hk3 & _). rewrite Hw2 in Hi3.
      split.
      { rewrite Hk3 by done. subst w2. unfold on_instance.
        rewrite instances_set_instance_ne by done.
        by rewrite instances_set_instance. }
      split; [done|]. intros k Hk. rewrite Hd.
      destruct (decide (Some other = Some k)) as [[= <-]|Hko]; [done|].
      rewrite Hk3 by congruence. subst w2. unfold on_instance.
      rewrite !instances_set_instance_ne by congruence. done.
  - cbn [mbind option_bind]. eexists. split; [done|].
    split; [by rewrite <- Hi1; apply instances_set_instance|].
    split; [done|]. intros k Hk. rewrite Hd, decide_False by done.
    cbn [instances set_draginstance]. by apply instances_set_instance_ne.
Qed.

Lemma selected_aria_disabled added owner i y :
  aria_disabled (item_attrs (selected added owner i) y)
  = aria_disabled (item_attrs i y).
Proof.
  unfold selected. destruct added as [|x added]; [done|].
  cbn [item_attrs]. by apply (foldl_alter_proj _ aria_disabled).
Qed.

Lemma enabled_selected added owner i l :
  enabled (selected added owner i) l = enabled i l.
Proof.
  unfold enabled. apply list_filter_iff. intros y.
  by rewrite selected_aria_disabled.
Qed.

Lemma selected_cons x added owner i :
  selected added owner (selected [x] owner i) = selected (x :: added) owner i.
Proof.
  unfold selected. destruct added as [|y added]; [done|].
  apply instance_eq; try done. simpl. by rewrite <- app_assoc.
Qed.

Lemma forEach_addSelection this owner l :
  forall w,
    let i := instances w this in
    selection_owner i = None \/ selection_owner i = Some owner ->
    (forall other, draginstance w = Some other -> other <> this ->
                   evictable (instances w other)) ->
    exists w',
      forEach (fun x => addSelection this x owner) l w = Some w' /\
      instances w' this = selected (enabled i l) owner i /\
      draginstance w'
      = match enabled i l with [] => draginstance w | _ => Some this end /\
      forall k, k <> this ->
        instances w' k
        = match enabled i l with
          | [] => instances w k
          | _ => if decide (draginstance w = Some k)
                 then evicted (instances w k) else instances w k
          end.
Proof.
  induction l as [|x l IH]; intros w i Howner Hev.
  - exists w. by split.
  - cbn [forEach]. unfold enabled. rewrite filter_cons.
    destruct (decide (aria_disabled (item_attrs i x) = false)) as [Hen|Hdis].
    + destruct (addSelection_updates this x owner w Hen Howner Hev)
        as (w1 & Hw1 & Hi1 & Hd1 & Hk1).
      fold i in Hi1. rewrite Hw1. cbn [mbind option_bind].
      destruct (IH w1) as (w2 & Hw2 & Hi2 & Hd2 & Hk2).
      { rewrite Hi1. by right. }
      { intros other Ho Hne. congruence. }
      exists w2. split; [done|].
      rewrite Hi1, enabled_selected in Hi2, Hd2. rewrite selected_cons in Hi2.
      split; [done|]. split.
      { rewrite Hd2, Hd1. by destruct (enabled i l). }
      intros k Hk. specialize (Hk2 k Hk).
      rewrite Hi1, enabled_selected in Hk2. rewrite Hk2.
      rewrite Hd1, decide_False by congruence.
      rewrite Hk1 by done. by destruct (enabled i l).
    + rewrite addSelection_rejected
        by (left; fold i; by destruct (aria_disabled (item_attrs i x))).
      cbn [mbind option_bind]. by apply IH.
Qed.

(** **** Ranges *)

Lemma findIndex_elem x l :
  x ∈ l -> 0 <= findIndex x l < Z.of_nat (length l).
Proof.
  induction l as [|y l IH]; intros Hx; [by apply elem_of_nil in Hx|].
  cbn [findIndex length]. destruct (decide (y = x)) as [->|Hne]; [lia|].
  apply elem_of_cons in Hx as [->|Hx]; [done|].
  specialize (IH Hx). destruct (Z.ltb_spec (findIndex x l) 0); lia.
Qed.

Lemma at_index_seqZ l (n lo : nat) :
  (lo + n <= length l)%nat ->
  map (at_index l) (seqZ (Z.of_nat lo) (Z.of_nat n))
  = Some <$> take n (drop lo l).
Proof.
  revert lo. induction n as [|n IH]; intros lo Hlen; [done|].
  rewrite seqZ_cons by lia. cbn [map].
  destruct (lookup_lt_is_Some_2 l lo) as [x Hx]; [lia|].
  rewrite (drop_S l x lo Hx). cbn [take fmap list_fmap]. f_equal.
  - unfold at_index. destruct (Z.ltb_spec (Z.of_nat lo) 0); [lia|].
    by rewrite Nat2Z.id.
  - replace (Z.succ (Z.of_nat lo)) with (Z.of_nat (S lo)) by lia.
    replace (Z.pred (Z.of_nat (S n))) with (Z.of_nat n) by lia.
    apply IH. lia.
Qed.

Lemma at_index_seqZ_Z l (lo len : Z) :
  0 <= lo -> 0 <= len -> lo + len <= Z.of_nat (length l) ->
  map (at_index l) (seqZ lo len)
  = Some <$> take (Z.to_nat len) (drop (Z.to_nat lo) l).
Proof.
  intros Hlo Hlen Hle.
  pose proof (at_index_seqZ l (Z.to_nat len) (Z.to_nat lo)) as H.
  rewrite !Z2Nat.id in H by lia. apply H. lia.
Qed.

Lemma range_items_sub last active l x :
  x ∈ range_items last active l -> x ∈ l.
Proof.
  unfold range_items. intros Hx.
  assert (Hsub : x ∈ take
            (Z.to_nat (Z.max (findIndex last l) (findIndex active l)
                       - Z.min (findIndex last l) (findIndex active l) + 1))
            (drop (Z.to_nat (Z.min (findIndex last l) (findIndex active l))) l)).
  { destruct (_ <? _); [by apply elem_of_reverse|done]. }
  eapply elem_of_sublist; [exact Hsub|].
  etrans; [apply sublist_take|apply sublist_drop].
Qed.

Lemma range_items_NoDup last active l :
  NoDup l -> NoDup (range_items last active l).
Proof.
  intros Hnd. unfold range_items.
  assert (Hsub : NoDup (take
            (Z.to_nat (Z.max (findIndex last l) (findIndex active l)
                       - Z.min (findIndex last l) (findIndex active l) + 1))
            (drop (Z.to_nat (Z.min (findIndex last l) (findIndex active l))) l))).
  { eapply sublist_NoDup; [exact Hnd|].
    etrans; [apply sublist_take|apply sublist_drop]. }
  destruct (_ <? _); [by rewrite reverse_Permutation|done].
Qed.

Lemma forEach_Some {S : Type} (f : Item -> S -> option S) l s :
  forEach (fun (item : option Item) s => item ← item; f item s) (Some <$> l) s
  = forEach f l s.
Proof.
  revert s. induction l as [|x l IH]; intros s; [done|].
  cbn [fmap list_fmap forEach mbind option_bind].
  destruct (f x s); [apply IH|done].
Qed.

Lemma addSelectionRange_eq this droptarget col last active w :
  let i := instances w this in
  let range := range_items last active (dragitems col) in
  collection i !! droptarget = Some col ->
  data_drag_lastdescendant (target_attrs i droptarget) = Some last ->
  aria_activedescendant (target_attrs i droptarget) = Some active ->
  last ∈ dragitems col -> active ∈ dragitems col ->
  addSelectionRange this droptarget w
  = forEach (fun x => addSelection this x droptarget) range
      (set_instance this
         (set_selection_dragitems
            (filter (fun item => item ∉ range) (selection_dragitems i)) i) w).
Proof.
  intros i range Hcol Hlast Hactive Hl Ha.
  unfold addSelectionRange. fold i. rewrite Hcol, Hlast, Hactive.
  cbn [mbind option_bind]. rewrite !decide_True by done.
  pose proof (findIndex_elem last _ Hl) as Hb0.
  pose proof (findIndex_elem active _ Ha) as Hb1.
  set (b0 := findIndex last (dragitems col)) in *.
  set (b1 := findIndex active (dragitems col)) in *.
  assert (Hrange :
    (if b1 <? b0
     then reverse (map (at_index (dragitems col))
                       (seqZ (Z.min b0 b1) (Z.max b0 b1 - Z.min b0 b1 + 1)))
     else map (at_index (dragitems col))
              (seqZ (Z.min b0 b1) (Z.max b0 b1 - Z.min b0 b1 + 1)))
    = Some <$> range).
  { subst range. unfold range_items. fold b0 b1.
    rewrite at_index_seqZ_Z by lia.
    destruct (b1 <? b0); [by rewrite fmap_reverse|done]. }
  rewrite Hrange, forEach_Some. f_equal. f_equal. f_equal.
  apply list_filter_iff. intros x. rewrite list_elem_of_fmap.
  split.
  - intros Hn Hx. apply Hn. by exists x.
  - intros Hn (y & [= <-] & Hy). done.
Qed.

(** *** The invariant is kept *)

Lemma registry_ok_same i i' :
  collection i' = collection i -> dom_items i' = dom_items i ->
  target_attrs i' = target_attrs i ->
  selection_droptarget i' = selection_droptarget i ->
  dragenter i' = dragenter i ->
  registry_ok i -> registry_ok i'.
Proof.
  intros Hc Hd Ht Hs He [H1 H2 H3 H4 H5 H6].
  split; rewrite ?Hc, ?Hd, ?Ht, ?Hs, ?He; done.
Qed.

Lemma same_but_item_attrs_registry_ok i i' :
  same_but_item_attrs i i' -> registry_ok i -> registry_ok i'.
Proof.
  intros (_ & _ & Hdt & _ & Hc & _ & He & _ & Hdom & Hta).
  by apply registry_ok_same.
Qed.

Lemma cleared_selection i : selection_dragitems (cleared i) = [].
Proof. unfold cleared. by destruct (selection_dragitems i) eqn:Hs. Qed.

Lemma cleared_nil i : selection_dragitems i = [] -> cleared i = i.
Proof. unfold cleared. by intros ->. Qed.

Lemma cleared_registry i :
  collection (cleared i) = collection i /\
  dom_items (cleared i) = dom_items i /\
  target_attrs (cleared i) = target_attrs i /\
  selection_droptarget (cleared i) = selection_droptarget i /\
  dragenter (cleared i) = dragenter i /\
  touching (cleared i) = touching i.
Proof. unfold cleared. by destruct (selection_dragitems i). Qed.

Lemma cleared_drag_state i y :
  drag_state (item_attrs (cleared i) y)
  = if decide (y ∈ selection_dragitems i) then Some false
    else drag_state (item_attrs i y).
Proof.
  unfold cleared. destruct (selection_dragitems i) as [|x l] eqn:Hs.
  - rewrite decide_False; [done|apply not_elem_of_nil].
  - cbn [item_attrs]. destruct (decide (y ∈ x :: l)) as [Hin|Hnotin].
    + by rewrite (foldl_alter_in _ drag_state).
    + by rewrite foldl_alter_notin.
Qed.

(** Clearing the selection of an instance whose selection is in order,
    possibly after its marking was cleared, leaves it in order. *)
Lemma cleared_selection_ok i0 i :
  selection_ok i0 -> same_but_item_attrs i0 i ->
  (forall y, drag_state (item_attrs i y) = drag_state (item_attrs i0 y)) ->
  selection_ok (cleared i).
Proof.
  intros [Hown Howned Hnodup Hstate Hobs Hen]
         (Hs & Ho & _ & _ & Hc & _ & _ & Hob & _ & _) Hds.
  destruct (cleared_registry i) as (Hcc & _).
  split.
  - rewrite cleared_selection. split; [|done]. intros _.
    unfold cleared. destruct (selection_dragitems i) eqn:Hsi; [|done].
    rewrite Ho. apply Hown. by rewrite <- Hs.
  - intros o Hco. destruct (selection_dragitems i) eqn:Hsi.
    + rewrite (cleared_nil i Hsi) in *. rewrite Ho in Hco.
      destruct (Howned o Hco) as (col & Hcol & Hin).
      exists col. rewrite Hc. split; [done|].
      intros x Hx. rewrite Hsi in Hx. by apply elem_of_nil in Hx.
    + unfold cleared in Hco. by rewrite Hsi in Hco.
  - rewrite cleared_selection. constructor.
  - intros c col x Hcol Hx. rewrite cleared_selection, cleared_drag_state.
    rewrite Hcc, Hc in Hcol.
    split; [|by intros ?%elem_of_nil]. case_decide as Hin; [done|].
    rewrite Hds, (Hstate c col x Hcol Hx), <- Hs. done.
  - rewrite cleared_selection. split; [done|]. intros _.
    unfold cleared. destruct (selection_dragitems i) eqn:Hsi; [|done].
    rewrite Hob. apply Hobs. by rewrite <- Hs.
  - rewrite cleared_selection. by intros x ?%elem_of_nil.
Qed.

Lemma evicted_Inv i : Inv i -> Inv (evicted i).
Proof.
  intros [Hreg Hsel]. unfold evicted. split.
  - destruct (cleared_registry (clearDragValid i)) as (? & ? & ? & ? & ? & _).
    eapply registry_ok_same; [done..|].
    by eapply same_but_item_attrs_registry_ok; [apply clearDragValid_same|].
  - eapply cleared_selection_ok;
      [exact Hsel|apply clearDragValid_same|apply clearDragValid_drag_state].
Qed.

Lemma evicted_selection i : selection_dragitems (evicted i) = [].
Proof. apply cleared_selection. Qed.

(** The selected items of an instance in order are inside droptargets, so
    the instance can be evicted. *)
Lemma Inv_inside_droptarget i x :
  Inv i -> x ∈ selection_dragitems i -> inside_droptarget i x.
Proof.
  intros [Hreg Hsel] Hx.
  destruct (selection_owner i) as [o|] eqn:Ho.
  - destruct (sel_owned i Hsel o Ho) as (col & Hcol & Hin).
    exists o, col. split; [done|]. simpl.
    rewrite <- (reg_cache i Hreg o col Hcol). by apply Hin.
  - apply (sel_owner i Hsel) in Ho. rewrite Ho in Hx.
    by apply elem_of_nil in Hx.
Qed.

Lemma Inv_evictable i :
  Inv i -> selection_dragitems i <> [] -> evictable i.
Proof.
  intros HI Hne. split.
  - destruct (selection_owner i) eqn:Ho; [by eexists|].
    by apply (sel_owner i (proj2 HI)) in Ho.
  - intros y Hy. by apply Inv_inside_droptarget.
Qed.

Lemma reselected_nil l owner i :
  enabled i l = [] -> selection_ok i -> reselected l owner i = i.
Proof.
  intros Hen Hsel. unfold reselected. rewrite Hen. cbn [selected].
  apply instance_eq; try done. cbn [selection_dragitems set_selection_dragitems].
  apply filter_all. intros x Hx Hl.
  assert (Hin : x ∈ enabled i l).
  { unfold enabled. rewrite list_elem_of_filter.
    split; [|done]. by apply (sel_enabled i Hsel). }
  rewrite Hen in Hin. by apply elem_of_nil in Hin.
Qed.

Lemma reselected_registry l owner i :
  collection (reselected l owner i) = collection i /\
  dom_items (reselected l owner i) = dom_items i /\
  target_attrs (reselected l owner i) = target_attrs i /\
  selection_droptarget (reselected l owner i) = selection_droptarget i /\
  dragenter (reselected l owner i) = dragenter i /\
  touching (reselected l owner i) = touching i.
Proof. unfold reselected, selected. by destruct (enabled i l). Qed.

Lemma reselected_selection l owner i :
  selection_dragitems (reselected l owner i)
  = filter (fun item => item ∉ l) (selection_dragitems i) ++ enabled i l.
Proof.
  unfold reselected, selected. destruct (enabled i l); [|done].
  by rewrite app_nil_r.
Qed.

Lemma reselected_owner l owner i :
  selection_owner (reselected l owner i)
  = match enabled i l with [] => selection_owner i | _ => Some owner end.
Proof. unfold reselected, selected. by destruct (enabled i l). Qed.

Lemma reselected_selection_ok l owner col i :
  Inv i -> collection i !! owner = Some col ->
  selection_owner i = None \/ selection_owner i = Some owner ->
  (forall x, x ∈ l -> x ∈ dragitems col) -> NoDup l ->
  selection_ok (reselected l owner i).
Proof.
  intros [Hreg Hsel] Hcol Howner Hl Hnd.
  destruct (enabled i l) as [|a added] eqn:Hen.
  { by rewrite reselected_nil. }
  pose proof Hsel as [Hown Howned Hnodup Hstate Hobs Henabled].
  assert (Hadded : forall x, x ∈ a :: added <->
            aria_disabled (item_attrs i x) = false /\ x ∈ l).
  { intros x. rewrite <- Hen. unfold enabled. by rewrite list_elem_of_filter. }
  assert (Hsel' : forall x, x ∈ selection_dragitems (reselected l owner i) <->
            (x ∈ selection_dragitems i /\ x ∉ l) \/ x ∈ a :: added).
  { intros x. rewrite reselected_selection, Hen, elem_of_app,
      list_elem_of_filter. tauto. }
  assert (Hattrs : item_attrs (reselected l owner i)
            = foldl (fun attrs x => alter (set_drag_state (Some true)) x attrs)
                    (item_attrs i) (a :: added)).
  { unfold reselected. by rewrite Hen. }
  destruct (reselected_registry l owner i) as (Hc & _).
  split.
  - rewrite reselected_selection, reselected_owner, Hen. split; [|done].
    by intros [_ [=]]%app_eq_nil.
  - rewrite reselected_owner, Hen. intros ? [= <-]. exists col.
    rewrite Hc. split; [done|]. intros x [[Hx _]|Hx]%Hsel'.
    + destruct Howner as [Ho|Ho].
      * apply Hown in Ho. rewrite Ho in Hx. by apply elem_of_nil in Hx.
      * destruct (Howned owner Ho) as (col' & Hcol' & Hin).
        rewrite Hcol in Hcol'. injection Hcol' as <-. by apply Hin.
    + apply Hl. by apply Hadded.
  - rewrite reselected_selection, Hen. apply NoDup_app. split; [|split].
    + by apply NoDup_filter.
    + intros x [Hnl _]%list_elem_of_filter [_ Hin]%Hadded. done.
    + rewrite <- Hen. by apply NoDup_filter.
  - intros c col' x Hcol' Hx. rewrite Hc in Hcol'. rewrite Hsel', Hattrs.
    destruct (decide (x ∈ a :: added)) as [Hin|Hnotin].
    + rewrite (foldl_alter_in _ drag_state) by done. simpl. tauto.
    + rewrite foldl_alter_notin by done.
      rewrite (Hstate c col' x Hcol' Hx). split; [|tauto].
      intros Hxs. left. split; [done|]. intros Hxl. apply Hnotin.
      apply Hadded. split; [by apply Henabled|done].
  - unfold reselected. rewrite Hen. cbn [observing selection_dragitems selected].
    split; [done|]. by intros [_ [=]]%app_eq_nil.
  - intros x Hx. rewrite Hattrs.
    rewrite (foldl_alter_proj _ aria_disabled) by done.
    apply Hsel' in Hx as [[Hx _]|Hx]; [by apply Henabled|].
    by apply Hadded.
Qed.

Lemma reselected_Inv l owner col i :
  Inv i -> collection i !! owner = Some col ->
  selection_owner i = None \/ selection_owner i = Some owner ->
  (forall x, x ∈ l -> x ∈ dragitems col) -> NoDup l ->
  Inv (reselected l owner i).
Proof.
  intros HI Hcol Howner Hl Hnd. split.
  - destruct (reselected_registry l owner i) as (? & ? & ? & ? & ? & _).
    eapply registry_ok_same; [done..|apply HI].
  - by eapply reselected_selection_ok.
Qed.

(** **** From one instance to the page *)

(** The page stays in order when one instance moves to a state in order,
    every other instance stays as it is or is evicted, an instance that
    held a selection is evicted if this one ends with one, and
    [#draginstance] follows. *)
Lemma Inv_world_intro w w' this :
  let i := instances w this in
  let i' := instances w' this in
  Inv_world w -> Inv i' ->
  (forall k, k <> this ->
     instances w' k = instances w k \/
     instances w' k = evicted (instances w k)) ->
  (forall k, k <> this -> selection_dragitems (instances w k) <> [] ->
     selection_dragitems i' <> [] ->
     instances w' k = evicted (instances w k)) ->
  (forall k, k <> this -> selection_dragitems i' = [] ->
     instances w' k = instances w k) ->
  (selection_dragitems i' <> [] -> draginstance w' = Some this) ->
  (selection_dragitems i' = [] -> selection_dragitems i <> [] ->
     draginstance w' = None) ->
  (selection_dragitems i' = [] -> selection_dragitems i = [] ->
     draginstance w' = draginstance w) ->
  Inv_world w'.
Proof.
  intros i i' [Hinst Hhold Hexcl] Hi' Hothers Hevict Hsame Hd1 Hd2 Hd3.
  split.
  - intros k. destruct (decide (k = this)) as [->|Hk]; [done|].
    destruct (Hothers k Hk) as [-> | ->]; [done|]. by apply evicted_Inv.
  - intros d Hd. destruct (decide (d = this)) as [->|Hne].
    + fold i'. destruct (selection_dragitems i') eqn:Hs'; [|done].
      destruct (selection_dragitems i) eqn:Hs.
      * rewrite Hd3 in Hd by done. apply Hhold in Hd. by fold i in Hd.
      * by rewrite Hd2 in Hd.
    + destruct (selection_dragitems i') eqn:Hs'.
      * rewrite Hsame by done. apply Hhold.
        destruct (selection_dragitems i) eqn:Hs.
        -- by rewrite <- Hd3.
        -- by rewrite Hd2 in Hd.
      * rewrite Hd1 in Hd by done. congruence.
  - intros k Hk. destruct (decide (k = this)) as [->|Hne].
    + by apply Hd1.
    + destruct (selection_dragitems i') eqn:Hs'.
      * rewrite Hsame in Hk by done. pose proof (Hexcl k Hk) as Hdk.
        destruct (selection_dragitems i) eqn:Hs.
        -- by rewrite Hd3.
        -- assert (Hthis : draginstance w = Some this).
           { apply Hexcl. fold i. by rewrite Hs. }
           congruence.
      * destruct (Hothers k Hne) as [Hsm|Hev].
        -- rewrite Hsm in Hk. rewrite (Hevict k Hne Hk) in Hsm by done.
           rewrite <- Hsm, evicted_selection in Hk. done.
        -- by rewrite Hev, evicted_selection in Hk.
Qed.

(** Range selection, select-all and single selection on the page: the
    items of [l] have been taken out of the selection array, which gives
    the world [w0], and are then passed to [#addSelection]. *)
Lemma reselect_world this owner col l w w0 :
  let i := instances w this in
  Inv_world w -> collection i !! owner = Some col ->
  selection_owner i = None \/ selection_owner i = Some owner ->
  (forall x, x ∈ l -> x ∈ dragitems col) -> NoDup l ->
  updates this
    (set_selection_dragitems
       (filter (fun item => item ∉ l) (selection_dragitems i)) i)
    (draginstance w) w w0 ->
  exists w',
    forEach (fun x => addSelection this x owner) l w0 = Some w' /\
    instances w' this = reselected l owner i /\
    Inv_world w'.
Proof.
  intros i HW Hcol Howner Hl Hnd (Hi0 & Hk0 & Hd0).
  set (i0 := set_selection_dragitems _ i) in *.
  destruct (forEach_addSelection this owner l w0)
    as (w' & Hw' & Hi' & Hd' & Hk').
  { rewrite Hi0. done. }
  { rewrite Hd0. intros other Hd Hne. rewrite Hk0 by done.
    apply Inv_evictable; [apply HW|by apply (inv_holder w HW)]. }
  rewrite Hi0 in Hi', Hd', Hk'. rewrite Hd0 in Hd', Hk'.
  change (enabled i0 l) with (enabled i l) in *.
  change (selected (enabled i l) owner i0) with (reselected l owner i) in Hi'.
  exists w'. split; [done|]. split; [done|].
  assert (HI' : Inv (reselected l owner i))
    by (eapply reselected_Inv; [apply HW|done..]).
  pose proof (reselected_selection l owner i) as Hsel'.
  destruct (enabled i l) as [|a added] eqn:Hen.
  - rewrite reselected_nil in Hi', Hsel' by (done || apply HW).
    apply (Inv_world_intro w w' this); try done; rewrite ?Hi'; fold i.
    + apply HW.
    + intros k Hk. left. rewrite Hk' by done. by apply Hk0.
    + intros k Hk Hkne Hine.
      pose proof (inv_exclusive w HW k Hkne) as Hdk.
      pose proof (inv_exclusive w HW this Hine) as Hdt. congruence.
    + intros k Hk _. rewrite Hk' by done. by apply Hk0.
    + intros Hine. rewrite Hd'. by apply (inv_exclusive w HW).
    + intros Hie Hine. by destruct Hine.
  - apply (Inv_world_intro w w' this); try done; rewrite ?Hi'; fold i.
    + exact HI'.
    + intros k Hk. rewrite Hk' by done. rewrite Hk0 by done.
      case_decide; [by right|by left].
    + intros k Hk Hkne _. rewrite Hk' by done. rewrite Hk0 by done.
      by rewrite decide_True by (by apply (inv_exclusive w HW)).
    + rewrite Hsel'. by intros k _ [_ [=]]%app_eq_nil.
    + rewrite Hsel'. by intros [_ [=]]%app_eq_nil.
    + rewrite Hsel'. by intros [_ [=]]%app_eq_nil.
Qed.

(** A single [#addSelection] of a registered dragitem that is not
    selected. *)
Lemma add_world this owner col x w :
  let i := instances w this in
  Inv_world w -> collection i !! owner = Some col ->
  selection_owner i = None \/ selection_owner i = Some owner ->
  x ∈ dragitems col -> x ∉ selection_dragitems i ->
  exists w',
    addSelection this x owner w = Some w' /\
    instances w' this = reselected [x] owner i /\
    Inv_world w'.
Proof.
  intros i HW Hcol Howner Hx Hnotin.
  destruct (reselect_world this owner col [x] w w) as (w' & Hw' & Hi' & HW');
    try done.
  - by intros y ->%list_elem_of_singleton.
  - apply NoDup_singleton.
  - replace (set_selection_dragitems _ i) with i; [apply updates_refl|].
    apply instance_eq; try done. cbn [selection_dragitems set_selection_dragitems].
    symmetry. apply filter_all. intros y Hy ->%list_elem_of_singleton. done.
  - exists w'. split; [|done]. cbn [forEach] in Hw'.
    by destruct (addSelection this x owner w).
Qed.

(** An instance changes in a way that keeps its selection array: the
    page stays in order. *)
Lemma Inv_world_same_selection this i' w :
  Inv_world w -> Inv i' ->
  selection_dragitems i' = selection_dragitems (instances w this) ->
  Inv_world (set_instance this i' w).
Proof.
  intros HW Hi' Hsel.
  apply (Inv_world_intro w _ this); rewrite ?instances_set_instance;
    try done.
  - intros k Hk. left. by apply instances_set_instance_ne.
  - intros k Hk Hkne Hine. rewrite Hsel in Hine.
    pose proof (inv_exclusive w HW k Hkne).
    pose proof (inv_exclusive w HW this Hine). congruence.
  - intros k Hk _. by apply instances_set_instance_ne.
  - rewrite Hsel. apply (inv_exclusive w HW).
  - rewrite Hsel. intros Hie Hine. by destruct Hine.
Qed.

Lemma addDragValid_Inv i : Inv i -> Inv (addDragValid i).
Proof.
  intros [Hreg Hsel]. split.
  - by eapply same_but_item_attrs_registry_ok; [apply addDragValid_same|].
  - destruct Hsel as [Hown Howned Hnodup Hstate Hobs Hen].
    split; try done.
    + intros c col x Hcol Hx. rewrite addDragValid_drag_state.
      by apply (Hstate c col x).
    + intros x Hx. cbn [selection_dragitems addDragValid set_item_attrs] in Hx.
      cbn [item_attrs addDragValid set_item_attrs].
      rewrite forDragitems_notin; [by apply Hen|].
      intros c col Hcol Haff Hin.
      apply negb_true_iff, bool_decide_eq_false in Haff.
      destruct (selection_owner i) as [o|] eqn:Ho.
      * destruct (Howned o eq_refl) as (col' & Hcol' & Hsub).
        apply Haff. f_equal.
        eapply (reg_disjoint i Hreg); [exact Hcol'|exact Hcol| |exact Hin].
        by apply Hsub.
      * rewrite (proj2 Hown eq_refl) in Hx. by apply elem_of_nil in Hx.
Qed.

Lemma addDragValid_if_selected_Inv i :
  Inv i -> Inv (addDragValid_if_selected i).
Proof.
  intros HI. unfold addDragValid_if_selected.
  destruct (selection_dragitems i); [done|]. by apply addDragValid_Inv.
Qed.

Lemma addDragValid_world this w :
  Inv_world w -> Inv_world (on_instance this addDragValid_if_selected w).
Proof.
  intros HW. apply Inv_world_same_selection; [done| |].
  - apply addDragValid_if_selected_Inv, HW.
  - apply addDragValid_if_selected_same.
Qed.

(** [#clearDragValid()] followed by [#clearSelections()], as the exclusive
    selection, the document [mouseup] and the Escape key run them. *)
Lemma clear_world this droptarget w :
  let i := instances w this in
  Inv_world w ->
  exists w',
    clearSelections this droptarget (on_instance this clearDragValid w)
    = Some w' /\
    instances w' this = evicted i /\
    draginstance w'
    = match selection_dragitems i with [] => draginstance w | _ => None end /\
    Inv_world w'.
Proof.
  intros i HW. unfold on_instance. fold i.
  destruct (clearDragValid_same i)
    as (Hs & Ho & _ & _ & Hc & _ & _ & _ & Hdom & _).
  destruct (clearSelections_updates this droptarget
              (set_instance this (clearDragValid i) w)) as (w' & Hw' & Hu).
  { rewrite instances_set_instance, Hs, Ho. intros Hne.
    destruct (Inv_evictable i (inv_instances w HW this) Hne) as [Hown Hin].
    split; [by right|]. intros x Hx.
    eapply inside_droptarget_same; [done..|by apply Hin]. }
  rewrite instances_set_instance, Hs in Hu.
  cbn [draginstance set_instance] in Hu. destruct Hu as (Hi' & Hk' & Hd').
  exists w'. split; [done|]. split; [done|]. split; [done|].
  assert (Hk : forall k, k <> this -> instances w' k = instances w k).
  { intros k Hk. rewrite Hk' by done. by apply instances_set_instance_ne. }
  change (cleared (clearDragValid i)) with (evicted i) in Hi'.
  apply (Inv_world_intro w w' this); rewrite ?Hi', ?evicted_selection;
    fold i.
  - done.
  - apply evicted_Inv, HW.
  - intros k Hkne. left. by apply Hk.
  - by intros k _ _ Hne.
  - intros k Hkne _. by apply Hk.
  - by intros Hne.
  - intros _ Hne. rewrite Hd'. by destruct (selection_dragitems i).
  - intros _ He. rewrite Hd'. by rewrite He.
Qed.

(** **** [#doSelectionThing] *)

Lemma same_registry_refl i : same_registry i i.
Proof. done. Qed.

Lemma same_registry_trans i1 i2 i3 :
  same_registry i1 i2 -> same_registry i2 i3 -> same_registry i1 i3.
Proof.
  intros (H1 & H2 & H3 & H4 & H5 & H6) (K1 & K2 & K3 & K4 & K5 & K6).
  unfold same_registry. by rewrite K1, K2, K3, K4, K5, K6.
Qed.

Lemma same_but_item_attrs_same_registry i i' :
  same_but_item_attrs i i' -> same_registry i i'.
Proof. intros (_ & _ & ? & _ & ? & ? & ? & _ & ? & ?). done. Qed.

Lemma evicted_same_registry i : same_registry i (evicted i).
Proof.
  eapply same_registry_trans.
  - apply same_but_item_attrs_same_registry, clearDragValid_same.
  - apply cleared_registry.
Qed.

Lemma removeSelection_selection this x droptarget w w' :
  removeSelection this x droptarget w = Some w' ->
  selection_dragitems (instances w' this)
  = filter (fun item => item <> x) (selection_dragitems (instances w this)).
Proof.
  unfold removeSelection. intros Hw'.
  destruct (match droptarget with
            | Some d => Some d
            | None => selection_owner (instances w this)
            end); [|done].
  cbn [mbind option_bind] in Hw'.
  destruct (decide _); [|done]. simpl in Hw'.
  destruct (filter (fun item => item <> x)
              (selection_dragitems (instances w this))) eqn:Hf;
    injection Hw' as <-; cbn [instances set_draginstance];
    by rewrite instances_set_instance.
Qed.

Lemma unselect_Inv x i :
  Inv i ->
  filter (fun item => item <> x) (selection_dragitems i) <> [] ->
  Inv (unselect x i).
Proof.
  intros [Hreg Hsel] Hne.
  destruct (unselect_registry x i) as (Ho & Hdt & Hc & Ht & He & Hdom & Hta).
  pose proof (unselect_selection x i) as Hs.
  pose proof (unselect_item_attrs x i) as Ha.
  assert (Hobs : observing (unselect x i) = observing i).
  { unfold unselect. simpl.
    by destruct (filter (fun item => item <> x) (selection_dragitems i)). }
  assert (Hsi : selection_dragitems i <> []).
  { intros Hs0. by rewrite Hs0 in Hne. }
  split; [by eapply registry_ok_same|].
  destruct Hsel as [Hown Howned Hnodup Hstate Hobserving Hen].
  split; rewrite ?Hs, ?Ho, ?Hc, ?Ha, ?Hobs.
  - split; [done|]. intros Hnone. by apply Hown in Hnone.
  - intros o Hoo. destruct (Howned o Hoo) as (col & Hcol & Hin).
    exists col. split; [done|]. intros y [_ Hy]%list_elem_of_filter. by apply Hin.
  - by apply NoDup_filter.
  - intros c col y Hcol Hy. rewrite list_elem_of_filter.
    destruct (decide (x = y)) as [->|Hxy].
    + rewrite fn_lookup_alter. simpl. split; [done|]. by intros [? _].
    + rewrite fn_lookup_alter_ne by done.
      rewrite (Hstate c col y Hcol Hy). split; [|tauto]. intros ?. split; [|done].
      congruence.
  - split; [|done]. intros Hob. by apply Hobserving in Hob.
  - intros y [_ Hy]%list_elem_of_filter.
    destruct (decide (x = y)) as [->|Hxy].
    + rewrite fn_lookup_alter. simpl. by apply Hen.
    + rewrite fn_lookup_alter_ne by done. by apply Hen.
Qed.

Lemma range_world this droptarget col w :
  let i := instances w this in
  Inv_world w -> collection i !! droptarget = Some col ->
  dragitems col <> [] ->
  selection_owner i = None \/ selection_owner i = Some droptarget ->
  exists w',
    addSelectionRange this droptarget w = Some w' /\
    Inv_world w' /\ same_registry i (instances w' this).
Proof.
  intros i HW Hcol Hne Howner.
  destruct (reg_active i (proj1 (inv_instances w HW this)) droptarget col
              Hcol Hne) as [(active & Hactive & Ha) (last & Hlast & Hl)].
  rewrite (addSelectionRange_eq this droptarget col last active) by done.
  fold i.
  destruct (reselect_world this droptarget col
              (range_items last active (dragitems col)) w
              (set_instance this
                 (set_selection_dragitems
                    (filter (fun item =>
                               item ∉ range_items last active (dragitems col))
                            (selection_dragitems i)) i) w))
    as (w' & Hw' & Hi' & HW'); try done.
  - intros x. apply range_items_sub.
  - apply range_items_NoDup.
    by apply (reg_nodup i (proj1 (inv_instances w HW this)) droptarget).
  - apply updates_set_instance.
  - exists w'. split; [done|]. split; [done|].
    rewrite Hi'. apply reselected_registry.
Qed.

Lemma reselected_owner_ok l owner i :
  selection_owner i = None \/ selection_owner i = Some owner ->
  selection_owner (reselected l owner i) = None \/
  selection_owner (reselected l owner i) = Some owner.
Proof.
  intros Ho. rewrite reselected_owner. destruct (enabled i l); [done|by right].
Qed.

Lemma not_selected_by_state i c col x :
  selection_ok i -> collection i !! c = Some col -> x ∈ dragitems col ->
  drag_state (item_attrs i x) <> Some true -> x ∉ selection_dragitems i.
Proof. intros Hsel Hcol Hx Hst Hin. by apply Hst, (sel_state i Hsel c col x). Qed.

(** Adding the clicked item, then marking the valid targets. *)
Lemma add_mark_world this droptarget col x w :
  let i := instances w this in
  Inv_world w -> collection i !! droptarget = Some col ->
  selection_owner i = None \/ selection_owner i = Some droptarget ->
  x ∈ dragitems col -> x ∉ selection_dragitems i ->
  exists w',
    (w1 ← addSelection this x droptarget w;
     Some (on_instance this addDragValid_if_selected w1)) = Some w' /\
    Inv_world w' /\ same_registry i (instances w' this).
Proof.
  intros i HW Hcol Howner Hx Hnotin.
  destruct (add_world this droptarget col x w) as (w1 & Hw1 & Hi1 & HW1);
    try done.
  rewrite Hw1. cbn [mbind option_bind]. eexists. split; [done|].
  split; [by apply addDragValid_world|].
  unfold on_instance. rewrite instances_set_instance, Hi1.
  eapply same_registry_trans; [apply reselected_registry|].
  apply same_but_item_attrs_same_registry, addDragValid_if_selected_same.
Qed.

Lemma doSelectionThing_world this droptarget col x multimode w :
  let i := instances w this in
  Inv_world w -> collection i !! droptarget = Some col ->
  x ∈ dragitems col ->
  selection_owner i = None \/ selection_owner i = Some droptarget ->
  exists w',
    doSelectionThing this droptarget x multimode w = Some w' /\
    Inv_world w' /\ same_registry i (instances w' this).
Proof.
  intros i HW Hcol Hx Howner. unfold doSelectionThing. fold i.
  pose proof (inv_instances w HW this) as [Hreg Hsel]. fold i in Hreg, Hsel.
  assert (Hne : dragitems col <> []).
  { intros Hnil. rewrite Hnil in Hx. by apply elem_of_nil in Hx. }
  destruct (multimode =? 2); [|destruct (multimode =? 1)].
  - (* contiguous *)
    assert (Hfirst : exists w1,
      (if decide (drag_state (item_attrs i x) = Some false)
       then addSelection this x droptarget w else Some w) = Some w1 /\
      Inv_world w1 /\ same_registry i (instances w1 this) /\
      (selection_owner (instances w1 this) = None \/
       selection_owner (instances w1 this) = Some droptarget)).
    { case_decide as Hst.
      - destruct (add_world this droptarget col x w)
          as (w1 & Hw1 & Hi1 & HW1); try done.
        { eapply not_selected_by_state; [done..|]. fold i. congruence. }
        exists w1. rewrite Hi1. split; [done|]. split; [done|].
        split; [apply reselected_registry|by apply reselected_owner_ok].
      - exists w. done. }
    destruct Hfirst as (w1 & -> & HW1 & Hr1 & Ho1). cbn [mbind option_bind].
    destruct (range_world this droptarget col w1) as (w2 & Hw2 & HW2 & Hr2);
      try done.
    { destruct Hr1 as (-> & _). done. }
    rewrite Hw2. cbn [mbind option_bind]. eexists. split; [done|].
    split; [by apply addDragValid_world|].
    unfold on_instance. rewrite instances_set_instance.
    eapply same_registry_trans; [exact Hr1|].
    eapply same_registry_trans; [exact Hr2|].
    apply same_but_item_attrs_same_registry, addDragValid_if_selected_same.
  - (* non-contiguous *)
    case_decide as Hst.
    + assert (Hin : x ∈ selection_dragitems i)
        by (by apply (sel_state i Hsel droptarget col x)).
      destruct (length (selection_dragitems i) =? 1)%nat eqn:Hlen.
      * apply Nat.eqb_eq in Hlen.
        assert (Hsingle : selection_dragitems i = [x]).
        { destruct (selection_dragitems i) as [|y [|z l]];
            [by apply elem_of_nil in Hin| |done].
          by apply list_elem_of_singleton in Hin as ->. }
        destruct (clear_world this None w) as (w' & Hw' & Hi' & Hd' & HW');
          [done|].
        fold i in Hi'. exists w'. split; [|split; [done|]].
        -- rewrite <- Hw'. unfold clearSelections, on_instance.
           rewrite instances_set_instance. fold i.
           destruct (clearDragValid_same i) as (Hs & _). rewrite Hs, Hsingle.
           cbn [forEach].
           destruct (removeSelection this x None _) as [w1|] eqn:Hw1; [|done].
           cbn [mbind option_bind].
           rewrite (removeSelection_selection _ _ _ _ _ Hw1).
           rewrite instances_set_instance, Hs, Hsingle.
           rewrite filter_cons_False by (by intros ?). done.
        -- rewrite Hi'. apply evicted_same_registry.
      * apply Nat.eqb_neq in Hlen.
        assert (Hrest : filter (fun item => item <> x) (selection_dragitems i)
                        <> []).
        { pose proof (sel_nodup i Hsel) as Hnd.
          destruct (selection_dragitems i) as [|y [|z l]] eqn:Hs;
            [by apply elem_of_nil in Hin|done|].
          destruct (decide (y = x)) as [->|Hyx].
          - rewrite filter_cons_False by (by intros ?).
            rewrite filter_cons_True; [done|].
            apply NoDup_cons in Hnd as [Hnotin _]. intros ->.
            apply Hnotin. by left.
          - by rewrite filter_cons_True. }
        destruct (removeSelection_updates this x None w) as (w' & Hw' & Hu).
        { right. fold i. destruct (selection_owner i) eqn:Ho; [by eexists|].
          apply (sel_owner i Hsel) in Ho. rewrite Ho in Hin.
          by apply elem_of_nil in Hin. }
        { by apply Inv_inside_droptarget. }
        fold i in Hu. rewrite Hw'. cbn [mbind option_bind].
        destruct Hu as (Hi' & Hk' & Hd'). rewrite Hi', unselect_selection.
        destruct (filter (fun item => item <> x) (selection_dragitems i))
          as [|y rest] eqn:Hf; [done|].
        exists w'. split; [done|].
        rewrite unselect_selection, Hf in Hd'.
        assert (HI' : Inv (unselect x i))
          by (apply unselect_Inv; [done|by rewrite Hf]).
        split.
        -- apply (Inv_world_intro w w' this); rewrite ?Hi', ?unselect_selection,
             ?Hf; fold i; try done.
           ++ intros k Hk. left. by apply Hk'.
           ++ intros k Hk Hkne _.
              pose proof (inv_exclusive w HW k Hkne).
              assert (draginstance w = Some this).
              { apply (inv_exclusive w HW). fold i. intros Hs.
                rewrite Hs in Hin. by apply elem_of_nil in Hin. }
              congruence.
           ++ intros _. rewrite Hd'. apply (inv_exclusive w HW). fold i.
              intros Hs. rewrite Hs in Hin. by apply elem_of_nil in Hin.
        -- rewrite Hi'. destruct (unselect_registry x i)
             as (_ & ? & ? & ? & ? & ? & ?). done.
    + apply (add_mark_world this droptarget col x w); try done.
      eapply not_selected_by_state; [done..|]. by fold i.
  - (* exclusive *)
    destruct (clear_world this None w) as (w1 & Hw1 & Hi1 & Hd1 & HW1); [done|].
    fold i in Hi1. rewrite Hw1. cbn [mbind option_bind].
    destruct (negb _).
    + destruct (add_mark_world this droptarget col x w1)
        as (w2 & Hw2 & HW2 & Hr2); try done.
      * rewrite Hi1. by destruct (evicted_same_registry i) as (-> & _).
      * left. apply (sel_owner _ (proj2 (inv_instances w1 HW1 this))).
        rewrite Hi1. apply evicted_selection.
      * rewrite Hi1, evicted_selection. apply not_elem_of_nil.
      * exists w2. split; [done|]. split; [done|].
        eapply same_registry_trans; [|exact Hr2].
        rewrite Hi1. apply evicted_same_registry.
    + exists w1. split; [done|]. split; [done|].
      rewrite Hi1. apply evicted_same_registry.
Qed.

(** **** [#doDropThing] *)

(** Where the dragitems are once the [appendages] have been appended to
    [droptarget] one after the other. *)
Lemma foldl_appendChild droptarget appendages :
  forall dom c,
    NoDup appendages ->
    foldl (fun dom item => appendChild droptarget item dom) dom appendages c
    = if decide (c = droptarget)
      then filter (fun x => x ∉ appendages) (dom c) ++ appendages
      else filter (fun x => x ∉ appendages) (dom c).
Proof.
  induction appendages as [|x l IH]; intros dom c Hnd.
  - cbn [foldl]. rewrite filter_all by (intros y _; apply not_elem_of_nil).
    case_decide; [by rewrite app_nil_r|done].
  - apply NoDup_cons in Hnd as [Hx Hnd]. cbn [foldl]. rewrite IH by done.
    unfold appendChild.
    assert (Hf : filter (fun y => y ∉ l) (filter (fun y => y <> x) (dom c))
                 = filter (fun y => y ∉ x :: l) (dom c)).
    { rewrite list_filter_filter. apply list_filter_iff.
      intros y. rewrite not_elem_of_cons. tauto. }
    destruct (decide (c = droptarget)) as [->|Hc].
    + rewrite filter_app, Hf, filter_cons_True by done.
      by rewrite <- app_assoc.
    + done.
Qed.

(** What a rebuild leaves. *)
Lemma rebuild_spec c setdescendant i col :
  collection i !! c = Some col ->
  (forall a, setdescendant = Some a -> a ∈ dom_items i c) ->
  exists i' mm,
    rebuild c setdescendant i = Some i' /\
    collection i'
    = <[c := mkCollection (dom_items i c) (sorted col) mm]> (collection i) /\
    item_attrs i'
    = foldl (fun attrs x => alter (set_drag_state (Some false)) x attrs)
            (item_attrs i) (dom_items i c) /\
    (forall c', c' <> c -> target_attrs i' c' = target_attrs i c') /\
    (dom_items i c <> [] ->
     exists a, a ∈ dom_items i c /\
               aria_activedescendant (target_attrs i' c) = Some a /\
               data_drag_lastdescendant (target_attrs i' c) = Some a) /\
    dom_items i' = dom_items i /\
    selection_dragitems i' = selection_dragitems i /\
    selection_owner i' = selection_owner i /\
    selection_droptarget i' = selection_droptarget i /\
    selection_nodesort i' = selection_nodesort i /\
    touching i' = touching i /\
    dragenter i' = dragenter i /\
    observing i' = observing i.
Proof.
  intros Hcol Hsd. unfold rebuild. rewrite Hcol. cbn [mbind option_bind].
  unfold getDroptarget, getDragitems. eexists _, _. split; [done|].
  simpl. split; [done|]. split; [done|]. split.
  { intros c' Hc'. by apply fn_lookup_insert_ne. }
  split; [|done]. intros Hne. rewrite fn_lookup_insert.
  destruct (dom_items i c) as [|first rest] eqn:Hdom; [done|].
  exists (default first setdescendant). split; [|done].
  destruct setdescendant as [a|]; [by apply Hsd|by left].
Qed.

(** An instance is in order after a drop if nothing is selected any
    more, the [appendages] (dragitems of the owner) have become the last
    dragitems of [droptarget], the two rebuilt members of [#collection]
    cache the new dragitems and have a valid active descendant, and no
    registered dragitem is left with the selection state ['true']. *)
Lemma dropped_Inv i i' owner droptarget ownercol appendages :
  Inv i ->
  collection i !! owner = Some ownercol ->
  is_Some (collection i !! droptarget) ->
  NoDup appendages ->
  (forall x, x ∈ appendages -> x ∈ dragitems ownercol) ->
  selection_dragitems i' = [] -> selection_owner i' = None ->
  selection_droptarget i' = None -> observing i' = true ->
  dragenter i' = dragenter i ->
  (forall c, dom_items i' c
             = if decide (c = droptarget)
               then filter (fun x => x ∉ appendages) (dom_items i c)
                    ++ appendages
               else filter (fun x => x ∉ appendages) (dom_items i c)) ->
  (forall c col', c = owner \/ c = droptarget ->
     collection i' !! c = Some col' -> dragitems col' = dom_items i' c) ->
  (forall c, c <> owner -> c <> droptarget ->
     collection i' !! c = collection i !! c) ->
  (forall c, is_Some (collection i' !! c) <-> is_Some (collection i !! c)) ->
  (forall c, c <> owner -> c <> droptarget ->
     target_attrs i' c = target_attrs i c) ->
  (forall c, c = owner \/ c = droptarget -> dom_items i' c <> [] ->
     exists a, a ∈ dom_items i' c /\
               aria_activedescendant (target_attrs i' c) = Some a /\
               data_drag_lastdescendant (target_attrs i' c) = Some a) ->
  (forall c col' x, collection i' !! c = Some col' -> x ∈ dragitems col' ->
     drag_state (item_attrs i' x) <> Some true) ->
  Inv i'.
Proof.
  intros [Hreg Hsel] Hocol Hdt Hnd Happ Hs' Ho' Hdt' Hobs' He' Hdom
         HC1 HC2 HC3 HT1 HT2 HS.
  destruct Hreg as [Rcache Rnodup Rdisj Ractive Rtarget Rentered].
  (* the old document: registered droptargets *)
  assert (Hold : forall c, is_Some (collection i' !! c) ->
            exists col, collection i !! c = Some col /\
                        dragitems col = dom_items i c /\ NoDup (dom_items i c)).
  { intros c [col Hcol]%HC3. exists col. split; [done|].
    rewrite <- (Rcache c col Hcol). split; [done|]. by apply (Rnodup c col). }
  assert (Happ_owner : forall x, x ∈ appendages -> x ∈ dom_items i owner).
  { intros x Hx. rewrite <- (Rcache owner ownercol Hocol). by apply Happ. }
  (* an appendage is a dragitem of [droptarget] only *)
  assert (Hin_new : forall c x, x ∈ dom_items i' c ->
            (x ∈ appendages /\ c = droptarget) \/
            ((x ∉ appendages) /\ x ∈ dom_items i c)).
  { intros c x. rewrite Hdom. case_decide as Hc.
    - rewrite elem_of_app, list_elem_of_filter. intros [[? ?]|?]; [by right|].
      by left.
    - rewrite list_elem_of_filter. intros [? ?]. by right. }
  assert (Hcache' : forall c col', collection i' !! c = Some col' ->
            dragitems col' = dom_items i' c).
  { intros c col' Hcol'.
    destruct (decide (c = owner \/ c = droptarget)) as [Hc|Hc];
      [by apply HC1|].
    assert (c <> owner /\ c <> droptarget) as [Hco Hcd] by tauto.
    rewrite HC2 in Hcol' by done. rewrite (Rcache c col' Hcol'), Hdom.
    rewrite decide_False by done. symmetry. apply filter_all.
    intros x Hx Hxa. apply Hco.
    eapply (Rdisj c owner col' ownercol x); [done..| |by apply Happ].
    by rewrite (Rcache c col' Hcol'). }
  split; split.
  - exact Hcache'.
  - intros c col' Hcol'. rewrite (Hcache' c col' Hcol'), Hdom.
    destruct (Hold c) as (col & Hcol & _ & Hndc); [by eexists|].
    case_decide.
    + apply NoDup_app. split; [by apply NoDup_filter|]. split; [|done].
      by intros x [? _]%list_elem_of_filter.
    + by apply NoDup_filter.
  - intros c1 c2 col1 col2 x Hc1 Hc2.
    rewrite (Hcache' c1 col1 Hc1), (Hcache' c2 col2 Hc2).
    intros [[Ha ->]|[Hna H1]]%Hin_new [[Ha' ->]|[Hna' H2]]%Hin_new; try done.
    destruct (Hold c1) as (o1 & Ho1 & Hd1 & _); [by eexists|].
    destruct (Hold c2) as (o2 & Ho2 & Hd2 & _); [by eexists|].
    eapply (Rdisj c1 c2 o1 o2 x); [done..| |]; by rewrite ?Hd1, ?Hd2.
  - intros c col' Hcol' Hne.
    destruct (decide (c = owner \/ c = droptarget)) as [Hc|Hc].
    + rewrite (Hcache' c col' Hcol') in *.
      destruct (HT2 c Hc Hne) as (a & Ha & Hact & Hlast). split; by exists a.
    + assert (c <> owner /\ c <> droptarget) as [Hco Hcd] by tauto.
      rewrite HT1 by done. rewrite HC2 in Hcol' by done.
      exact (Ractive c col' Hcol' Hne).
  - by rewrite Hdt'.
  - intros entered dt0. rewrite He', HC3. apply Rentered.
  - by rewrite Hs', Ho'.
  - by rewrite Ho'.
  - rewrite Hs'. constructor.
  - intros c col' x Hcol' Hx. rewrite Hs'. split.
    + intros Hst. by apply (HS c col' x) in Hst.
    + by intros ?%elem_of_nil.
  - by rewrite Hs', Hobs'.
  - rewrite Hs'. by intros x ?%elem_of_nil.
Qed.

Lemma appendages_spec i owner ownercol :
  Inv i -> selection_owner i = Some owner ->
  collection i !! owner = Some ownercol ->
  NoDup (appendages i ownercol) /\
  (forall x, x ∈ appendages i ownercol <-> x ∈ selection_dragitems i) /\
  (forall x, x ∈ appendages i ownercol -> x ∈ dragitems ownercol).
Proof.
  intros [Hreg Hsel] Ho Hcol.
  destruct (sel_owned i Hsel owner Ho) as (col & Hcol' & Hsub).
  assert (col = ownercol) as -> by congruence.
  unfold appendages. destruct (selection_nodesort i).
  - split; [apply NoDup_filter, (reg_nodup i Hreg owner ownercol Hcol)|].
    split; intros x; rewrite list_elem_of_filter; [|tauto].
    split; [tauto|]. intros Hx. split; [done|by apply Hsub].
  - split; [apply (sel_nodup i Hsel)|]. split; [done|]. apply Hsub.
Qed.

(** A drop with the drop target set, in a page that is in order: it
    returns true, the appendages are moved, nothing is selected any more,
    and the page is in order again. *)
Lemma doDropThing_world this droptarget owner ownercol w :
  let i := instances w this in
  Inv_world w ->
  selection_droptarget i = Some droptarget ->
  selection_owner i = Some owner ->
  collection i !! owner = Some ownercol ->
  exists w',
    doDropThing this w = Some (w', true) /\
    Inv_world w' /\
    selection_dragitems (instances w' this) = [] /\
    selection_owner (instances w' this) = None /\
    selection_droptarget (instances w' this) = None /\
    (forall c, dom_items (instances w' this) c
               = dropped_dom i droptarget ownercol c) /\
    (forall c, is_Some (collection (instances w' this) !! c)
               <-> is_Some (collection i !! c)) /\
    touching (instances w' this) = touching i /\
    dragenter (instances w' this) = dragenter i /\
    (forall k, k <> this -> instances w' k = instances w k) /\
    draginstance w' = None.
Proof.
  intros i HW Hdt Ho Hocol.
  pose proof (inv_instances w HW this) as Hinv. fold i in Hinv.
  pose proof Hinv as [Hreg Hsel].
  destruct (reg_target i Hreg droptarget Hdt) as [dtcol Hdtcol].
  destruct (appendages_spec i owner ownercol Hinv Ho Hocol)
    as (Hnd & Happ & Happ_owner).
  assert (Hne : selection_dragitems i <> []).
  { intros He. apply (sel_owner i Hsel) in He. congruence. }
  unfold doDropThing. fold i. rewrite Hdt, Ho. cbn [mbind option_bind].
  rewrite Hocol, Hdtcol. cbn [mbind option_bind].
  cbn [selection_nodesort selection_dragitems set_item_attrs dom_items].
  fold (appendages i ownercol).
  set (i1 := set_item_attrs _ i).
  set (i2 := set_dom_items _ i1).
  assert (Hdom2 : forall c, dom_items i2 c = dropped_dom i droptarget ownercol c).
  { intros c. unfold i2, dropped_dom.
    cbn [dom_items set_dom_items i1 set_item_attrs].
    by apply foldl_appendChild. }
  (* the two rebuilds *)
  cbn [forEach].
  destruct (rebuild_spec owner
              (if bool_decide (droptarget = owner)
                  || negb (bool_decide (owner = owner))
               then last (getDragitems i2 owner) else None) i2 ownercol)
    as (i3 & mm3 & -> & Hc3 & Ha3 & Ht3 & Hact3 & Hd3 & Hs3 & Ho3 & Hdt3
        & Hn3 & Hto3 & He3 & Hob3); [done| |].
  { intros a. destruct (_ || _); [|done]. unfold getDragitems.
    intros [l' ->]%last_Some. apply elem_of_app. right. by left. }
  cbn [mbind option_bind].
  assert (exists col4, collection i3 !! droptarget = Some col4) as [col4 Hcol4].
  { rewrite Hc3. destruct (decide (owner = droptarget)) as [->|Hod].
    - rewrite lookup_insert_eq. by eexists.
    - rewrite lookup_insert_ne by done. by eexists. }
  destruct (rebuild_spec droptarget
              (if bool_decide (droptarget = owner)
                  || negb (bool_decide (droptarget = owner))
               then last (getDragitems i3 droptarget) else None) i3 col4)
    as (i4 & mm4 & -> & Hc4 & Ha4 & Ht4 & Hact4 & Hd4 & Hs4 & Ho4 & Hdt4
        & Hn4 & Hto4 & He4 & Hob4); [done| |].
  { intros a. destruct (_ || _); [|done]. unfold getDragitems.
    intros [l' ->]%last_Some. apply elem_of_app. right. by left. }
  cbn [mbind option_bind].
  destruct (clearDragValid_same i4)
    as (Hs5 & Ho5 & Hdt5 & Hn5 & Hc5 & Hto5 & He5 & Hob5 & Hd5 & Ht5).
  set (i5 := clearDragValid i4) in *.
  assert (Hsel5 : selection_dragitems i5 = selection_dragitems i).
  { by rewrite Hs5, Hs4, Hs3. }
  assert (Hdom5 : forall c, dom_items i5 c = dropped_dom i droptarget ownercol c).
  { intros c. by rewrite Hd5, Hd4, Hd3. }
  assert (Hsome5 : forall c, is_Some (collection i5 !! c)
                             <-> is_Some (collection i !! c)).
  { intros c. rewrite Hc5, Hc4, Hc3, !lookup_insert_is_Some'.
    change (collection i2) with (collection i).
    split; [|tauto]. intros [<-|[<-|?]]; by eauto. }
  destruct (clearSelections_updates this (Some droptarget)
              (set_instance this i5 w)) as (w6 & -> & Hi6 & Hk6 & Hd6).
  { rewrite instances_set_instance. intros _. split; [by left|].
    intros x Hx. rewrite Hsel5 in Hx. apply Happ in Hx.
    destruct (proj2 (Hsome5 droptarget)) as [c5 Hc5']; [by eexists|].
    exists droptarget, c5. split; [done|]. rewrite Hdom5. unfold dropped_dom.
    rewrite decide_True by done. apply elem_of_app. by right. }
  cbn [mbind option_bind]. rewrite instances_set_instance in Hi6, Hd6.
  eexists. split; [done|].
  unfold on_instance. rewrite !instances_set_instance, Hi6.
  assert (Hk : forall k, k <> this ->
            instances (set_instance this
                         (set_selection_droptarget None (cleared i5)) w6) k
            = instances w k).
  { intros k Hkne. rewrite instances_set_instance_ne by done.
    rewrite Hk6 by done. by apply instances_set_instance_ne. }
  assert (Hd : draginstance w6 = None).
  { rewrite Hd6, Hsel5. by destruct (selection_dragitems i). }
  assert (Hcl : cleared i5
                = mkInstance [] None (selection_droptarget i5) true
                    (collection i5) (touching i5) (dragenter i5) true
                    (dom_items i5)
                    (foldl (fun attrs dragitem =>
                              alter (set_drag_state (Some false)) dragitem attrs)
                           (item_attrs i5) (selection_dragitems i5))
                    (target_attrs i5)).
  { unfold cleared. rewrite Hsel5.
    by destruct (selection_dragitems i). }
  assert (Hstate : forall y,
            drag_state (item_attrs (cleared i5) y)
            = if decide (y ∈ selection_dragitems i) then Some false
              else if decide (y ∈ dom_items i2 droptarget) then Some false
              else if decide (y ∈ dom_items i2 owner) then Some false
              else drag_state (item_attrs i y)).
  { intros y. rewrite cleared_drag_state, Hsel5.
    case_decide as Hy; [done|]. unfold i5.
    rewrite clearDragValid_drag_state, Ha4, Hd3.
    case_decide as Hy4; [by rewrite (foldl_alter_in _ drag_state)|].
    rewrite foldl_alter_notin by done. rewrite Ha3.
    case_decide as Hy3; [by rewrite (foldl_alter_in _ drag_state)|].
    rewrite foldl_alter_notin by done.
    unfold i2, i1. cbn [item_attrs set_dom_items set_item_attrs].
    by rewrite foldl_alter_notin. }
  assert (Hfinal : Inv (set_selection_droptarget None (cleared i5))).
  { apply (dropped_Inv i _ owner droptarget ownercol
             (appendages i ownercol)).
    - done.
    - done.
    - by eexists.
    - done.
    - done.
    - by rewrite Hcl.
    - by rewrite Hcl.
    - done.
    - by rewrite Hcl.
    - rewrite Hcl. cbn. by rewrite He5, He4, He3.
    - intros c. rewrite Hcl. cbn. apply Hdom5.
    - intros c col' Hc. rewrite Hcl. cbn. rewrite Hc5, Hc4, Hd5, Hd4.
      destruct (decide (c = droptarget)) as [->|Hcd].
      + rewrite lookup_insert_eq. by intros [= <-].
      + destruct Hc as [->|?]; [|done].
        rewrite lookup_insert_ne, Hc3, lookup_insert_eq by done.
        rewrite Hd3. by intros [= <-].
    - intros c Hco Hcd. rewrite Hcl. cbn. rewrite Hc5, Hc4, Hc3.
      by rewrite !lookup_insert_ne.
    - intros c. rewrite Hcl. cbn. apply Hsome5.
    - intros c Hco Hcd. rewrite Hcl. cbn. rewrite Ht5, Ht4, Ht3; done.
    - intros c Hc. rewrite Hcl. cbn. rewrite Ht5, Hd5, Hd4.
      destruct (decide (c = droptarget)) as [->|Hcd]; [apply Hact4|].
      destruct Hc as [->|?]; [|done]. rewrite Ht4, Hd3 by done. apply Hact3.
    - intros c col' x Hcol' Hx.
      change (item_attrs (set_selection_droptarget None (cleared i5)) x)
        with (item_attrs (cleared i5) x).
      rewrite Hstate.
      change (collection (set_selection_droptarget None (cleared i5)))
        with (collection (cleared i5)) in Hcol'.
      rewrite Hcl in Hcol'. cbn in Hcol'. rewrite Hc5, Hc4 in Hcol'.
      case_decide as Hxs; [done|]. case_decide as Hxd; [done|].
      case_decide as Hxo; [done|].
      destruct (decide (c = droptarget)) as [->|Hcd].
      { rewrite lookup_insert_eq in Hcol'. injection Hcol' as <-.
        rewrite Hd3 in Hx. by destruct Hxd. }
      rewrite lookup_insert_ne, Hc3 in Hcol' by done.
      destruct (decide (c = owner)) as [->|Hco].
      { rewrite lookup_insert_eq in Hcol'. injection Hcol' as <-.
        by destruct Hxo. }
      rewrite lookup_insert_ne in Hcol' by done.
      intros Hst. apply Hxs.
      by apply (sel_state i Hsel c col' x Hcol' Hx). }
  split.
  { apply (Inv_world_intro w _ this); rewrite ?instances_set_instance;
      fold i; try done.
    - intros k Hkne. left. by apply Hk.
    - intros k Hkne _ Hine. exfalso. apply Hine. by rewrite Hcl.
    - intros k Hkne _. by apply Hk.
    - intros Hine. exfalso. apply Hine. by rewrite Hcl. }
  split; [by rewrite Hcl|]. split; [by rewrite Hcl|]. split; [done|].
  split; [intros c; rewrite Hcl; apply Hdom5|].
  split; [intros c; rewrite Hcl; apply Hsome5|].
  split; [rewrite Hcl; cbn; by rewrite Hto5, Hto4, Hto3|].
  split; [rewrite Hcl; cbn; by rewrite He5, He4, He3|].
  split; [exact Hk|done].
Qed.

(** **** Listeners that leave the selection alone *)

(** The invariant only reads the selection, the registry, the document and
    the attributes; the pending drop target and the droptarget of the last
    [dragenter] have to be registered. *)
Lemma Inv_frame i i' :
  Inv i ->
  selection_dragitems i' = selection_dragitems i ->
  selection_owner i' = selection_owner i ->
  collection i' = collection i ->
  observing i' = observing i ->
  dom_items i' = dom_items i ->
  item_attrs i' = item_attrs i ->
  target_attrs i' = target_attrs i ->
  (forall droptarget, selection_droptarget i' = Some droptarget ->
     is_Some (collection i !! droptarget)) ->
  (forall entered droptarget,
     dragenter i' = Some entered -> t_droptarget entered = Some droptarget ->
     is_Some (collection i !! droptarget)) ->
  Inv i'.
Proof.
  intros [[Rc Rn Rd Ra Rt Re] [So Sd Sn Ss Sb Se]] Hs Ho Hc Hob Hd Hi Ht
         Htarget Hentered.
  split; split; rewrite ?Hs, ?Ho, ?Hc, ?Hob, ?Hd, ?Hi, ?Ht; try done.
Qed.

Lemma activeUpdate_Inv droptarget dragitem i :
  Inv i ->
  (forall c, droptarget = Some c -> is_Some (collection i !! c)) ->
  exists i',
    activeUpdate droptarget dragitem i = Some i' /\ Inv i' /\
    selection_dragitems i' = selection_dragitems i /\
    selection_owner i' = selection_owner i /\
    collection i' = collection i /\ dom_items i' = dom_items i /\
    item_attrs i' = item_attrs i.
Proof.
  intros Hinv Hreg. unfold activeUpdate.
  destruct droptarget as [c|]; [|by exists i].
  destruct dragitem as [x|]; [|by exists i].
  case_decide as Hact; [by exists i|].
  destruct (Hreg c eq_refl) as [col Hcol]. rewrite Hcol.
  cbn [mbind option_bind]. eexists. split; [done|].
  split; [|done]. destruct Hinv as [[Rc Rn Rd Ra Rt Re] Hsel].
  split; [split|by destruct Hsel]; cbn; try done.
  intros c' col' Hcol' Hne. destruct (decide (c' = c)) as [->|Hc'].
  - rewrite fn_lookup_insert. cbn.
    assert (col' = col) as -> by congruence.
    destruct (Ra c col Hcol Hne) as [[a [Ha Hain]] _].
    split; [|by exists a]. case_decide; [by exists x|by exists a].
  - rewrite fn_lookup_insert_ne by done. by apply Ra.
Qed.

(** **** The listeners keep the page in order *)

Lemma instances_on_instance this f w :
  instances (on_instance this f w) this = f (instances w this).
Proof. apply instances_set_instance. Qed.

Lemma Inv_owner_set i :
  Inv i -> selection_dragitems i <> [] ->
  exists owner col,
    selection_owner i = Some owner /\ collection i !! owner = Some col.
Proof.
  intros [_ Hsel] Hne. destruct (selection_owner i) as [owner|] eqn:Ho.
  - destruct (sel_owned i Hsel owner Ho) as (col & Hcol & _). by exists owner, col.
  - by apply (sel_owner i Hsel) in Ho.
Qed.

(** A listener sets the pending drop target (and perhaps the order
    policy) and drops. *)
Lemma drop_world this i' droptarget w :
  let i := instances w this in
  Inv_world w ->
  selection_dragitems i' = selection_dragitems i ->
  selection_owner i' = selection_owner i ->
  collection i' = collection i ->
  observing i' = observing i ->
  dom_items i' = dom_items i ->
  item_attrs i' = item_attrs i ->
  target_attrs i' = target_attrs i ->
  dragenter i' = dragenter i ->
  selection_droptarget i' = Some droptarget ->
  is_Some (collection i !! droptarget) ->
  is_Some (selection_owner i) ->
  exists w',
    doDropThing this (set_instance this i' w) = Some (w', true) /\
    Inv_world w'.
Proof.
  intros i HW Hs Ho Hc Hob Hd Hi Ht He Hdt Hreg [owner Howner].
  pose proof (inv_instances w HW this) as Hinv. fold i in Hinv.
  assert (Hinv' : Inv i').
  { apply (Inv_frame i i'); try done.
    - intros c. rewrite Hdt. by intros [= <-].
    - intros entered c. rewrite He. apply (reg_entered i (proj1 Hinv)). }
  destruct (sel_owned i (proj2 Hinv) owner Howner) as (col & Hcol & _).
  destruct (doDropThing_world this droptarget owner col
              (set_instance this i' w)) as (w' & Hw' & HW' & _).
  - by apply Inv_world_same_selection.
  - by rewrite instances_set_instance.
  - rewrite instances_set_instance. congruence.
  - rewrite instances_set_instance. congruence.
  - by exists w'.
Qed.

Lemma on_touch_world this w :
  Inv_world w -> exists w', on_touch this w = Some w' /\ Inv_world w'.
Proof.
  intros HW. eexists. split; [done|]. unfold on_instance.
  apply Inv_world_same_selection; [done| |done].
  eapply Inv_frame; [apply (inv_instances w HW this)|try done..].
  - apply (reg_target _ (proj1 (inv_instances w HW this))).
  - apply (reg_entered _ (proj1 (inv_instances w HW this))).
Qed.

Lemma on_mousedown_world this target w :
  Inv_world w -> target_ok (instances w this) target ->
  exists w', on_mousedown this target w = Some w' /\ Inv_world w'.
Proof.
  intros HW [Hdt _]. unfold on_mousedown.
  destruct (activeUpdate_Inv (t_droptarget target) (t_dragitem target)
              (instances w this)) as (i' & -> & Hinv' & Hs & _);
    [apply HW|done|].
  cbn [mbind option_bind]. eexists. split; [done|].
  by apply Inv_world_same_selection.
Qed.

Lemma on_dragenter_world this target w :
  Inv_world w -> target_ok (instances w this) target ->
  exists w', on_dragenter this target w = Some w' /\ Inv_world w'.
Proof.
  intros HW [Hdt _]. unfold on_dragenter.
  case_decide; [|by exists w]. eexists. split; [done|]. unfold on_instance.
  apply Inv_world_same_selection; [done| |done].
  eapply Inv_frame; [apply (inv_instances w HW this)|try done..].
  - apply (reg_target _ (proj1 (inv_instances w HW this))).
  - cbn. intros entered c [= <-]. apply Hdt.
Qed.

Lemma on_dragleave_world this w :
  Inv_world w ->
  (draginstance w = Some this -> is_Some (dragenter (instances w this))) ->
  exists w', on_dragleave this w = Some w' /\ Inv_world w'.
Proof.
  intros HW Hentered. unfold on_dragleave.
  case_decide as Hd; [|by exists w].
  destruct (Hentered Hd) as [entered He]. rewrite He.
  cbn [mbind option_bind]. eexists. split; [done|].
  pose proof (inv_instances w HW this) as Hinv.
  apply Inv_world_same_selection; [done| |done].
  eapply Inv_frame; [exact Hinv|try done..].
  - cbn. intros c. case_decide; [done|].
    by apply (reg_entered _ (proj1 Hinv)).
  - apply (reg_entered _ (proj1 Hinv)).
Qed.

Lemma on_escape_world this w :
  Inv_world w -> exists w', on_escape this w = Some w' /\ Inv_world w'.
Proof.
  intros HW. unfold on_escape.
  destruct (selection_dragitems (instances w this)) as [|x l] eqn:Hs;
    [by exists w|].
  destruct (Inv_owner_set (instances w this)) as (owner & col & Ho & _);
    [apply HW|by rewrite Hs|].
  rewrite instances_on_instance.
  destruct (clearDragValid_same (instances w this)) as (_ & -> & _).
  rewrite Ho. cbn [mbind option_bind].
  destruct (clear_world this None w HW) as (w' & Hw' & _ & _ & HW').
  by exists w'.
Qed.

Lemma getMultimode_Some i e droptarget col :
  collection i !! droptarget = Some col ->
  exists multimode, getMultimode i e droptarget = Some multimode.
Proof. intros Hcol. unfold getMultimode. rewrite Hcol. by eexists. Qed.

Lemma on_mouseup_world this e target w :
  Inv_world w -> target_ok (instances w this) target ->
  exists w', on_mouseup this e target w = Some w' /\ Inv_world w'.
Proof.
  intros HW [Hdt Hitem]. unfold on_mouseup.
  set (i := instances w this) in *.
  pose proof (inv_instances w HW this) as Hinv. fold i in Hinv.
  destruct (t_droptarget target) as [droptarget|] eqn:Htd; [|by exists w].
  destruct (negb _ && _) eqn:Hcond.
  - apply andb_true_iff in Hcond as [Hlen _].
    assert (Hne : selection_dragitems i <> []).
    { intros He. by rewrite He in Hlen. }
    destruct (Inv_owner_set i Hinv Hne) as (owner & _ & Ho & _).
    destruct (drop_world this
                (set_selection_droptarget (Some droptarget)
                   (set_selection_nodesort (negb (t_sorted target)) i))
                droptarget w) as (w' & Hw' & HW'); try done.
    all: fold i; first [by apply Hdt|by eexists|idtac].
    exists w'. by rewrite Hw'.
  - destruct (t_dragitem target) as [x|] eqn:Htx; [|by exists w].
    destruct (Hitem x eq_refl) as (c & col & [= <-] & Hcol & Hx).
    destruct (getMultimode_Some i e droptarget col Hcol) as [mm ->].
    cbn [mbind option_bind].
    destruct (doSelectionThing_world this droptarget col x mm w)
      as (w' & Hw' & HW' & _); try done; [|by exists w'].
    fold i. apply andb_false_iff in Hcond as [Hlen|Hown].
    + left. apply (sel_owner i (proj2 Hinv)).
      destruct (selection_dragitems i); [done|]. by cbn in Hlen.
    + apply orb_false_iff in Hown as [Hown _].
      apply negb_false_iff, bool_decide_eq_true in Hown. by right.
Qed.

Lemma on_document_mouseup_world this target w :
  Inv_world w ->
  exists w', on_document_mouseup this target w = Some w' /\ Inv_world w'.
Proof.
  intros HW. unfold on_document_mouseup.
  assert (HW1 : Inv_world (on_instance this (set_touching false) w)).
  { unfold on_instance. pose proof (inv_instances w HW this) as Hinv.
    apply Inv_world_same_selection; [done| |done].
    eapply Inv_frame; [exact Hinv|try done..].
    - apply (reg_target _ (proj1 Hinv)).
    - apply (reg_entered _ (proj1 Hinv)). }
  destruct (t_dragitem target); [by eexists|].
  destruct (match t_droptarget target with Some _ => _ | None => _ end);
    [|by eexists].
  destruct (clear_world this None _ HW1) as (w' & Hw' & _ & _ & HW').
  by exists w'.
Qed.

Lemma on_dragstart_world this e target w :
  Inv_world w -> target_ok (instances w this) target ->
  exists w', on_dragstart this e target w = Some w' /\ Inv_world w'.
Proof.
  intros HW [Hdt Hitem]. unfold on_dragstart.
  set (i := instances w this) in *.
  pose proof (inv_instances w HW this) as Hinv. fold i in Hinv.
  destruct (t_dragitem target) as [x|] eqn:Htx; [|by exists w].
  destruct (t_droptarget target) as [droptarget|] eqn:Htd; [|by exists w].
  destruct (Hitem x eq_refl) as (c & col & [= <-] & Hcol & Hx).
  destruct (match selection_owner i with Some _ => _ | None => _ end)
    eqn:Hown; [by exists w|].
  destruct (aria_disabled (item_attrs i x)); [by exists w|].
  assert (Hsel : exists w1,
    (if decide (drag_state (item_attrs i x) = Some false)
     then multimode ← getMultimode i e droptarget;
          doSelectionThing this droptarget x multimode w
     else Some w) = Some w1 /\
    Inv_world w1 /\ collection (instances w1 this) = collection i).
  { case_decide; [|by exists w].
    destruct (getMultimode_Some i e droptarget col Hcol) as [mm ->].
    cbn [mbind option_bind].
    destruct (doSelectionThing_world this droptarget col x mm w)
      as (w' & Hw' & HW' & Hsame & _); try done; [|by exists w'].
    fold i. destruct (selection_owner i) as [owner|]; [|by left].
    apply negb_false_iff, bool_decide_eq_true in Hown. right. congruence. }
  destruct Hsel as (w1 & -> & HW1 & Hc1). cbn [mbind option_bind].
  destruct (activeUpdate_Inv (Some droptarget) (Some x) (instances w1 this))
    as (i' & -> & Hinv' & Hs & _).
  { apply HW1. }
  { intros c' [= <-]. rewrite Hc1. by eexists. }
  cbn [mbind option_bind]. eexists. split; [done|].
  by apply Inv_world_same_selection.
Qed.

Lemma on_drop_world this w :
  let i := instances w this in
  Inv_world w -> is_Some (dragenter i) ->
  (is_Some (selection_droptarget i) -> is_Some (selection_owner i)) ->
  exists w', on_drop this w = Some w' /\ Inv_world w'.
Proof.
  intros i HW [entered He] Hstale. unfold on_drop. fold i. rewrite He.
  cbn [mbind option_bind].
  pose proof (inv_instances w HW this) as Hinv. fold i in Hinv.
  set (i1 := set_selection_nodesort (negb (t_sorted entered)) i).
  set (i2 := if t_sorted entered
             then match selection_droptarget i1 with
                  | None => set_selection_droptarget (selection_owner i1) i1
                  | Some _ => i1
                  end
             else i1).
  assert (Hframe : selection_dragitems i2 = selection_dragitems i /\
                   selection_owner i2 = selection_owner i /\
                   collection i2 = collection i /\
                   observing i2 = observing i /\
                   dom_items i2 = dom_items i /\
                   item_attrs i2 = item_attrs i /\
                   target_attrs i2 = target_attrs i /\
                   dragenter i2 = dragenter i).
  { unfold i2. destruct (t_sorted entered); [|done].
    by destruct (selection_droptarget i1). }
  destruct Hframe as (Hs & Ho & Hc & Hob & Hd & Hi & Ht & Hen).
  assert (Htarget : forall c, selection_droptarget i2 = Some c ->
            is_Some (collection i !! c) /\ is_Some (selection_owner i)).
  { intros c. unfold i2.
    assert (Hold : selection_droptarget i1 = Some c ->
              is_Some (collection i !! c) /\ is_Some (selection_owner i)).
    { intros Hc1. split; [by apply (reg_target i (proj1 Hinv))|].
      apply Hstale. by eexists. }
    destruct (t_sorted entered); [|done].
    destruct (selection_droptarget i1) eqn:Hdt1.
    { intros Hx. apply Hold. congruence. }
    cbn. intros Hoc. split; [|by eexists].
    destruct (sel_owned i (proj2 Hinv) c Hoc) as (col & Hcol & _).
    by eexists. }
  destruct (selection_droptarget i2) as [c|] eqn:Hdt2.
  - destruct (Htarget c eq_refl) as [Hreg Hown].
    destruct (drop_world this i2 c w) as (w' & Hw' & HW'); try done.
    exists w'. by rewrite Hw'.
  - unfold doDropThing. rewrite instances_set_instance, Hdt2.
    eexists. split; [done|].
    apply Inv_world_same_selection; [done| |done].
    apply (Inv_frame i i2); try done.
    + by rewrite Hdt2.
    + intros en c. rewrite Hen. apply (reg_entered i (proj1 Hinv)).
Qed.

(** **** The keyboard *)

(** The navigation keys lead to a position inside the droptarget. *)
Lemma nextindex_bound keyname activeid l :
  -1 <= nextindex keyname activeid l < Z.of_nat (length l).
Proof.
  unfold nextindex.
  assert (Hentries : forall entry,
            entry ∈ imap (fun n item => (n, item)) l ->
            (entry.1 < length l)%nat).
  { intros entry (n & x & -> & Hn)%elem_of_lookup_imap_1.
    by apply lookup_lt_Some in Hn. }
  assert (Hstart : -1 <= -1 < Z.of_nat (length l) \/ l = [])
    by (destruct l; [by right|left; cbn [length]; lia]).
  destruct Hstart as [Hstart| ->]; [|done].
  match goal with
  | |- context [foldl ?f _ _] =>
      assert (Hfold : forall entries acc,
                (forall entry, entry ∈ entries -> (entry.1 < length l)%nat) ->
                -1 <= acc < Z.of_nat (length l) ->
                -1 <= foldl f acc entries < Z.of_nat (length l))
  end; [|by apply Hfold].
  clear Hentries Hstart.
  induction entries as [|entry entries IH]; intros acc Hentries Hacc;
    [done|].
  cbn [foldl]. apply IH.
  - intros e He. apply Hentries. by right.
  - assert (entry.1 < length l)%nat as Hn by (apply Hentries; by left).
    case_decide; [|done].
    destruct keyname; try done;
      repeat match goal with
             | |- context [if ?b then _ else _] => destruct b eqn:?
             end; lia.
Qed.

Lemma at_index_Some l n :
  0 <= n < Z.of_nat (length l) ->
  exists x, at_index l n = Some x /\ x ∈ l.
Proof.
  intros Hn. unfold at_index.
  destruct (n <? 0) eqn:Hneg; [lia|].
  destruct (lookup_lt_is_Some_2 l (Z.to_nat n)) as [x Hx]; [lia|].
  exists x. split; [done|]. by eapply list_elem_of_lookup_2.
Qed.

Lemma query_activedescendant_elem i droptarget x :
  query_activedescendant i droptarget = Some x -> x ∈ dom_items i droptarget.
Proof.
  unfold query_activedescendant.
  destruct (aria_activedescendant _) as [a|]; [|done]. cbn.
  case_decide; [|done]. by intros [= <-].
Qed.

Lemma owner_null_or_spec i droptarget :
  owner_null_or i droptarget = true <->
  selection_owner i = None \/ selection_owner i = Some droptarget.
Proof.
  unfold owner_null_or. destruct (selection_owner i) as [owner|].
  - rewrite bool_decide_eq_true. split; [intros ->; by right|].
    by intros [[=]|[= ->]].
  - split; [by left|done].
Qed.

Lemma select_all_world this droptarget col w :
  let i := instances w this in
  Inv_world w -> collection i !! droptarget = Some col ->
  selection_owner i = None \/ selection_owner i = Some droptarget ->
  exists w',
    select_all this droptarget (dragitems col) w = Some w' /\ Inv_world w'.
Proof.
  intros i HW Hcol Howner. unfold select_all.
  pose proof (inv_instances w HW this) as [Hreg Hsel]. fold i in Hreg, Hsel.
  destruct (reselect_world this droptarget col (dragitems col) w
              (on_instance this (set_selection_dragitems []) w))
    as (w' & -> & Hi' & HW'); try done.
  - by apply (reg_nodup i Hreg droptarget).
  - fold i.
    replace (filter (fun item => item ∉ dragitems col) (selection_dragitems i))
      with (@nil Item); [apply updates_set_instance|].
    symmetry. apply filter_none. intros x Hx Hnotin. apply Hnotin.
    destruct Howner as [Hnone|Hsome].
    + apply (sel_owner i Hsel) in Hnone. rewrite Hnone in Hx.
      by apply elem_of_nil in Hx.
    + destruct (sel_owned i Hsel droptarget Hsome) as (col' & Hcol' & Hsub).
      assert (col' = col) as -> by congruence. by apply Hsub.
  - cbn [mbind option_bind]. eexists. split; [done|].
    by apply addDragValid_world.
Qed.

Lemma on_keydown_world this e keyname target w :
  Inv_world w -> target_ok (instances w this) target ->
  exists w', on_keydown this e keyname target w = Some w' /\ Inv_world w'.
Proof.
  intros HW [Hdt _]. unfold on_keydown.
  set (i := instances w this) in *.
  pose proof (inv_instances w HW this) as Hinv. fold i in Hinv.
  destruct (t_droptarget target) as [droptarget|] eqn:Htd; [|by exists w].
  destruct (Hdt droptarget eq_refl) as [col Hcol]. cbv zeta.
  generalize (if t_sorted target
              then match keyname with Space => Enter | k => k end
              else keyname). clear keyname. intros keyname.
  destruct (t_sorted target && _); [by exists w|].
  assert (Hselect : forall x multimode,
            x ∈ dragitems col -> owner_null_or i droptarget = true ->
            exists w',
              doSelectionThing this droptarget x multimode w = Some w' /\
              Inv_world w' /\ same_registry i (instances w' this)).
  { intros x mm Hx Hown%owner_null_or_spec.
    by apply (doSelectionThing_world this droptarget col x mm w). }
  assert (Hdrop : forall i',
            selection_dragitems i' = selection_dragitems i ->
            selection_owner i' = selection_owner i ->
            collection i' = collection i -> observing i' = observing i ->
            dom_items i' = dom_items i -> item_attrs i' = item_attrs i ->
            target_attrs i' = target_attrs i -> dragenter i' = dragenter i ->
            selection_droptarget i' = Some droptarget ->
            is_Some (selection_owner i) ->
            exists w',
              fst <$> doDropThing this (set_instance this i' w) = Some w' /\
              Inv_world w').
  { intros i' ? ? ? ? ? ? ? ? ? Hown.
    destruct (drop_world this i' droptarget w) as (w' & Hw' & HW');
      try done; try (by eexists). exists w'. by rewrite Hw'. }
  destruct (getMultimode_Some i e droptarget col Hcol) as [mm Hmm].
  assert (Hspace : exists w',
    match query_activedescendant i droptarget with
    | Some dragitem =>
        let state := drag_state (item_attrs i dragitem) in
        if negb (owner_null_or i droptarget) then Some w
        else if safari_macos (target_attrs i droptarget)
                && bool_decide (state = Some true) then Some w
        else if match keyname with Space => true | _ => false end
                || bool_decide (state = Some false)
        then multimode ← getMultimode i e droptarget;
             doSelectionThing this droptarget dragitem multimode w
        else Some w
    | None => Some w
    end = Some w' /\ Inv_world w').
  { destruct (query_activedescendant i droptarget) as [x|] eqn:Hq;
      [|by exists w].
    apply query_activedescendant_elem in Hq.
    rewrite <- (reg_cache i (proj1 Hinv) droptarget col Hcol) in Hq.
    cbv zeta. destruct (owner_null_or i droptarget) eqn:Hown;
      [|by exists w]. cbn [negb].
    destruct (safari_macos _ && _); [by exists w|].
    destruct (_ || _); [|by exists w]. rewrite Hmm. cbn [mbind option_bind].
    destruct (Hselect x mm Hq eq_refl) as (w' & Hw' & HW' & _).
    by exists w'. }
  assert (Hmove : forall next, next ∈ dragitems col ->
    exists w',
      (if mm =? 2 then
         if owner_null_or i droptarget then
           i ← activeUpdate (Some droptarget) (Some next) i;
           doSelectionThing this droptarget next 2 (set_instance this i w)
         else Some w
       else
         w ← (if owner_null_or i droptarget
                 && (safari_macos (target_attrs i droptarget)
                     || (multimode col =? 0))
              then doSelectionThing this droptarget next 0 w
              else Some w);
         i ← activeUpdate (Some droptarget) (Some next) (instances w this);
         Some (set_instance this i w)) = Some w' /\ Inv_world w').
  { intros next Hnext. destruct (mm =? 2).
    - destruct (owner_null_or i droptarget) eqn:Hown; [|by exists w].
      destruct (activeUpdate_Inv (Some droptarget) (Some next) i)
        as (i' & -> & Hinv' & Hs' & Ho' & Hc' & _); [done| |].
      { intros c [= <-]. by eexists. }
      cbn [mbind option_bind].
      destruct (doSelectionThing_world this droptarget col next 2
                  (set_instance this i' w)) as (w' & Hw' & HW' & _).
      + by apply Inv_world_same_selection.
      + rewrite instances_set_instance. congruence.
      + done.
      + rewrite instances_set_instance, Ho'. by apply owner_null_or_spec.
      + by exists w'.
    - assert (Hfirst : exists w1,
        (if owner_null_or i droptarget
            && (safari_macos (target_attrs i droptarget)
                || (multimode col =? 0))
         then doSelectionThing this droptarget next 0 w
         else Some w) = Some w1 /\
        Inv_world w1 /\ collection (instances w1 this) = collection i).
      { destruct (owner_null_or i droptarget) eqn:Hown; [|by exists w].
        destruct (_ || _); [|by exists w]. cbn [andb].
        destruct (Hselect next 0 Hnext eq_refl) as (w1 & Hw1 & HW1 & Hc1 & _).
        by exists w1. }
      destruct Hfirst as (w1 & -> & HW1 & Hc1). cbn [mbind option_bind].
      destruct (activeUpdate_Inv (Some droptarget) (Some next)
                  (instances w1 this)) as (i' & -> & Hinv' & Hs' & _).
      { apply HW1. }
      { intros c [= <-]. rewrite Hc1. by eexists. }
      cbn [mbind option_bind]. eexists. split; [done|].
      by apply Inv_world_same_selection. }
  assert (Hpaste : exists w',
    match selection_owner i with
    | Some owner =>
        if decide (droptarget = owner) then Some w
        else
          let i := set_selection_droptarget (Some droptarget) i in
          fst <$> doDropThing this (set_instance this i w)
    | None => Some w
    end = Some w' /\ Inv_world w').
  { destruct (selection_owner i) as [owner|] eqn:Ho; [|by exists w].
    case_decide; [by exists w|]. cbv zeta. apply Hdrop; done. }
  assert (Hsort : exists w',
    match selection_owner i with
    | Some _ =>
        if data_drag_sorted i droptarget then
          let i := set_selection_nodesort false i in
          let i := set_selection_droptarget (Some droptarget) i in
          fst <$> doDropThing this (set_instance this i w)
        else Some w
    | None => Some w
    end = Some w' /\ Inv_world w').
  { destruct (selection_owner i) as [owner|] eqn:Ho; [|by exists w].
    destruct (data_drag_sorted i droptarget); [|by exists w].
    cbv zeta. apply Hdrop; done. }
  destruct (t_sorted target); destruct keyname.
  all: try (destruct (negb (ctrlKey e || metaKey e)); [by exists w|]).
  all: try exact Hspace.
  all: cbn [negb].
  all: try exact Hpaste.
  all: try exact Hsort.
  all: try (destruct (safari_macos _ && _); [by exists w|]).
  all: rewrite Hcol; cbn [mbind option_bind].
  all: try (destruct (multimode col =? 0); [by exists w|];
            destruct (query_activedescendant i droptarget); [|by exists w];
            destruct (owner_null_or i droptarget) eqn:Hown; [|by exists w];
            destruct (_ <? _)%nat; [|by exists w]; cbn [andb];
            apply select_all_world; [done..|]; by apply owner_null_or_spec).
  all: match goal with
       | |- context [nextindex ?k ?a ?l] =>
           pose proof (nextindex_bound k a l) as Hb;
           destruct (nextindex k a l <? 0) eqn:Hn; [by exists w|];
           destruct (at_index_Some l (nextindex k a l))
             as (next & -> & Hnext); [lia|]
       end.
  all: cbn [mbind option_bind]; rewrite Hmm; cbn [mbind option_bind].
  all: by apply Hmove.
Qed.

(** **** The observer *)

Lemma on_mutation_world this droptarget items w :
  let i := instances w this in
  Inv_world w -> observing i = true ->
  is_Some (collection i !! droptarget) -> NoDup items ->
  (forall c col x, collection i !! c = Some col -> c <> droptarget ->
     x ∈ dragitems col -> x ∉ items) ->
  exists w', on_mutation this droptarget items true true w = Some w' /\
             Inv_world w'.
Proof.
  intros i HW Hobs [col Hcol] Hnd Hapart. unfold on_mutation. fold i.
  cbn [observing set_dom_items]. rewrite Hobs. cbn [andb].
  pose proof (inv_instances w HW this) as [Hreg Hsel]. fold i in Hreg, Hsel.
  destruct Hreg as [Rc Rn Rd Ra Rt Re].
  destruct Hsel as [So Sd Sn Ss Sb Se].
  pose proof (proj1 Sb Hobs) as Hempty.
  set (i1 := set_dom_items (<[droptarget := items]> (dom_items i)) i).
  assert (Hdom1 : dom_items i1 droptarget = items)
    by apply fn_lookup_insert.
  destruct (rebuild_spec droptarget (query_activedescendant i1 droptarget)
              i1 col)
    as (i' & mm & -> & Hc' & Ha' & Ht' & Hact' & Hd' & Hs' & Ho' & Hdt'
        & _ & _ & He' & Hob'); [done| |].
  { intros a. apply query_activedescendant_elem. }
  cbn [mbind option_bind]. eexists. split; [done|].
  rewrite Hdom1 in *.
  apply Inv_world_same_selection; [done| |done].
  assert (Hlook : forall c col',
            collection i' !! c = Some col' ->
            (c = droptarget /\ dragitems col' = items) \/
            (c <> droptarget /\ collection i !! c = Some col')).
  { intros c col'. rewrite Hc'. destruct (decide (c = droptarget)) as [->|Hc].
    - rewrite lookup_insert_eq. intros [= <-]. by left.
    - rewrite lookup_insert_ne by done. by right. }
  assert (Hsome : forall c, is_Some (collection i !! c) ->
                            is_Some (collection i' !! c)).
  { intros c. rewrite Hc', lookup_insert_is_Some'. by right. }
  pose proof (proj1 So Hempty) as Hnone.
  change (selection_dragitems i1) with (selection_dragitems i) in *.
  change (selection_owner i1) with (selection_owner i) in *.
  change (observing i1) with (observing i) in *.
  split; split; rewrite ?Hs', ?Ho', ?Hob', ?Hempty, ?Hnone; try done.
  - intros c col' [[-> Hitems]|[Hc Hcol']]%Hlook; rewrite Hd'.
    + by rewrite Hdom1.
    + unfold i1. cbn. rewrite fn_lookup_insert_ne by done. by apply Rc.
  - intros c col' [[-> Hitems]|[Hc Hcol']]%Hlook.
    + by rewrite Hitems.
    + by apply (Rn c).
  - intros c1 c2 col1 col2 x [[-> H1]|[Hc1 Hcol1]]%Hlook
                             [[-> H2]|[Hc2 Hcol2]]%Hlook; try done.
    + rewrite H1. intros Hx1 Hx2. by destruct (Hapart c2 col2 x).
    + rewrite H2. intros Hx1 Hx2. by destruct (Hapart c1 col1 x).
    + by apply Rd.
  - intros c col' [[-> Hitems]|[Hc Hcol']]%Hlook Hne.
    + rewrite Hitems in *. destruct (Hact' Hne) as (a & Ha & Hact & Hlast).
      split; by exists a.
    + rewrite Ht' by done. by apply Ra.
  - intros c. rewrite Hdt'. intros Hc. by apply Hsome, Rt.
  - intros entered c. rewrite He'. intros H1 H2.
    by apply Hsome, (Re entered).
  - constructor.
  - intros c col' x Hcol' Hx. split; [|by intros ?%elem_of_nil].
    intros Hst. exfalso. rewrite Ha' in Hst.
    destruct (decide (x ∈ items)) as [Hin|Hnotin].
    + by rewrite (foldl_alter_in _ drag_state) in Hst.
    + rewrite foldl_alter_notin in Hst by done.
      apply Hlook in Hcol' as [[-> Hitems]|[Hc Hcol']];
        [by rewrite Hitems in Hx|].
      apply (Ss c col' x Hcol' Hx) in Hst. rewrite Hempty in Hst.
      by apply elem_of_nil in Hst.
  - by intros x ?%elem_of_nil.
Qed.

(** **** Reachable pages *)

Lemma initial_Inv_world w : initial_world w -> Inv_world w.
Proof.
  intros [Hinit Hd]. split.
  - intros k. destruct (Hinit k) as [Hs Ho Hdt Hn He Hob Hreg Hst].
    split; [done|]. split; rewrite ?Hs, ?Ho; try done.
    + constructor.
    + intros c col x Hcol Hx. rewrite (Hst c col x Hcol Hx).
      split; [done|by intros ?%elem_of_nil].
    + by intros x ?%elem_of_nil.
  - by rewrite Hd.
  - intros k Hne. by destruct (Hinit k) as [Hs _ _ _ _ _ _ _].
Qed.

(** Every listener runs to its end on an event the page can deliver, and
    leaves the page in order. *)
Lemma listener_world this ev w :
  Inv_world w -> event_ok this ev w ->
  exists w', listener this ev w = Some w' /\ Inv_world w'.
Proof.
  intros HW Hok. destruct ev; cbn [listener event_ok] in *.
  - by apply on_touch_world.
  - by apply on_mousedown_world.
  - by apply on_mouseup_world.
  - by apply on_document_mouseup_world.
  - by apply on_dragstart_world.
  - by apply on_dragenter_world.
  - by apply on_dragleave_world.
  - destruct Hok. by apply on_drop_world.
  - by apply on_keydown_world.
  - by apply on_escape_world.
  - destruct Hok as (? & -> & -> & ? & ? & ?). by apply on_mutation_world.
Qed.

Lemma reachable_Inv_world w : reachable w -> Inv_world w.
Proof.
  induction 1 as [w Hinit|w this ev w' _ IH Hok Hrun].
  - by apply initial_Inv_world.
  - destruct (listener_world this ev w IH Hok) as (w'' & Hw'' & HW'').
    congruence.
Qed.

(** **** The page with two instances *)

Lemma run_reachable events :
  forall w, reachable w -> run_ok events w ->
            exists w', run events w = Some w' /\ reachable w'.
Proof.
  induction events as [|ev events IH]; intros w Hw Hok.
  - by exists w.
  - destruct Hok as [Hev Hrest].
    destruct (listener_world ev.1 ev.2 w) as (w1 & Hw1 & _);
      [by apply reachable_Inv_world|done|].
    destruct (IH w1) as (w' & Hw' & Hreach).
    + by eapply reachable_step.
    + by apply Hrest.
    + exists w'. split; [|done]. unfold run in *. cbn [forEach].
      by rewrite Hw1.
Qed.

Lemma page_collection_lookup c col :
  page_collection !! c = Some col ->
  (c = 10%nat /\ col = mkCollection [1; 2; 3; 4]%nat false (-1)) \/
  (c = 20%nat /\ col = mkCollection [5; 6; 7]%nat false (-1)).
Proof.
  unfold page_collection. rewrite !lookup_insert_Some, lookup_empty.
  intros [[H1 H2]|[_ [[H1 H2]|[_ [=]]]]]; subst; [by left|by right].
Qed.

Lemma page_initial : initial_world page.
Proof.
  split; [|done]. intros k. cbn [instances page].
  split; try done.
  - split; try done.
    + by intros c col [[-> ->]|[-> ->]]%page_collection_lookup.
    + intros c col [[-> ->]|[-> ->]]%page_collection_lookup;
        cbn [dragitems]; by apply (bool_decide_unpack _).
    + intros c1 c2 col1 col2 x [[-> ->]|[-> ->]]%page_collection_lookup
                                [[-> ->]|[-> ->]]%page_collection_lookup;
        cbn [dragitems]; try done; rewrite !list_elem_of_In; simpl; lia.
    + intros c col [[-> ->]|[-> ->]]%page_collection_lookup _;
        cbn [dragitems]; split; eexists; (split; [done|by left]).
Qed.

Lemma page_reachable : reachable page.
Proof. apply reachable_initial, page_initial. Qed.

(** Events on the page are checked by evaluation. *)
Ltac solve_elem_of := rewrite list_elem_of_In; simpl; tauto.

Ltac solve_target_ok :=
  split;
  [ intros ? [= <-]; eexists; vm_compute; reflexivity
  | first
      [ by intros ? [=]
      | intros ? [= <-]; eexists _, _;
        split; [reflexivity|split; [vm_compute; reflexivity|solve_elem_of]] ] ].

Ltac solve_event_ok :=
  lazymatch goal with
  | |- event_ok _ Touch _ => exact I
  | |- event_ok _ Escape _ => exact I
  | |- event_ok _ DragLeave _ => intros _; eexists; vm_compute; reflexivity
  | |- event_ok _ Drop _ =>
      split; [eexists; vm_compute; reflexivity
             |intros _; eexists; vm_compute; reflexivity]
  | |- event_ok _ _ _ => cbn [event_ok fst snd]; solve_target_ok
  end.

Ltac solve_run_ok :=
  repeat (split;
          [ cbn [fst snd]; solve_event_ok
          | let w' := fresh "w" in
            let Hw' := fresh "Hw" in
            intros w' Hw'; vm_compute in Hw'; injection Hw' as <- ]);
  exact I.

Lemma selected_page_reachable : reachable selected_page.
Proof.
  destruct (run_reachable selected_events page page_reachable)
    as (w' & Hw' & Hreach); [cbn [run_ok selected_events]; solve_run_ok|].
  unfold selected_page. by rewrite Hw'.
Qed.



(** The witness is about a page on which an item is selected. *)
Example selected_page_selection :
  selection_dragitems (instances selected_page 0) = [3%nat] /\
  selection_owner (instances selected_page 0) = Some 10%nat /\
  draginstance selected_page = Some 0%nat.
Proof. by vm_compute. Qed.

(** C10. In every reachable state the selection array of an instance has
    no duplicates. The listeners keep it so although [#addSelection]
    appends without looking ([addSelection_appends] below): range selection
    and select-all take the items out of the array before they pass them
    to it ([reselect_world]), and the other callers add an item whose
    selection state is not ['true'], which by the invariant is not in the
    array ([not_selected_by_state], [add_world]). *)
Theorem selection_has_no_duplicates (w : World) (this : nat) :
  reachable w -> NoDup (selection_dragitems (instances w this)).
Proof.
  intros Hreach. apply reachable_Inv_world in Hreach.
  apply (sel_nodup _ (proj2 (inv_instances w Hreach this))).
Qed.

Lemma selection_has_no_duplicates_witness :
  NoDup (selection_dragitems (instances selected_page 0)).
Proof.
  exact (selection_has_no_duplicates selected_page 0 selected_page_reachable).
Defined.

(** [#addSelection] itself appends without looking: called directly for
    the item that is selected already, it lists the item twice. *)
Example addSelection_appends :
  (w ← addSelection 0 3 10 selected_page;
   Some (selection_dragitems (instances w 0))) = Some [3; 3]%nat.
Proof. by vm_compute. Qed.

(** **** Exclusive selection *)

Lemma evicted_aria_disabled i y :
  aria_disabled (item_attrs (evicted i) y)
  = aria_disabled (item_attrs (clearDragValid i) y).
Proof.
  unfold evicted, cleared.
  destruct (selection_dragitems (clearDragValid i)); [done|].
  cbn [item_attrs]. by apply (foldl_alter_proj _ aria_disabled).
Qed.

(** C5 (as stated, refuted). On the page where item 3 is the selection,
    the exclusive selection action on item 4, which is disabled, does not
    leave exactly item 4 selected: it leaves nothing selected. *)
Lemma exclusive_action_on_disabled_item :
  selection_dragitems (instances selected_page 0) = [3%nat] /\
  exists w',
    doSelectionThing 0 10 4 0 selected_page = Some w' /\
    selection_dragitems (instances w' 0) = [] /\
    selection_dragitems (instances w' 0) <> [4%nat].
Proof.
  split; [by vm_compute|]. eexists. split; [vm_compute; reflexivity|].
  by vm_compute.
Qed.

(** C5 (amended). Under the exclusive multimode (any multimode other than
    1 and 2), the selection action on a dragitem X of a registered
    droptarget clears the selection if X is the sole selected item; in any
    other case it clears the old selection and leaves exactly X selected,
    unless X is disabled (once the marking of valid targets is cleared), in
    which case nothing is left selected. *)
Theorem exclusive_toggle (this : nat) (droptarget : Droptarget)
    (col : Collection) (X : Item) (multimode : Z) (w : World) :
  Inv_world w ->
  collection (instances w this) !! droptarget = Some col ->
  X ∈ dragitems col ->
  multimode <> 2 -> multimode <> 1 ->
  exists w',
    doSelectionThing this droptarget X multimode w = Some w' /\
    selection_dragitems (instances w' this)
    = if decide (selection_dragitems (instances w this) = [X]) then []
      else if aria_disabled (item_attrs (clearDragValid (instances w this)) X)
           then [] else [X].
Proof.
  intros HW Hcol HX Hm2 Hm1. unfold doSelectionThing.
  rewrite (proj2 (Z.eqb_neq _ _) Hm2), (proj2 (Z.eqb_neq _ _) Hm1).
  set (i := instances w this) in *.
  destruct (clear_world this None w HW) as (w1 & -> & Hi1 & _ & HW1).
  fold i in Hi1. cbn [mbind option_bind].
  assert (Hsingle :
    (length (selection_dragitems i) =? 1)%nat
    && bool_decide (X ∈ selection_dragitems i)
    = bool_decide (selection_dragitems i = [X])).
  { destruct (selection_dragitems i) as [|y [|z l]]; cbn.
    - symmetry. by apply bool_decide_eq_false_2.
    - apply bool_decide_ext. rewrite list_elem_of_singleton.
      split; [by intros ->|by intros [= ->]].
    - symmetry. by apply bool_decide_eq_false_2. }
  rewrite Hsingle. clear Hsingle.
  destruct (decide (selection_dragitems i = [X])) as [Hs|Hs].
  - rewrite bool_decide_eq_true_2 by done. cbn [negb].
    eexists. split; [done|]. by rewrite Hi1, evicted_selection.
  - rewrite bool_decide_eq_false_2 by done. cbn [negb].
    rewrite <- evicted_aria_disabled, <- Hi1.
    destruct (aria_disabled (item_attrs (instances w1 this) X)) eqn:Hdis.
    + rewrite addSelection_rejected by (by left).
      cbn [mbind option_bind]. eexists. split; [done|].
      rewrite instances_on_instance.
      destruct (addDragValid_if_selected_same (instances w1 this)) as [-> _].
      by rewrite Hi1, evicted_selection.
    + destruct (add_world this droptarget col X w1)
        as (w2 & -> & Hi2 & HW2); try done.
      * rewrite Hi1. by destruct (evicted_same_registry i) as [-> _].
      * left. rewrite Hi1.
        apply (sel_owner _ (proj2 (evicted_Inv i (inv_instances w HW this)))).
        apply evicted_selection.
      * rewrite Hi1, evicted_selection. apply not_elem_of_nil.
      * cbn [mbind option_bind]. eexists. split; [done|].
        rewrite instances_on_instance.
        destruct (addDragValid_if_selected_same (instances w2 this))
          as [-> _].
        rewrite Hi2, reselected_selection, Hi1, evicted_selection.
        unfold enabled. rewrite <- Hi1.
        by rewrite filter_cons_True, filter_nil by done.
Qed.

Lemma exclusive_toggle_witness :
  exists w',
    doSelectionThing 0 10 2 0 selected_page = Some w' /\
    selection_dragitems (instances w' 0) = [2%nat].
Proof.
  destruct (exclusive_toggle 0 10 (mkCollection [1; 2; 3; 4]%nat false (-1))
              2 0 selected_page) as (w' & Hw' & Hsel).
  - exact (reachable_Inv_world _ selected_page_reachable).
  - vm_compute. reflexivity.
  - right. left.
  - lia.
  - lia.
  - exists w'. split; [exact Hw'|]. rewrite Hsel. vm_compute. reflexivity.
Defined.

(** **** The drag instance *)

(** C6. When instance B selects an item (one that is not disabled)
    while [#draginstance] is another instance A, the selection of A is
    cleared before B takes [#draginstance]: once B has pushed the item,
    the call clears the marking and the selection of A, which leaves the
    page [wmid] with A's selection empty, A's owner reset and
    [#draginstance] released by A; only then is [#draginstance] pointed at
    B, and that is all that is left of B's call. *)
Theorem arbiter_eviction (A B : nat) (x : Item) (owner : Droptarget)
    (w : World) :
  Inv_world w -> draginstance w = Some A -> A <> B ->
  aria_disabled (item_attrs (instances w B) x) = false ->
  exists wmid,
    clearSelections A None
      (on_instance A clearDragValid
         (set_instance B (selected [x] owner (instances w B)) w))
    = Some wmid /\
    addSelection B x owner w = Some (set_draginstance (Some B) wmid) /\
    selection_dragitems (instances wmid A) = [] /\
    selection_owner (instances wmid A) = None /\
    draginstance wmid = None /\
    selection_dragitems (instances wmid B) = [x] /\
    selection_owner (instances wmid B) = Some owner /\
    draginstance (set_draginstance (Some B) wmid) = Some B.
Proof.
  intros HW Hd Hne Hen.
  assert (HA : selection_dragitems (instances w A) <> [])
    by (by apply (inv_holder w HW)).
  assert (HB : selection_dragitems (instances w B) = []).
  { destruct (selection_dragitems (instances w B)) eqn:Hs; [done|].
    assert (draginstance w = Some B)
      by (apply (inv_exclusive w HW); by rewrite Hs).
    congruence. }
  assert (HBo : selection_owner (instances w B) = None)
    by (by apply (sel_owner _ (proj2 (inv_instances w HW B)))).
  destruct (Inv_evictable (instances w A) (inv_instances w HW A) HA)
    as [[o Ho] Hin].
  unfold addSelection. rewrite Hen, HBo.
  change (set_observing false _) with (selected [x] owner (instances w B)).
  set (b := selected [x] owner (instances w B)).
  cbn [draginstance set_instance]. rewrite Hd, decide_False by done.
  set (w2 := on_instance A clearDragValid (set_instance B b w)).
  assert (Hw2 : instances w2 A = clearDragValid (instances w A)).
  { subst w2. unfold on_instance.
    by rewrite instances_set_instance, instances_set_instance_ne. }
  destruct (clearDragValid_same (instances w A))
    as (Hs & Hso & _ & _ & Hc & _ & _ & _ & Hdom & _).
  destruct (clearSelections_updates A None w2) as (wmid & Hwmid & Hu).
  { rewrite Hw2, Hs, Hso. intros _. split; [right; by eexists|].
    intros y Hy. eapply inside_droptarget_same; [done..|by apply Hin]. }
  rewrite Hw2, Hso, Ho. cbn [mbind option_bind].
  rewrite Hwmid. cbn [mbind option_bind].
  exists wmid. split; [done|]. split; [done|].
  destruct Hu as (HiA & Hk & Hdmid). rewrite Hw2 in HiA, Hdmid.
  rewrite Hs in Hdmid.
  assert (HiB : instances wmid B = b).
  { rewrite Hk by done. subst w2. unfold on_instance.
    rewrite instances_set_instance_ne by done.
    apply instances_set_instance. }
  split; [rewrite HiA; apply cleared_selection|].
  split.
  { rewrite HiA. unfold cleared. rewrite Hs.
    by destruct (selection_dragitems (instances w A)). }
  split; [by destruct (selection_dragitems (instances w A))|].
  rewrite HiB. subst b. cbn. by rewrite HB.
Qed.

Lemma arbiter_eviction_witness :
  exists wmid,
    clearSelections 0 None
      (on_instance 0 clearDragValid
         (set_instance 1 (selected [2%nat] 10 (instances selected_page 1))
            selected_page))
    = Some wmid /\
    addSelection 1 2 10 selected_page
    = Some (set_draginstance (Some 1%nat) wmid) /\
    selection_dragitems (instances wmid 0) = [] /\
    selection_owner (instances wmid 0) = None /\
    draginstance wmid = None /\
    selection_dragitems (instances wmid 1) = [2%nat] /\
    selection_owner (instances wmid 1) = Some 10%nat /\
    draginstance (set_draginstance (Some 1%nat) wmid) = Some 1%nat.
Proof.
  apply (arbiter_eviction 0 1 2 10 selected_page).
  - exact (reachable_Inv_world _ selected_page_reachable).
  - vm_compute. reflexivity.
  - discriminate.
  - vm_compute. reflexivity.
Defined.

(** **** The result of a drop *)

(** Without a pending drop target, [#doDropThing] returns false and
    changes nothing. *)
Lemma doDropThing_unset this w :
  selection_droptarget (instances w this) = None ->
  doDropThing this w = Some (w, false).
Proof. intros Hdt. unfold doDropThing. by rewrite Hdt. Qed.

(** Whenever [#doDropThing] returns, it returns false exactly when no
    drop target was pending, and then the page is as it was. *)
Lemma doDropThing_returns this w w' result :
  doDropThing this w = Some (w', result) ->
  (result = false <-> selection_droptarget (instances w this) = None) /\
  (result = false -> w' = w).
Proof.
  unfold doDropThing.
  destruct (selection_droptarget (instances w this)) as [droptarget|];
    [|by intros [= <- <-]].
  intros Hrun. assert (result = true) as ->; [|done].
  repeat match type of Hrun with
         | (?m ≫= _) = Some _ =>
             destruct m; cbn [mbind option_bind] in Hrun; [|done]
         end.
  by injection Hrun as _ <-.
Qed.


Lemma stale_page_reachable : reachable stale_page.
Proof.
  destruct (run_reachable stale_events page page_reachable)
    as (w' & Hw' & Hreach); [cbn [run_ok stale_events]; solve_run_ok|].
  unfold stale_page. by rewrite Hw'.
Qed.

(** C8 (the code departs from it). On the reachable page [stale_page] a
    drop target is pending although nothing is selected and no owner is
    set; there [#doDropThing] neither returns true nor false but raises
    (it reads [this.#selection.owner.id] of the null owner), and so does
    the [drop] listener. *)
Theorem drop_with_stale_target_raises :
  reachable stale_page /\
  selection_droptarget (instances stale_page 0) = Some 20%nat /\
  selection_owner (instances stale_page 0) = None /\
  selection_dragitems (instances stale_page 0) = [] /\
  doDropThing 0 stale_page = None /\
  listener 0 Drop stale_page = None.
Proof.
  split; [exact stale_page_reachable|]. by vm_compute.
Qed.

(** **** The order of a transfer *)

(** C3. A drop of the selection [C; A] (in the order of selecting) from
    an owner whose dragitems are [A; B; C] into another droptarget returns
    true and appends [A; C] to the dragitems of the droptarget when the
    order policy [nodesort] is node order, and [C; A] when it is selection
    order; B is what the owner keeps, and [#collection] caches both
    lists. *)
Theorem transfer_order (this : nat) (droptarget owner : Droptarget)
    (ownercol : Collection) (A B C : Item) (w : World) :
  Inv_world w ->
  selection_droptarget (instances w this) = Some droptarget ->
  selection_owner (instances w this) = Some owner ->
  droptarget <> owner ->
  collection (instances w this) !! owner = Some ownercol ->
  dragitems ownercol = [A; B; C] ->
  selection_dragitems (instances w this) = [C; A] ->
  exists w' appended,
    doDropThing this w = Some (w', true) /\
    appended = (if selection_nodesort (instances w this)
                then [A; C] else [C; A]) /\
    dom_items (instances w' this) droptarget
    = dom_items (instances w this) droptarget ++ appended /\
    dom_items (instances w' this) owner = [B] /\
    (exists col, collection (instances w' this) !! droptarget = Some col /\
                 dragitems col
                 = dom_items (instances w this) droptarget ++ appended) /\
    (exists col, collection (instances w' this) !! owner = Some col /\
                 dragitems col = [B]).
Proof.
  intros HW Hdt Ho Hne Hocol Hitems Hsel.
  set (i := instances w this) in *.
  pose proof (inv_instances w HW this) as [Hreg Hselok]. fold i in Hreg, Hselok.
  pose proof (reg_nodup i Hreg owner ownercol Hocol) as Hnd.
  rewrite Hitems in Hnd.
  apply NoDup_cons in Hnd as [HA Hnd]. apply NoDup_cons in Hnd as [HB _].
  assert (HAB : A <> B) by (intros ->; apply HA; by left).
  assert (HAC : A <> C) by (intros ->; apply HA; right; by left).
  assert (HBC : B <> C) by (intros ->; apply HB; by left).
  assert (Happ : appendages i ownercol
                 = if selection_nodesort i then [A; C] else [C; A]).
  { unfold appendages. rewrite Hsel, Hitems.
    destruct (selection_nodesort i); [|done].
    rewrite filter_cons_True by (right; by left).
    rewrite filter_cons_False
      by (rewrite !not_elem_of_cons; split_and!;
          [congruence|congruence|apply not_elem_of_nil]).
    by rewrite filter_cons_True by by left. }
  assert (Hin : forall x, x ∈ appendages i ownercol <-> x = A \/ x = C).
  { intros x. rewrite Happ.
    destruct (selection_nodesort i);
      rewrite !elem_of_cons, elem_of_nil; tauto. }
  destruct (doDropThing_world this droptarget owner ownercol w)
    as (w' & Hw' & HW' & _ & _ & _ & Hdom & Hsome & _); try done.
  fold i in Hdom, Hsome.
  destruct (reg_target i Hreg droptarget Hdt) as [dtcol Hdtcol].
  assert (Hd1 : dom_items (instances w' this) droptarget
                = dom_items i droptarget ++ appendages i ownercol).
  { rewrite Hdom. unfold dropped_dom. rewrite decide_True by done.
    f_equal. apply filter_all. intros x Hx Hxa. apply Hne.
    rewrite <- (reg_cache i Hreg droptarget dtcol Hdtcol) in Hx.
    apply (reg_disjoint i Hreg droptarget owner dtcol ownercol x);
      try done.
    rewrite Hitems, !elem_of_cons. apply Hin in Hxa. tauto. }
  assert (Hd2 : dom_items (instances w' this) owner = [B]).
  { rewrite Hdom. unfold dropped_dom.
    rewrite decide_False by done.
    rewrite <- (reg_cache i Hreg owner ownercol Hocol), Hitems.
    rewrite filter_cons_False by (rewrite Hin; tauto).
    rewrite filter_cons_True
      by (rewrite Hin; intros [?|?]; congruence).
    by rewrite filter_cons_False by (rewrite Hin; tauto). }
  pose proof (reg_cache _ (proj1 (inv_instances w' HW' this))) as Hcache.
  exists w', (appendages i ownercol).
  split; [done|]. split; [done|]. split; [done|]. split; [done|].
  split.
  - destruct (proj2 (Hsome droptarget)) as [col Hcol]; [by eexists|].
    exists col. split; [done|]. by rewrite (Hcache droptarget col Hcol).
  - destruct (proj2 (Hsome owner)) as [col Hcol]; [by eexists|].
    exists col. split; [done|]. by rewrite (Hcache owner col Hcol).
Qed.

Lemma transfer_page_reachable : reachable transfer_page.
Proof.
  destruct (run_reachable transfer_events page page_reachable)
    as (w' & Hw' & Hreach); [cbn [run_ok transfer_events]; solve_run_ok|].
  unfold transfer_page. by rewrite Hw'.
Qed.

Lemma transfer_order_witness :
  exists w',
    doDropThing 0 transfer_page = Some (w', true) /\
    dom_items (instances w' 0) 10 = [1; 2; 3; 4; 5; 7]%nat /\
    dom_items (instances w' 0) 20 = [6%nat].
Proof.
  destruct (transfer_order 0 10 20 (mkCollection [5; 6; 7]%nat false (-1))
              5 6 7 transfer_page)
    as (w' & appended & Hw' & -> & Hd1 & Hd2 & _).
  - exact (reachable_Inv_world _ transfer_page_reachable).
  - vm_compute. reflexivity.
  - vm_compute. reflexivity.
  - discriminate.
  - vm_compute. reflexivity.
  - reflexivity.
  - vm_compute. reflexivity.
  - exists w'. split; [exact Hw'|]. split; [|exact Hd2].
    rewrite Hd1. vm_compute. reflexivity.
Defined.

(** **** The direction of a range *)

Lemma range_exact this droptarget col last active w :
  let i := instances w this in
  Inv_world w -> collection i !! droptarget = Some col ->
  data_drag_lastdescendant (target_attrs i droptarget) = Some last ->
  aria_activedescendant (target_attrs i droptarget) = Some active ->
  last ∈ dragitems col -> active ∈ dragitems col ->
  selection_owner i = None \/ selection_owner i = Some droptarget ->
  exists w',
    addSelectionRange this droptarget w = Some w' /\
    instances w' this
    = reselected (range_items last active (dragitems col)) droptarget i /\
    Inv_world w'.
Proof.
  intros i HW Hcol Hlast Hactive Hl Ha Howner.
  rewrite (addSelectionRange_eq this droptarget col last active) by done.
  fold i.
  apply (reselect_world this droptarget col
           (range_items last active (dragitems col)) w); try done.
  - intros x. apply range_items_sub.
  - apply range_items_NoDup.
    by apply (reg_nodup i (proj1 (inv_instances w HW this)) droptarget).
  - apply updates_set_instance.
Qed.

Lemma enabled_reselected l owner i l' :
  enabled (reselected l owner i) l' = enabled i l'.
Proof. unfold reselected. by rewrite enabled_selected. Qed.

(** The contiguous selection action on the active descendant, with
    nothing selected outside the range and no disabled item in the range:
    the selection becomes the range, in the order in which the range is
    walked. *)
Lemma contiguous_selects_range this droptarget col last active w :
  let i := instances w this in
  let range := range_items last active (dragitems col) in
  Inv_world w -> collection i !! droptarget = Some col ->
  (forall x, x ∈ selection_dragitems i -> x ∈ range) ->
  data_drag_lastdescendant (target_attrs i droptarget) = Some last ->
  aria_activedescendant (target_attrs i droptarget) = Some active ->
  active ∈ dragitems col -> active ∈ range ->
  (forall x, x ∈ range -> aria_disabled (item_attrs i x) = false) ->
  exists w',
    doSelectionThing this droptarget active 2 w = Some w' /\
    selection_dragitems (instances w' this) = range /\
    selection_owner (instances w' this) = Some droptarget.
Proof.
  intros i range HW Hcol Hinside Hlast Hactive Ha Hrange Hen.
  pose proof (inv_instances w HW this) as [Hreg Hsel]. fold i in Hreg, Hsel.
  assert (Hne : dragitems col <> []).
  { intros Hnil. rewrite Hnil in Ha. by apply elem_of_nil in Ha. }
  assert (Hl : last ∈ dragitems col).
  { destruct (reg_active i Hreg droptarget col Hcol Hne)
      as [_ (l & Hl & Hlin)]. congruence. }
  assert (Howner : selection_owner i = None \/
                   selection_owner i = Some droptarget).
  { destruct (selection_owner i) as [o|] eqn:Ho; [right|by left].
    destruct (sel_owned i Hsel o Ho) as (ocol & Hocol & Hsub).
    destruct (selection_dragitems i) as [|x sel] eqn:Hs.
    - apply (sel_owner i Hsel) in Hs. congruence.
    - f_equal. apply (reg_disjoint i Hreg o droptarget ocol col x);
        try done.
      + apply Hsub. by left.
      + apply (range_items_sub last active). apply Hinside. by left. }
  assert (Hall : enabled i range = range).
  { unfold enabled. by apply filter_all. }
  assert (Hrne : range <> []).
  { intros Hnil. rewrite Hnil in Hrange. by apply elem_of_nil in Hrange. }
  unfold doSelectionThing. cbn [Z.eqb Pos.eqb]. fold i.
  assert (Hfirst : exists w1,
    (if decide (drag_state (item_attrs i active) = Some false)
     then addSelection this active droptarget w else Some w) = Some w1 /\
    Inv_world w1 /\
    (instances w1 this = i \/
     instances w1 this = reselected [active] droptarget i)).
  { case_decide as Hst; [|exists w; by auto].
    destruct (add_world this droptarget col active w)
      as (w1 & Hw1 & Hi1 & HW1); try done.
    - fold i. eapply not_selected_by_state; [done..|]. congruence.
    - exists w1. by auto. }
  destruct Hfirst as (w1 & -> & HW1 & Hi1). cbn [mbind option_bind].
  assert (Hreg1 : same_registry i (instances w1 this)).
  { destruct Hi1 as [-> | ->];
      [apply same_registry_refl|apply reselected_registry]. }
  destruct Hreg1 as (Hc1 & _ & Ht1 & _).
  destruct (range_exact this droptarget col last active w1)
    as (w2 & -> & Hi2 & HW2); rewrite ?Hc1, ?Ht1; try done.
  { destruct Hi1 as [-> | ->]; [done|].
    rewrite reselected_owner. destruct (enabled i [active]); by auto. }
  cbn [mbind option_bind]. eexists. split; [done|].
  rewrite instances_on_instance.
  destruct (addDragValid_if_selected_same (instances w2 this))
    as (-> & -> & _).
  rewrite Hi2, reselected_selection, reselected_owner.
  fold range.
  assert (Hen1 : enabled (instances w1 this) range = range).
  { destruct Hi1 as [-> | ->]; [done|]. by rewrite enabled_reselected. }
  rewrite Hen1. split; [|by destruct range].
  replace (filter (fun item => item ∉ range)
             (selection_dragitems (instances w1 this))) with (@nil Item);
    [done|].
  symmetry. apply filter_none. intros x Hx Hnotin. apply Hnotin.
  destruct Hi1 as [Hi1 | Hi1]; rewrite Hi1 in Hx; [by apply Hinside|].
  rewrite reselected_selection in Hx.
  apply elem_of_app in Hx as [Hx|Hx].
  - apply list_elem_of_filter in Hx as [_ Hx]. by apply Hinside.
  - unfold enabled in Hx. apply list_elem_of_filter in Hx as [_ Hx].
    by apply list_elem_of_singleton in Hx as ->.
Qed.

(** The range from the first to the third of four different items, in
    both directions. *)
Lemma range_items_directions A B C D :
  NoDup [A; B; C; D] ->
  range_items A C [A; B; C; D] = [A; B; C] /\
  range_items C A [A; B; C; D] = [C; B; A].
Proof.
  intros Hnd.
  apply NoDup_cons in Hnd as [HA Hnd]. apply NoDup_cons in Hnd as [HB _].
  assert (HAC : A <> C) by (intros ->; apply HA; right; by left).
  assert (HBC : B <> C) by (intros ->; apply HB; by left).
  assert (H0 : findIndex A [A; B; C; D] = 0).
  { cbn [findIndex]. by rewrite decide_True. }
  assert (H2 : findIndex C [A; B; C; D] = 2).
  { cbn [findIndex]. rewrite !decide_False by done.
    by rewrite decide_True. }
  unfold range_items. by rewrite H0, H2.
Qed.

Lemma page_with_initial disabled : initial_world (page_with disabled).
Proof.
  split; [|done]. intros k. cbn [instances page_with].
  split; try done.
  apply (registry_ok_same page_instance); try done.
  apply (init_registry _ (proj1 page_initial 0%nat)).
Qed.

Lemma blocked_page_reachable : reachable blocked_page.
Proof.
  destruct (run_reachable ranged_events
              (page_with (fun x => bool_decide (x = 2%nat))))
    as (w' & Hw' & Hreach);
    [apply reachable_initial, page_with_initial
    |cbn [run_ok ranged_events]; solve_run_ok|].
  unfold blocked_page. cbv zeta. by rewrite Hw'.
Qed.

Lemma crowded_page_reachable : reachable crowded_page.
Proof.
  destruct (run_reachable crowded_events (page_with (fun _ => false)))
    as (w' & Hw' & Hreach);
    [apply reachable_initial, page_with_initial
    |cbn [run_ok crowded_events ranged_events]; solve_run_ok|].
  unfold crowded_page. cbv zeta. by rewrite Hw'.
Qed.

(** C4 (as stated, refuted). Droptarget 10 holds the dragitems
    [1; 2; 3; 4], and on both pages below, which are reachable, item 1 is
    its last and item 3 its active descendant. On [blocked_page], where
    item 2 is disabled, the contiguous selection action leaves [1; 3]
    selected: [#addSelection] returns at once for a disabled item. On
    [crowded_page], where item 4 was selected beforehand,
    it leaves [4; 1; 2; 3] selected: [#addSelectionRange] takes only the
    items of the range out of the old selection before it adds them
    again. Neither selection is [1; 2; 3]. *)
Lemma range_selection_keeps_and_skips_items :
  (reachable blocked_page /\
   dragitems <$> collection (instances blocked_page 0) !! 10%nat
   = Some [1; 2; 3; 4]%nat /\
   data_drag_lastdescendant (target_attrs (instances blocked_page 0) 10)
   = Some 1%nat /\
   aria_activedescendant (target_attrs (instances blocked_page 0) 10)
   = Some 3%nat /\
   exists w',
     doSelectionThing 0 10 3 2 blocked_page = Some w' /\
     selection_dragitems (instances w' 0) = [1; 3]%nat /\
     selection_dragitems (instances w' 0) <> [1; 2; 3]%nat) /\
  (reachable crowded_page /\
   dragitems <$> collection (instances crowded_page 0) !! 10%nat
   = Some [1; 2; 3; 4]%nat /\
   data_drag_lastdescendant (target_attrs (instances crowded_page 0) 10)
   = Some 1%nat /\
   aria_activedescendant (target_attrs (instances crowded_page 0) 10)
   = Some 3%nat /\
   exists w',
     doSelectionThing 0 10 3 2 crowded_page = Some w' /\
     selection_dragitems (instances w' 0) = [4; 1; 2; 3]%nat /\
     selection_dragitems (instances w' 0) <> [1; 2; 3]%nat).
Proof.
  split.
  - split; [exact blocked_page_reachable|].
    do 3 (split; [by vm_compute|]).
    eexists. split; [vm_compute; reflexivity|]. by vm_compute.
  - split; [exact crowded_page_reachable|].
    do 3 (split; [by vm_compute|]).
    eexists. split; [vm_compute; reflexivity|]. by vm_compute.
Qed.

(** C4 (amended). In a droptarget whose dragitems are [A; B; C; D], with
    none of A, B, C disabled and nothing selected other than (some of)
    A, B, C:
    with the last descendant A and the active descendant C, the contiguous
    selection action (on the active item) leaves exactly [A; B; C]
    selected, in this order; with the last descendant C and the active
    descendant A it leaves the same items selected in the order
    [C; B; A]. *)
Theorem range_selection_direction (this : nat) (droptarget : Droptarget)
    (col : Collection) (A B C D : Item) (w : World) :
  Inv_world w ->
  collection (instances w this) !! droptarget = Some col ->
  dragitems col = [A; B; C; D] ->
  (forall x, x ∈ selection_dragitems (instances w this) -> x ∈ [A; B; C]) ->
  (forall x, x ∈ [A; B; C] ->
     aria_disabled (item_attrs (instances w this) x) = false) ->
  (data_drag_lastdescendant (target_attrs (instances w this) droptarget)
   = Some A ->
   aria_activedescendant (target_attrs (instances w this) droptarget)
   = Some C ->
   exists w',
     doSelectionThing this droptarget C 2 w = Some w' /\
     selection_dragitems (instances w' this) = [A; B; C]) /\
  (data_drag_lastdescendant (target_attrs (instances w this) droptarget)
   = Some C ->
   aria_activedescendant (target_attrs (instances w this) droptarget)
   = Some A ->
   exists w',
     doSelectionThing this droptarget A 2 w = Some w' /\
     selection_dragitems (instances w' this) = [C; B; A]).
Proof.
  intros HW Hcol Hitems Hinside Hen.
  pose proof (reg_nodup _ (proj1 (inv_instances w HW this)) droptarget col
                Hcol) as Hnd.
  rewrite Hitems in Hnd.
  destruct (range_items_directions A B C D Hnd) as [Hfwd Hbwd].
  split; intros Hlast Hactive.
  - destruct (contiguous_selects_range this droptarget col A C w)
      as (w' & Hw' & Hsel' & _); rewrite ?Hitems, ?Hfwd; try done.
    + right. right. by left.
    + right. right. by left.
    + exists w'. split; [done|]. by rewrite Hsel', Hitems, Hfwd.
  - destruct (contiguous_selects_range this droptarget col C A w)
      as (w' & Hw' & Hsel' & _); rewrite ?Hitems, ?Hbwd; try done.
    + intros x Hx%Hinside. rewrite !elem_of_cons in Hx |- *. tauto.
    + by left.
    + right. right. by left.
    + intros x Hx. apply Hen. rewrite !elem_of_cons in Hx |- *. tauto.
    + exists w'. split; [done|]. by rewrite Hsel', Hitems, Hbwd.
Qed.

Lemma ranged_page_reachable : reachable ranged_page.
Proof.
  destruct (run_reachable ranged_events page page_reachable)
    as (w' & Hw' & Hreach); [cbn [run_ok ranged_events]; solve_run_ok|].
  unfold ranged_page. by rewrite Hw'.
Qed.

Lemma range_selection_direction_witness :
  exists w',
    doSelectionThing 0 10 3 2 ranged_page = Some w' /\
    selection_dragitems (instances w' 0) = [1; 2; 3]%nat.
Proof.
  apply (range_selection_direction 0 10
           (mkCollection [1; 2; 3; 4]%nat false (-1)) 1 2 3 4 ranged_page).
  - exact (reachable_Inv_world _ ranged_page_reachable).
  - vm_compute. reflexivity.
  - reflexivity.
  - intros x Hx. vm_compute in Hx. by apply elem_of_nil in Hx.
  - intros x Hx. apply list_elem_of_In in Hx. simpl in Hx.
    destruct Hx as [<-|[<-|[<-|[]]]]; vm_compute; reflexivity.
  - vm_compute. reflexivity.
  - vm_compute. reflexivity.
Defined.

(** *** What holds on every reachable page *)





(** X14. On a reachable page the selection attribute mirrors the
    selection array: a registered dragitem has the state ['true'] exactly
    when it is in [#selection.dragitems], and no selected item is
    [aria-disabled]. *)
Theorem selection_state_mirrors_the_selection (w : World) (this : nat)
    (c : Droptarget) (col : Collection) (x : Item) :
  reachable w ->
  collection (instances w this) !! c = Some col -> x ∈ dragitems col ->
  (drag_state (item_attrs (instances w this) x) = Some true <->
   x ∈ selection_dragitems (instances w this)) /\
  (x ∈ selection_dragitems (instances w this) ->
   aria_disabled (item_attrs (instances w this) x) = false).
Proof.
  intros HW%reachable_Inv_world Hcol Hx.
  destruct (inv_instances w HW this) as [_ Hsel]. split.
  - by eapply sel_state.
  - by apply sel_enabled.
Qed.

Lemma selection_state_mirrors_the_selection_witness :
  (drag_state (item_attrs (instances selected_page 0) 3) = Some true <->
   3%nat ∈ selection_dragitems (instances selected_page 0)) /\
  (3%nat ∈ selection_dragitems (instances selected_page 0) ->
   aria_disabled (item_attrs (instances selected_page 0) 3) = false).
Proof.
  apply (selection_state_mirrors_the_selection selected_page 0 10
           (mkCollection [1; 2; 3; 4]%nat false (-1)) 3).
  - exact selected_page_reachable.
  - vm_compute. reflexivity.
  - cbn [dragitems]. solve_elem_of.
Defined.



(** X16. On a reachable page, where every change that other scripts
    made to the dragitems of a droptarget came while the observer was
    connected, added or removed dragitem elements themselves and left no
    dragitem without a role, [#collection] agrees with the document: the
    cached dragitems of a registered droptarget are its dragitems in
    document order, without repetition and shared with no other
    droptarget, and a droptarget that is not empty has its active and its
    last descendant among them. A change that the observer does not
    notice is not followed: it leaves the cached dragitems as they were
    while the document has the new ones. *)
Theorem collection_mirrors_the_document (w : World) (this : nat)
    (c : Droptarget) (col : Collection) :
  reachable w ->
  collection (instances w this) !! c = Some col ->
  dragitems col = dom_items (instances w this) c /\
  NoDup (dragitems col) /\
  (forall c' col' x,
     collection (instances w this) !! c' = Some col' ->
     x ∈ dragitems col -> x ∈ dragitems col' -> c = c') /\
  (dragitems col <> [] ->
   exists active last,
     aria_activedescendant (target_attrs (instances w this) c) = Some active /\
     data_drag_lastdescendant (target_attrs (instances w this) c) = Some last /\
     active ∈ dragitems col /\ last ∈ dragitems col) /\
  (forall items roles,
     exists w',
       on_mutation this c items false roles w = Some w' /\
       collection (instances w' this) !! c = Some col /\
       dom_items (instances w' this) c = items).
Proof.
  intros HW%reachable_Inv_world Hcol.
  destruct (inv_instances w HW this) as [Hreg _].
  split; [by eapply reg_cache|]. split; [by eapply reg_nodup|].
  split; [|split].
  - intros c' col' x Hcol' Hx Hx'. by eapply (reg_disjoint _ Hreg c c').
  - intros Hne.
    destruct (reg_active _ Hreg c col Hcol Hne)
      as [(active & Ha & Hain) (last & Hl & Hlin)].
    by exists active, last.
  - intros items roles. unfold on_mutation.
    cbn [observing set_dom_items]. rewrite andb_false_r.
    eexists. split; [reflexivity|]. rewrite instances_set_instance.
    cbn [collection dom_items set_dom_items].
    split; [done|]. by rewrite fn_lookup_insert.
Qed.

Lemma collection_mirrors_the_document_witness :
  exists col,
    collection (instances transfer_page 0) !! 20%nat = Some col /\
    dragitems col = dom_items (instances transfer_page 0) 20 /\
    NoDup (dragitems col).
Proof.
  exists (mkCollection [5; 6; 7]%nat false (-1)).
  assert (Hcol : collection (instances transfer_page 0) !! 20%nat
                 = Some (mkCollection [5; 6; 7]%nat false (-1)))
    by (vm_compute; reflexivity).
  split; [exact Hcol|].
  destruct (collection_mirrors_the_document transfer_page 0 20 _
              transfer_page_reachable Hcol) as (Hcache & Hnodup & _).
  split; [exact Hcache|exact Hnodup].
Defined.

(** *** Clearing the selection *)





(** [#clearDragValid] and then [#clearSelections], as Escape, an
    exclusive click and an eviction do: what it leaves on the page. *)
Lemma clear_updates this droptarget w :
  let i := instances w this in
  Inv_world w ->
  exists w',
    clearSelections this droptarget (on_instance this clearDragValid w)
    = Some w' /\
    instances w' this = evicted i /\
    (forall k, k <> this -> instances w' k = instances w k) /\
    draginstance w'
    = match selection_dragitems i with [] => draginstance w | _ => None end /\
    Inv_world w'.
Proof.
  intros i HW.
  destruct (clear_world this droptarget w HW) as (w' & Hw' & Hi' & Hd' & HW').
  exists w'. split; [done|]. split; [done|]. split; [|done].
  destruct (clearDragValid_same i)
    as (Hs & Ho & _ & _ & Hc & _ & _ & _ & Hdom & _).
  destruct (clearSelections_updates this droptarget
              (on_instance this clearDragValid w)) as (w'' & Hw'' & Hu).
  { rewrite instances_on_instance. fold i. rewrite Hs, Ho. intros Hne.
    destruct (Inv_evictable i (inv_instances w HW this) Hne) as [Hown Hin].
    split; [by right|]. intros x Hx.
    eapply inside_droptarget_same; [done..|by apply Hin]. }
  rewrite Hw' in Hw''. injection Hw'' as <-.
  destruct Hu as (_ & Hk & _). intros k Hne. rewrite Hk by done.
  by apply instances_set_instance_ne.
Qed.

(** X18. Escape on a page in order does not raise; afterwards the
    instance has nothing selected and no owner, none of its registered
    dragitems has the state ['true'], and [#draginstance] is released if
    the instance had a selection. The registry, the document, the active
    descendants, the other instances, and also a pending drop target are
    left as they were. *)
Theorem escape_clears_the_selection (this : nat) (w : World) :
  Inv_world w ->
  exists w',
    on_escape this w = Some w' /\
    Inv_world w' /\
    selection_dragitems (instances w' this) = [] /\
    selection_owner (instances w' this) = None /\
    (forall c col x,
       collection (instances w' this) !! c = Some col -> x ∈ dragitems col ->
       drag_state (item_attrs (instances w' this) x) <> Some true) /\
    same_registry (instances w this) (instances w' this) /\
    (forall k, k <> this -> instances w' k = instances w k) /\
    draginstance w'
    = match selection_dragitems (instances w this) with
      | [] => draginstance w
      | _ => None
      end.
Proof.
  intros HW. pose proof (inv_instances w HW this) as Hinv.
  assert (Hstate : forall w', Inv_world w' ->
            selection_dragitems (instances w' this) = [] ->
            forall c col x,
              collection (instances w' this) !! c = Some col ->
              x ∈ dragitems col ->
              drag_state (item_attrs (instances w' this) x) <> Some true).
  { intros w' HW' Hnil c col x Hcol Hx Htrue.
    destruct (inv_instances w' HW' this) as [_ Hsel'].
    apply (sel_state _ Hsel' c col x Hcol Hx) in Htrue.
    rewrite Hnil in Htrue. by apply elem_of_nil in Htrue. }
  unfold on_escape.
  destruct (selection_dragitems (instances w this)) as [|x l] eqn:Hsel.
  - exists w. split; [done|]. split; [done|]. split; [done|].
    split; [by apply Hinv|]. split; [by apply Hstate|].
    split; [apply same_registry_refl|]. done.
  - destruct (Inv_owner_set _ Hinv) as (owner & col & Hown & _);
      [by rewrite Hsel|].
    rewrite instances_on_instance.
    destruct (clearDragValid_same (instances w this)) as (_ & -> & _).
    rewrite Hown. cbn [mbind option_bind].
    destruct (clear_updates this None w HW)
      as (w' & Hw' & Hi' & Hk' & Hd' & HW').
    exists w'. split; [done|]. split; [done|].
    assert (Hnil : selection_dragitems (instances w' this) = [])
      by (rewrite Hi'; apply evicted_selection).
    split; [done|]. split.
    { destruct (inv_instances w' HW' this) as [_ Hsel']. by apply Hsel'. }
    split; [by apply Hstate|].
    split; [rewrite Hi'; apply evicted_same_registry|].
    split; [done|]. by rewrite Hd', Hsel.
Qed.

Lemma escape_clears_the_selection_witness :
  exists w',
    on_escape 0 selected_page = Some w' /\
    selection_dragitems (instances w' 0) = [] /\
    selection_owner (instances w' 0) = None.
Proof.
  destruct (escape_clears_the_selection 0 selected_page)
    as (w' & Hw' & _ & Hsel & Hown & _).
  { apply reachable_Inv_world. exact selected_page_reachable. }
  exists w'. split; [exact Hw'|]. split; [exact Hsel|exact Hown].
Defined.

(** *** The marking of the valid drop targets *)

Section MarkOnce.
Context (affected : Droptarget -> bool) (f : ItemAttrs -> ItemAttrs).

Lemma foldl_alter_once (attrs : Item -> ItemAttrs) l y :
  NoDup l -> y ∈ l ->
  foldl (fun attrs x => alter f x attrs) attrs l y = f (attrs y).
Proof.
  revert attrs. induction l as [|x l IH]; intros attrs Hnodup Hy.
  - by apply elem_of_nil in Hy.
  - apply NoDup_cons in Hnodup as [Hx Hnodup]. cbn [foldl].
    apply elem_of_cons in Hy as [->|Hy].
    + rewrite foldl_alter_notin by done. by rewrite fn_lookup_alter.
    + rewrite IH by done. rewrite fn_lookup_alter_ne; [done|].
      by intros ->.
Qed.

Lemma foldl_entries_notin (entries : list (Droptarget * Collection))
    (attrs : Item -> ItemAttrs) y :
  (forall entry, entry ∈ entries -> affected entry.1 = true ->
                 y ∉ dragitems entry.2) ->
  foldl (fun attrs entry =>
           if affected entry.1
           then foldl (fun attrs dragitem => alter f dragitem attrs)
                      attrs (dragitems entry.2)
           else attrs) attrs entries y
  = attrs y.
Proof.
  revert attrs. induction entries as [|entry entries IH];
    intros attrs Hentries; [done|].
  cbn [foldl]. rewrite IH by (intros e He; apply Hentries; by right).
  destruct (affected entry.1) eqn:Haff; [|done].
  apply foldl_alter_notin. apply Hentries; [by left|done].
Qed.

(** A dragitem of an affected droptarget is changed once, as long as the
    registry lists it once. *)
Lemma forDragitems_once i c col y :
  registry_ok i -> collection i !! c = Some col -> y ∈ dragitems col ->
  affected c = true ->
  forDragitems affected f i y = f (item_attrs i y).
Proof.
  intros Hreg Hcol Hy Haff. unfold forDragitems.
  assert (Hentries : forall entry, entry ∈ map_to_list (collection i) ->
            collection i !! entry.1 = Some entry.2).
  { intros [c' col'] Hin. by apply elem_of_map_to_list in Hin. }
  assert (Hin : (c, col) ∈ map_to_list (collection i))
    by (by apply elem_of_map_to_list).
  pose proof (NoDup_map_to_list (collection i)) as Hnodup.
  revert Hentries Hin Hnodup.
  generalize (map_to_list (collection i)) (item_attrs i).
  intros entries. induction entries as [|entry entries IH];
    intros attrs Hentries Hin Hnodup.
  - by apply elem_of_nil in Hin.
  - apply NoDup_cons in Hnodup as [Hentry Hnodup]. cbn [foldl].
    pose proof (Hentries entry ltac:(by left)) as Hcol'.
    destruct (decide (entry.1 = c)) as [Heq|Hne].
    + assert (entry = (c, col)) as ->.
      { destruct entry as [c' col']. cbn [fst snd] in *. subst c'.
        rewrite Hcol in Hcol'. by injection Hcol' as <-. }
      rewrite foldl_entries_notin.
      * cbn [fst snd]. rewrite Haff.
        apply foldl_alter_once; [by eapply reg_nodup|done].
      * intros [c' col'] He _ Hy'. cbn [fst snd] in *.
        pose proof (Hentries (c', col') ltac:(by right)) as Hcol''.
        cbn [fst snd] in Hcol''.
        assert (c = c') as <- by (by eapply (reg_disjoint _ Hreg c c')).
        rewrite Hcol in Hcol''. injection Hcol'' as <-. done.
    + apply elem_of_cons in Hin as [Heq|Hin]; [by subst entry|].
      rewrite IH; [|intros e He; apply Hentries; by right|done..].
      f_equal. destruct (affected entry.1) eqn:Haff'; [|done].
      apply foldl_alter_notin. intros Hy'. apply Hne. symmetry.
      by eapply (reg_disjoint _ Hreg c entry.1).
Qed.
End MarkOnce.

Lemma restore_disable a :
  data_drag_disabled a = None -> restore (disable a) = a.
Proof.
  destruct a as [st dis rem radio]. cbn. intros ->. unfold restore, disable.
  cbn. by destruct dis.
Qed.

(** What [#addDragValid] leaves in the attributes of every dragitem. *)
Lemma addDragValid_item_attrs i c col x :
  registry_ok i -> collection i !! c = Some col -> x ∈ dragitems col ->
  item_attrs (addDragValid i) x
  = if decide (selection_owner i = Some c) then item_attrs i x
    else disable (item_attrs i x).
Proof.
  intros Hreg Hcol Hx. unfold addDragValid. cbn [item_attrs set_item_attrs].
  destruct (decide (selection_owner i = Some c)) as [Hown|Hown].
  - apply forDragitems_notin. intros c' col' Hcol' Haff Hx'.
    assert (c = c') as <- by (by eapply (reg_disjoint _ Hreg c c')).
    rewrite bool_decide_eq_true_2 in Haff by done. done.
  - apply (forDragitems_once _ _ i c col); try done.
    by rewrite bool_decide_eq_false_2.
Qed.

Lemma unregistered_item_attrs affected f i x :
  (forall c col, collection i !! c = Some col -> x ∉ dragitems col) ->
  forDragitems affected f i x = item_attrs i x.
Proof. intros Hx. apply forDragitems_notin. intros c col Hcol _. by eapply Hx. Qed.

(** X19. [#addDragValid] disables every dragitem of the droptargets
    other than the selection owner, remembering the state it had, and
    leaves the owner's dragitems alone; when no state was remembered
    before and the sort flag is set, [#clearDragValid] then gives every
    dragitem back exactly the attributes it had. *)
Theorem marking_round_trip (i : Instance) :
  registry_ok i ->
  selection_dragitems i <> [] ->
  selection_nodesort i = true ->
  (forall c col x, collection i !! c = Some col -> x ∈ dragitems col ->
                   data_drag_disabled (item_attrs i x) = None) ->
  (forall c col x, collection i !! c = Some col -> x ∈ dragitems col ->
     if decide (selection_owner i = Some c)
     then item_attrs (addDragValid i) x = item_attrs i x
     else aria_disabled (item_attrs (addDragValid i) x) = true /\
          data_drag_disabled (item_attrs (addDragValid i) x)
          = Some (aria_disabled (item_attrs i x))) /\
  (forall x, item_attrs (clearDragValid (addDragValid i)) x = item_attrs i x).
Proof.
  intros Hreg Hsel Hsort Hfresh. split.
  - intros c col x Hcol Hx.
    rewrite (addDragValid_item_attrs i c col x) by done.
    destruct (decide (selection_owner i = Some c)); [done|].
    unfold disable. cbn. by rewrite (Hfresh c col x).
  - intros x. set (j := addDragValid i).
    assert (Hregj : registry_ok j).
    { eapply same_but_item_attrs_registry_ok; [apply addDragValid_same|done]. }
    unfold clearDragValid.
    change (selection_dragitems j) with (selection_dragitems i).
    destruct (selection_dragitems i) as [|s l] eqn:Hs; [done|].
    cbn [item_attrs set_item_attrs].
    change (selection_nodesort j) with (selection_nodesort i).
    change (selection_owner j) with (selection_owner i).
    rewrite Hsort. cbn [negb].
    destruct (decide (Exists (fun entry => x ∈ dragitems entry.2)
                             (map_to_list (collection i)))) as [Hex|Hnex].
    + apply Exists_exists in Hex as ([c col] & Hin & Hx).
      apply elem_of_map_to_list in Hin. cbn [snd] in Hx.
      destruct (decide (selection_owner i = Some c)) as [Hown|Hown].
      * rewrite forDragitems_notin.
        -- unfold j. rewrite (addDragValid_item_attrs i c col x) by done.
           by rewrite decide_True.
        -- intros c' col' Hcol' Haff Hx'.
           assert (c = c') as <- by (by eapply (reg_disjoint _ Hreg c c')).
           rewrite bool_decide_eq_true_2 in Haff by done. done.
      * rewrite (forDragitems_once _ _ j c col); try done.
        -- unfold j. rewrite (addDragValid_item_attrs i c col x) by done.
           rewrite decide_False by done. apply restore_disable.
           by eapply Hfresh.
        -- by rewrite bool_decide_eq_false_2.
    + rewrite unregistered_item_attrs.
      * unfold j, addDragValid. cbn [item_attrs set_item_attrs].
        apply unregistered_item_attrs. intros c col Hcol Hx. apply Hnex.
        apply Exists_exists. exists (c, col).
        split; [by apply elem_of_map_to_list|done].
      * intros c col Hcol Hx. apply Hnex.
        apply Exists_exists. exists (c, col).
        split; [by apply elem_of_map_to_list|done].
Qed.

(** The page instance with item 3 selected and nothing marked yet. *)
Lemma selected_unmarked_registry_ok :
  registry_ok (selected [3%nat] 10 page_instance).
Proof.
  apply (registry_ok_same page_instance); [done..|].
  destruct page_initial as [Hinit _]. apply (init_registry _ (Hinit 0%nat)).
Qed.

Lemma marking_round_trip_witness :
  aria_disabled
    (item_attrs (addDragValid (selected [3%nat] 10 page_instance)) 5) = true /\
  item_attrs (clearDragValid (addDragValid (selected [3%nat] 10 page_instance)))
    5
  = item_attrs (selected [3%nat] 10 page_instance) 5.
Proof.
  destruct (marking_round_trip (selected [3%nat] 10 page_instance))
    as [Hmark Hback].
  - exact selected_unmarked_registry_ok.
  - discriminate.
  - reflexivity.
  - intros c col x _ _. cbn. unfold alter, fn_alter, page_item_attrs.
    destruct (decide (3%nat = x)); reflexivity.
  - split; [|apply Hback].
    specialize (Hmark 20%nat (mkCollection [5; 6; 7]%nat false (-1)) 5%nat).
    rewrite decide_False in Hmark by discriminate.
    apply Hmark; [vm_compute; reflexivity|solve_elem_of].
Defined.

(** X20. After a drop by the sort button the sort flag is cleared, and
    [#clearDragValid] then resets the dragitems of the selection owner as
    well: an owner item without a remembered state ends up not
    [aria-disabled], also when it was disabled before. *)
Theorem clearDragValid_after_sort_enables_owner_items (i : Instance)
    (owner : Droptarget) (col : Collection) (x : Item) :
  registry_ok i ->
  selection_dragitems i <> [] ->
  selection_nodesort i = false ->
  selection_owner i = Some owner ->
  collection i !! owner = Some col -> x ∈ dragitems col ->
  data_drag_disabled (item_attrs i x) = None ->
  aria_disabled (item_attrs (clearDragValid i) x) = false.
Proof.
  intros Hreg Hsel Hsort Hown Hcol Hx Hfresh. unfold clearDragValid.
  destruct (selection_dragitems i) as [|s l]; [done|].
  cbn [item_attrs set_item_attrs].
  rewrite (forDragitems_once _ _ i owner col); try done.
  - unfold restore. cbn. by rewrite Hfresh.
  - by rewrite Hsort, orb_true_r.
Qed.

Lemma clearDragValid_after_sort_enables_owner_items_witness :
  aria_disabled
    (item_attrs
       (set_selection_nodesort false (selected [3%nat] 10 page_instance)) 4)
  = true /\
  aria_disabled
    (item_attrs
       (clearDragValid
          (set_selection_nodesort false (selected [3%nat] 10 page_instance)))
       4)
  = false.
Proof.
  split; [reflexivity|].
  apply (clearDragValid_after_sort_enables_owner_items _ 10
           (mkCollection [1; 2; 3; 4]%nat false (-1))).
  - apply (registry_ok_same page_instance); [done..|].
    destruct page_initial as [Hinit _]. apply (init_registry _ (Hinit 0%nat)).
  - discriminate.
  - reflexivity.
  - reflexivity.
  - vm_compute. reflexivity.
  - solve_elem_of.
  - reflexivity.
Defined.

(** The same on a page: item 3 of droptarget 10 is selected and the
    pointer is then released on the sort button of that droptarget; item
    3 goes to the end, and item 4, disabled in the markup, is not disabled
    afterwards. *)
Example sort_enables_disabled_item :
  aria_disabled (item_attrs (instances sortable_page 0) 4) = true /\
  (w ← run [(0%nat, MouseUp plain (on_item 10 3));
            (0%nat, MouseUp plain (on_sorted 10))] sortable_page;
   Some (dom_items (instances w 0) 10,
         aria_disabled (item_attrs (instances w 0) 4)))
  = Some ([1; 2; 4; 3]%nat, false).
Proof. vm_compute. split; reflexivity. Qed.

(** *** Toggling *)

Lemma removeSelection_owner this x droptarget w w' :
  removeSelection this x droptarget w = Some w' ->
  selection_owner (instances w' this) = selection_owner (instances w this).
Proof.
  unfold removeSelection.
  destruct (match droptarget with Some _ => _ | None => _ end); [|done].
  cbn [mbind option_bind]. case_decide; [|done].
  cbn [selection_dragitems set_selection_dragitems].
  destruct (filter _ _); intros [= <-]; cbn [instances set_draginstance];
    by rewrite instances_set_instance.
Qed.

Lemma enabled_singleton i x :
  aria_disabled (item_attrs i x) = false -> enabled i [x] = [x].
Proof. intros Hx. unfold enabled. by rewrite filter_cons_True. Qed.

Lemma filter_ne_snoc (l : list Item) x :
  x ∉ l -> filter (fun item => item <> x) (l ++ [x]) = l.
Proof.
  intros Hx. rewrite filter_app, filter_cons_False by (by intros ?).
  rewrite filter_nil, app_nil_r. apply filter_all.
  intros y Hy ->. done.
Qed.

(** X21. A non-contiguous action (multimode 1, as a click with Ctrl) on
    an enabled dragitem that is not selected appends it to the selection;
    the same action again takes it out: the selection array and the owner
    are then what they were before the two actions. *)
Theorem toggle_twice_restores_the_selection (this : nat)
    (droptarget : Droptarget) (col : Collection) (x : Item) (w : World) :
  Inv_world w ->
  collection (instances w this) !! droptarget = Some col ->
  x ∈ dragitems col ->
  selection_owner (instances w this) = None \/
  selection_owner (instances w this) = Some droptarget ->
  x ∉ selection_dragitems (instances w this) ->
  aria_disabled (item_attrs (instances w this) x) = false ->
  exists w1 w2,
    doSelectionThing this droptarget x 1 w = Some w1 /\
    selection_dragitems (instances w1 this)
    = selection_dragitems (instances w this) ++ [x] /\
    selection_owner (instances w1 this) = Some droptarget /\
    doSelectionThing this droptarget x 1 w1 = Some w2 /\
    selection_dragitems (instances w2 this)
    = selection_dragitems (instances w this) /\
    selection_owner (instances w2 this) = selection_owner (instances w this) /\
    Inv_world w2.
Proof.
  intros HW Hcol Hx Howner Hnotin Hen. set (i := instances w this) in *.
  pose proof (inv_instances w HW this) as [Hreg Hsel]. fold i in Hreg, Hsel.
  (* the first action *)
  destruct (add_world this droptarget col x w) as (w' & Hw' & Hi' & HW');
    try done.
  fold i in Hi'.
  set (w1 := on_instance this addDragValid_if_selected w').
  assert (Hfirst : doSelectionThing this droptarget x 1 w = Some w1).
  { unfold doSelectionThing. cbn [Z.eqb Pos.eqb]. fold i.
    rewrite decide_False.
    - by rewrite Hw'.
    - intros Hst. apply Hnotin. by apply (sel_state i Hsel droptarget col x). }
  assert (HW1 : Inv_world w1) by (by apply addDragValid_world).
  set (i1 := instances w1 this).
  assert (Hi1 : same_but_item_attrs (reselected [x] droptarget i) i1).
  { unfold i1, w1. rewrite instances_on_instance, Hi'.
    apply addDragValid_if_selected_same. }
  destruct Hi1 as (Hs1 & Ho1 & _ & _ & Hc1 & _).
  rewrite reselected_selection, enabled_singleton in Hs1 by done.
  rewrite reselected_owner, enabled_singleton in Ho1 by done.
  assert (Hkeep : filter (fun item => item ∉ [x]) (selection_dragitems i)
                  = selection_dragitems i).
  { apply filter_all. by intros y Hy ->%list_elem_of_singleton. }
  rewrite Hkeep in Hs1.
  destruct (reselected_registry [x] droptarget i) as (Hcr & _).
  rewrite Hcr in Hc1.
  pose proof (inv_instances w1 HW1 this) as [Hreg1 Hsel1].
  fold i1 in Hreg1, Hsel1.
  (* the second action *)
  destruct (doSelectionThing_world this droptarget col x 1 w1)
    as (w2 & Hw2 & HW2 & _); try done.
  { fold i1. by rewrite Hc1. }
  { fold i1. by right. }
  exists w1, w2. split; [done|]. split; [done|]. split; [done|].
  split; [done|].
  unfold doSelectionThing in Hw2. cbn [Z.eqb Pos.eqb] in Hw2.
  fold i1 in Hw2. rewrite decide_True in Hw2.
  2:{ apply (sel_state i1 Hsel1 droptarget col x); [by rewrite Hc1|done|].
      rewrite Hs1. apply elem_of_app. right. by left. }
  set (wc := if (length (selection_dragitems i1) =? 1)%nat
             then on_instance this clearDragValid w1 else w1) in Hw2.
  assert (Hwc : selection_dragitems (instances wc this)
                = selection_dragitems i ++ [x] /\
                selection_owner (instances wc this) = Some droptarget).
  { unfold wc. destruct (_ =? _)%nat; [|done].
    rewrite instances_on_instance. fold i1.
    destruct (clearDragValid_same i1) as (-> & -> & _). done. }
  destruct Hwc as [Hsc Hoc].
  destruct (removeSelection this x None wc) as [w3|] eqn:Hw3; [|done].
  cbn [mbind option_bind] in Hw2.
  pose proof (removeSelection_selection _ _ _ _ _ Hw3) as Hs3.
  pose proof (removeSelection_owner _ _ _ _ _ Hw3) as Ho3.
  rewrite Hsc, filter_ne_snoc in Hs3 by done. rewrite Hoc in Ho3.
  rewrite Hs3 in Hw2. injection Hw2 as <-.
  destruct (selection_dragitems i) as [|y l] eqn:Hsi.
  - rewrite instances_on_instance. cbn. split; [done|]. split; [|done].
    symmetry. by apply (sel_owner i Hsel).
  - split; [done|]. split; [|done]. rewrite Ho3.
    destruct Howner as [Hnone| ->]; [|done].
    apply (sel_owner i Hsel) in Hnone. congruence.
Qed.

Lemma toggle_twice_restores_the_selection_witness :
  exists w1 w2,
    doSelectionThing 0 10 2 1 selected_page = Some w1 /\
    selection_dragitems (instances w1 0)
    = selection_dragitems (instances selected_page 0) ++ [2%nat] /\
    selection_owner (instances w1 0) = Some 10%nat /\
    doSelectionThing 0 10 2 1 w1 = Some w2 /\
    selection_dragitems (instances w2 0)
    = selection_dragitems (instances selected_page 0) /\
    selection_owner (instances w2 0)
    = selection_owner (instances selected_page 0) /\
    Inv_world w2.
Proof.
  apply (toggle_twice_restores_the_selection 0 10
           (mkCollection [1; 2; 3; 4]%nat false (-1)) 2 selected_page).
  - apply reachable_Inv_world. exact selected_page_reachable.
  - vm_compute. reflexivity.
  - cbn [dragitems]. solve_elem_of.
  - right. vm_compute. reflexivity.
  - vm_compute. intros H. apply list_elem_of_In in H. simpl in H.
    destruct H as [H|[]]. discriminate H.
  - vm_compute. reflexivity.
Defined.

(** *** Select all *)

(** X22. Ctrl/Cmd + A in a droptarget that is not locked to single
    selection, has an active descendant, is the owner or has no owner
    against it, and is not yet fully selected, makes the selection the
    dragitems of the droptarget that are not [aria-disabled], in document
    order, whatever order they were selected in before. *)
Theorem select_all_selects_the_enabled_items (this : nat) (e : Modifiers)
    (target : Target) (droptarget : Droptarget) (col : Collection)
    (w : World) :
  Inv_world w ->
  t_droptarget target = Some droptarget -> t_sorted target = false ->
  ctrlKey e || metaKey e = true ->
  collection (instances w this) !! droptarget = Some col ->
  multimode col <> 0 ->
  is_Some (query_activedescendant (instances w this) droptarget) ->
  selection_owner (instances w this) = None \/
  selection_owner (instances w this) = Some droptarget ->
  (length (selection_dragitems (instances w this))
   < length (dragitems col))%nat ->
  exists w',
    on_keydown this e KeyA target w = Some w' /\
    selection_dragitems (instances w' this)
    = filter (fun item => aria_disabled (item_attrs (instances w this) item)
                          = false)
             (dragitems col) /\
    (selection_dragitems (instances w' this) <> [] ->
     selection_owner (instances w' this) = Some droptarget) /\
    Inv_world w'.
Proof.
  intros HW Hdt Hsorted Hmod Hcol Hmm [a Ha] Howner Hlen.
  set (i := instances w this) in *.
  pose proof (inv_instances w HW this) as [Hreg Hsel]. fold i in Hreg, Hsel.
  destruct (reselect_world this droptarget col (dragitems col) w
              (on_instance this (set_selection_dragitems []) w))
    as (w1 & Hw1 & Hi1 & HW1); try done.
  { by apply (reg_nodup i Hreg droptarget). }
  { fold i.
    replace (filter (fun item => item ∉ dragitems col) (selection_dragitems i))
      with (@nil Item); [apply updates_set_instance|].
    symmetry. apply filter_none. intros x Hx Hnotin. apply Hnotin.
    destruct Howner as [Hnone|Hsome].
    - apply (sel_owner i Hsel) in Hnone. rewrite Hnone in Hx.
      by apply elem_of_nil in Hx.
    - destruct (sel_owned i Hsel droptarget Hsome) as (col' & Hcol' & Hsub).
      assert (col' = col) as -> by congruence. by apply Hsub. }
  fold i in Hi1.
  exists (on_instance this addDragValid_if_selected w1).
  assert (Hrun : on_keydown this e KeyA target w
                 = Some (on_instance this addDragValid_if_selected w1)).
  { unfold on_keydown. fold i. rewrite Hdt, Hsorted, Hmod. cbn [andb negb].
    rewrite Hcol. cbn [mbind option_bind].
    destruct (Z.eqb_spec (multimode col) 0) as [|_]; [done|].
    rewrite Ha. apply owner_null_or_spec in Howner. rewrite Howner.
    apply Nat.ltb_lt in Hlen. rewrite Hlen. cbn [andb].
    unfold select_all. by rewrite Hw1. }
  split; [done|]. rewrite instances_on_instance, Hi1.
  destruct (addDragValid_if_selected_same (reselected (dragitems col) droptarget i))
    as (-> & -> & _).
  rewrite reselected_selection, reselected_owner.
  assert (Hnone : filter (fun item => item ∉ dragitems col)
                         (selection_dragitems i) = []).
  { apply filter_none. intros x Hx Hnotin. apply Hnotin.
    destruct Howner as [Hnone|Hsome].
    - apply (sel_owner i Hsel) in Hnone. rewrite Hnone in Hx.
      by apply elem_of_nil in Hx.
    - destruct (sel_owned i Hsel droptarget Hsome) as (col' & Hcol' & Hsub).
      assert (col' = col) as -> by congruence. by apply Hsub. }
  rewrite Hnone. cbn [app]. split; [done|]. split.
  - unfold enabled. by destruct (filter _ (dragitems col)).
  - by apply addDragValid_world.
Qed.

Lemma select_all_selects_the_enabled_items_witness :
  exists w',
    on_keydown 0 with_ctrl KeyA (on_droptarget 10) selected_page = Some w' /\
    selection_dragitems (instances w' 0)
    = filter (fun item =>
                aria_disabled (item_attrs (instances selected_page 0) item)
                = false)
             [1; 2; 3; 4]%nat.
Proof.
  destruct (select_all_selects_the_enabled_items 0 with_ctrl
              (on_droptarget 10) 10 (mkCollection [1; 2; 3; 4]%nat false (-1))
              selected_page) as (w' & Hw' & Hsel & _).
  - apply reachable_Inv_world. exact selected_page_reachable.
  - reflexivity.
  - reflexivity.
  - reflexivity.
  - vm_compute. reflexivity.
  - discriminate.
  - eexists. vm_compute. reflexivity.
  - right. vm_compute. reflexivity.
  - vm_compute. lia.
  - exists w'. split; [exact Hw'|exact Hsel].
Defined.

Example select_all_skips_the_disabled_item :
  (w ← on_keydown 0 with_ctrl KeyA (on_droptarget 10) selected_page;
   Some (selection_dragitems (instances w 0))) = Some [1; 2; 3]%nat.
Proof. vm_compute. reflexivity. Qed.

(** *** The result of a drop, in general *)

Lemma filter_notin_ext (l1 l2 l : list Item) :
  (forall x, x ∈ l1 <-> x ∈ l2) ->
  filter (fun x => x ∉ l1) l = filter (fun x => x ∉ l2) l.
Proof.
  intros Heq. induction l as [|y l IH]; [done|].
  destruct (decide (y ∈ l1)) as [Hin|Hnotin].
  - rewrite !filter_cons_False; [done| |]; intros Hn; apply Hn;
      [by apply Heq|done].
  - rewrite !filter_cons_True; [by rewrite IH|by rewrite <- Heq|done].
Qed.

(** X23. A drop with a pending drop target moves exactly the selected
    items: they leave the places they had and are appended to the drop
    target, in the order of the owner's dragitems or, after a sort, in the
    order of selection, behind the items that were there; every other
    dragitem keeps its droptarget and its place among the others. The
    registry is rebuilt to match, nothing is selected afterwards, and the
    other instances are not touched. *)
Theorem drop_moves_exactly_the_selection (this : nat)
    (droptarget owner : Droptarget) (ownercol : Collection) (w : World) :
  Inv_world w ->
  selection_droptarget (instances w this) = Some droptarget ->
  selection_owner (instances w this) = Some owner ->
  collection (instances w this) !! owner = Some ownercol ->
  exists w' moved,
    doDropThing this w = Some (w', true) /\
    moved = (if selection_nodesort (instances w this)
             then filter (fun item =>
                            item ∈ selection_dragitems (instances w this))
                         (dragitems ownercol)
             else selection_dragitems (instances w this)) /\
    moved ≡ₚ selection_dragitems (instances w this) /\
    (forall c,
       dom_items (instances w' this) c
       = filter (fun x => x ∉ selection_dragitems (instances w this))
                (dom_items (instances w this) c)
         ++ (if decide (c = droptarget) then moved else [])) /\
    (forall c col, collection (instances w' this) !! c = Some col ->
                   dragitems col = dom_items (instances w' this) c) /\
    selection_dragitems (instances w' this) = [] /\
    selection_owner (instances w' this) = None /\
    selection_droptarget (instances w' this) = None /\
    draginstance w' = None /\
    (forall k, k <> this -> instances w' k = instances w k) /\
    Inv_world w'.
Proof.
  intros HW Hdt Hown Hcol. set (i := instances w this) in *.
  pose proof (inv_instances w HW this) as Hinv. fold i in Hinv.
  destruct (doDropThing_world this droptarget owner ownercol w)
    as (w' & Hw' & HW' & Hsel' & Hown' & Hdt' & Hdom' & _ & _ & _ & Hk' & Hd');
    try done.
  fold i in Hdom'.
  destruct (appendages_spec i owner ownercol) as (Hnodup & Hiff & _);
    try done.
  exists w', (appendages i ownercol). split; [done|]. split; [done|].
  split.
  { apply NoDup_Permutation; [done|apply Hinv|done]. }
  split.
  { intros c. rewrite Hdom'. unfold dropped_dom.
    rewrite (filter_notin_ext _ (selection_dragitems i)) by done.
    destruct (decide (c = droptarget)); [done|by rewrite app_nil_r]. }
  split.
  { intros c col Hc. destruct (inv_instances w' HW' this) as [Hreg' _].
    by apply (reg_cache _ Hreg'). }
  done.
Qed.

Lemma drop_moves_exactly_the_selection_witness :
  exists w',
    doDropThing 0 transfer_page = Some (w', true) /\
    dom_items (instances w' 0) 10
    = filter (fun x => x ∉ selection_dragitems (instances transfer_page 0))
             (dom_items (instances transfer_page 0) 10)
      ++ filter (fun item =>
                   item ∈ selection_dragitems (instances transfer_page 0))
                [5; 6; 7]%nat.
Proof.
  destruct (drop_moves_exactly_the_selection 0 10 20
              (mkCollection [5; 6; 7]%nat false (-1)) transfer_page)
    as (w' & moved & Hw' & Hmoved & _ & Hdom & _).
  - apply reachable_Inv_world. exact transfer_page_reachable.
  - vm_compute. reflexivity.
  - vm_compute. reflexivity.
  - vm_compute. reflexivity.
  - exists w'. split; [exact Hw'|].
    rewrite (Hdom 10%nat), Hmoved. reflexivity.
Defined.

(** *** The observer *)

Lemma foldl_unselect_attrs (attrs : Item -> ItemAttrs) l x :
  foldl (fun attrs dragitem =>
           alter (set_drag_state (Some false)) dragitem attrs) attrs l x
  = if decide (x ∈ l) then set_drag_state (Some false) (attrs x) else attrs x.
Proof.
  destruct (decide (x ∈ l)) as [Hin|Hnotin].
  - by apply (foldl_alter_in (set_drag_state (Some false)) (fun a => a)).
  - by apply foldl_alter_notin.
Qed.

Lemma getDefaultMultimode_unselect i i' droptarget l items :
  state_is_checked (target_attrs i' droptarget)
  = state_is_checked (target_attrs i droptarget) ->
  item_attrs i'
  = foldl (fun attrs dragitem =>
             alter (set_drag_state (Some false)) dragitem attrs)
          (item_attrs i) l ->
  getDefaultMultimode i' droptarget items
  = getDefaultMultimode i droptarget items.
Proof.
  intros Hta Hia. unfold getDefaultMultimode. rewrite Hta. clear Hta.
  destruct (state_is_checked (target_attrs i droptarget)); [|done]. destruct items as [|first ?]; [done|].
  rewrite Hia. by rewrite (foldl_alter_proj _ role_radio).
Qed.

(** X24. The callback of the mutation observer. A change of the
    dragitems of a registered droptarget always changes the document. When
    the observer is connected, a dragitem element is among the added or
    removed nodes, and every dragitem of the droptarget has a role, the
    instance rebuilds that member of [#collection]: its cached dragitems
    become the new ones, each with the state ['false'], and its default
    multimode is worked out again; the active descendant is kept if it is
    still among the dragitems, otherwise the first dragitem becomes the
    active and last descendant, and in a droptarget left empty the active
    descendant is removed; the other droptargets, the selection and the
    other instances stay as they are. When a dragitem of the droptarget
    has no role, the callback throws instead. A change that has no
    dragitem element among the added and removed nodes, or that comes
    while the observer is disconnected, leaves [#collection] and every
    attribute as they were, so that the cached dragitems are those of the
    document before the change. *)
Theorem observer_rebuilds_on_dragitem_records (this : nat)
    (droptarget : Droptarget) (items : list Item) (col : Collection)
    (w : World) :
  collection (instances w this) !! droptarget = Some col ->
  (observing (instances w this) = true ->
   exists w' active,
     on_mutation this droptarget items true true w = Some w' /\
     active
     = match items with
       | [] => None
       | first :: _ =>
           match aria_activedescendant
                   (target_attrs (instances w this) droptarget) with
           | Some a => if decide (a ∈ items) then Some a else Some first
           | None => Some first
           end
       end /\
     aria_activedescendant (target_attrs (instances w' this) droptarget)
     = active /\
     data_drag_lastdescendant (target_attrs (instances w' this) droptarget)
     = match items with
       | [] => data_drag_lastdescendant
                 (target_attrs (instances w this) droptarget)
       | _ => active
       end /\
     dom_items (instances w' this) droptarget = items /\
     collection (instances w' this) !! droptarget
     = Some (mkCollection items (sorted col)
               (getDefaultMultimode (instances w this) droptarget items)) /\
     (forall c, c <> droptarget ->
        collection (instances w' this) !! c
        = collection (instances w this) !! c /\
        dom_items (instances w' this) c = dom_items (instances w this) c /\
        target_attrs (instances w' this) c
        = target_attrs (instances w this) c) /\
     (forall x,
        item_attrs (instances w' this) x
        = if decide (x ∈ items)
          then set_drag_state (Some false) (item_attrs (instances w this) x)
          else item_attrs (instances w this) x) /\
     selection_dragitems (instances w' this)
     = selection_dragitems (instances w this) /\
     selection_owner (instances w' this)
     = selection_owner (instances w this) /\
     (forall k, k <> this -> instances w' k = instances w k) /\
     draginstance w' = draginstance w) /\
  (observing (instances w this) = true ->
   on_mutation this droptarget items true false w = None) /\
  (forall noticed roles,
     observing (instances w this) && noticed = false ->
     exists w',
       on_mutation this droptarget items noticed roles w = Some w' /\
       dom_items (instances w' this) droptarget = items /\
       (forall c, c <> droptarget ->
          dom_items (instances w' this) c = dom_items (instances w this) c) /\
       collection (instances w' this) = collection (instances w this) /\
       item_attrs (instances w' this) = item_attrs (instances w this) /\
       target_attrs (instances w' this) = target_attrs (instances w this) /\
       selection_dragitems (instances w' this)
       = selection_dragitems (instances w this) /\
       selection_owner (instances w' this)
       = selection_owner (instances w this) /\
       (forall k, k <> this -> instances w' k = instances w k) /\
       draginstance w' = draginstance w).
Proof.
  intros Hcol. set (i := instances w this) in *.
  split; [|split].
  - intros Hobs. unfold on_mutation. fold i.
    cbn [observing set_dom_items]. rewrite Hobs. cbn [andb].
    unfold rebuild. cbn [collection set_dom_items]. rewrite Hcol.
    cbn [mbind option_bind].
    unfold getDroptarget, getDragitems, query_activedescendant.
    cbn [dom_items target_attrs item_attrs set_dom_items].
    rewrite !fn_lookup_insert.
    eexists _, _. split; [reflexivity|].
    rewrite instances_set_instance.
    cbn [collection dom_items target_attrs item_attrs selection_dragitems
         selection_owner set_collection set_target_attrs set_item_attrs
         set_dom_items].
    rewrite !fn_lookup_insert, lookup_insert_eq.
    split; [reflexivity|]. split.
    { destruct items as [|first rest]; [done|]. cbn [aria_activedescendant].
      destruct (aria_activedescendant (target_attrs i droptarget)) as [a|];
        [|done].
      cbn [mbind option_bind]. by destruct (decide (a ∈ first :: rest)). }
    split.
    { destruct items as [|first rest]; [done|].
      cbn [data_drag_lastdescendant].
      destruct (aria_activedescendant (target_attrs i droptarget)) as [a|];
        [|done].
      cbn [mbind option_bind]. by destruct (decide (a ∈ first :: rest)). }
    split; [done|]. split.
    { do 2 f_equal. apply (getDefaultMultimode_unselect i _ _ items);
        cbn [target_attrs item_attrs set_target_attrs set_item_attrs
             set_dom_items]; [|done].
      rewrite fn_lookup_insert. by destruct items. }
    split.
    { intros c Hc. rewrite lookup_insert_ne by done.
      by rewrite !fn_lookup_insert_ne. }
    split; [intros x; apply foldl_unselect_attrs|].
    split; [done|]. split; [done|]. split; [|done].
    intros k Hk. by apply instances_set_instance_ne.
  - intros Hobs. unfold on_mutation. fold i.
    cbn [observing set_dom_items]. by rewrite Hobs.
  - intros noticed roles Hquiet. unfold on_mutation. fold i.
    cbn [observing set_dom_items]. rewrite Hquiet.
    eexists. split; [reflexivity|].
    rewrite instances_set_instance.
    cbn [collection dom_items target_attrs item_attrs selection_dragitems
         selection_owner set_dom_items].
    split; [by rewrite fn_lookup_insert|].
    split; [by intros c Hc; rewrite fn_lookup_insert_ne|].
    do 5 (split; [done|]). split; [|done].
    intros k Hk. by apply instances_set_instance_ne.
Qed.

Lemma observer_rebuilds_on_dragitem_records_witness :
  (exists w',
     on_mutation 0 10 [2; 9; 3]%nat true true page = Some w' /\
     aria_activedescendant (target_attrs (instances w' 0) 10) = Some 2%nat /\
     dom_items (instances w' 0) 10 = [2; 9; 3]%nat) /\
  on_mutation 0 10 [2; 9; 3]%nat true false page = None /\
  (exists w',
     on_mutation 0 10 [2; 9; 3]%nat false true page = Some w' /\
     dom_items (instances w' 0) 10 = [2; 9; 3]%nat /\
     collection (instances w' 0) = collection (instances page 0)).
Proof.
  destruct (observer_rebuilds_on_dragitem_records 0 10 [2; 9; 3]%nat
              (mkCollection [1; 2; 3; 4]%nat false (-1)) page)
    as (Hrebuild & Hthrow & Hquiet).
  - vm_compute. reflexivity.
  - split; [|split].
    + destruct (Hrebuild eq_refl)
        as (w' & active & Hw' & Hactive & Ha & _ & Hdom & _).
      exists w'. split; [exact Hw'|]. split; [|exact Hdom].
      rewrite Ha, Hactive. reflexivity.
    + exact (Hthrow eq_refl).
    + destruct (Hquiet false true eq_refl)
        as (w' & Hw' & Hdom & _ & Hcol & _).
      exists w'. split; [exact Hw'|]. split; [exact Hdom|exact Hcol].
Defined.

(** *** The navigation keys *)

(** A loop over the entries of an array that acts on the entries equal to
    [a] acts once, at the position of [a], when the array has no
    repetition. *)
Lemma foldl_entries_once (G : Z -> nat -> Z) (a : Item) (l : list Item) :
  forall (k n : nat) (acc : Z),
    NoDup l -> l !! n = Some a ->
    foldl (fun acc (entry : nat * Item) =>
             if decide (Some entry.2 = Some a) then G acc entry.1 else acc)
          acc (imap (fun m x => ((k + m)%nat, x)) l)
    = G acc (k + n)%nat.
Proof.
  induction l as [|x l IH]; intros k n acc Hnodup Hn; [done|].
  apply NoDup_cons in Hnodup as [Hx Hnodup]. cbn [imap foldl fst snd].
  rewrite (imap_ext _ (fun m y => ((S k + m)%nat, y)))
    by (intros m y _; cbn; f_equal; lia).
  destruct n as [|n]; cbn in Hn.
  - injection Hn as ->. rewrite decide_True by done.
    rewrite Nat.add_0_r.
    assert (Hrest : forall (l' : list Item) k' acc',
              a ∉ l' ->
              foldl (fun acc (entry : nat * Item) =>
                       if decide (Some entry.2 = Some a)
                       then G acc entry.1 else acc)
                    acc' (imap (fun m y => ((k' + m)%nat, y)) l') = acc').
    { clear. induction l' as [|y l' IH']; intros k' acc' Hnotin; [done|].
      apply not_elem_of_cons in Hnotin as [Hne Hnotin].
      cbn [imap foldl fst snd].
      rewrite decide_False by (intros [= ->]; done).
      rewrite (imap_ext _ (fun m y => ((S k' + m)%nat, y)))
        by (intros m z _; cbn; f_equal; lia).
      by apply IH'. }
    by apply Hrest.
  - rewrite decide_False.
    + rewrite (IH (S k) n) by done. f_equal. lia.
    + intros [= ->]. apply Hx. by eapply list_elem_of_lookup_2.
Qed.

Lemma nextindex_None keyname l : nextindex keyname None l = -1.
Proof.
  unfold nextindex. generalize (imap (fun n (item : Item) => (n, item)) l).
  intros entries. induction entries as [|entry entries IH]; [done|].
  cbn [foldl]. by rewrite decide_False.
Qed.

(** X25. When the dragitems of a droptarget have no repetition and its
    active descendant is the dragitem at position [n], the navigation loop
    of the [keydown] listener finds: for the arrow keys the position after
    or before [n], going round at the ends; for PageDown and PageUp the
    position five further, stopping at the ends; for Home and End the
    first and the last position. Without an active descendant it finds no
    position, and the listener does nothing. *)
Theorem navigation_keys (dragitems : list Item) (n : nat) (active : Item) :
  NoDup dragitems -> dragitems !! n = Some active ->
  nextindex ArrowDown (Some active) dragitems
  = (Z.of_nat n + 1) mod Z.of_nat (length dragitems) /\
  nextindex ArrowRight (Some active) dragitems
  = (Z.of_nat n + 1) mod Z.of_nat (length dragitems) /\
  nextindex ArrowUp (Some active) dragitems
  = (Z.of_nat n - 1) mod Z.of_nat (length dragitems) /\
  nextindex ArrowLeft (Some active) dragitems
  = (Z.of_nat n - 1) mod Z.of_nat (length dragitems) /\
  nextindex PageDown (Some active) dragitems
  = Z.min (Z.of_nat n + 5) (Z.of_nat (length dragitems) - 1) /\
  nextindex PageUp (Some active) dragitems = Z.max (Z.of_nat n - 5) 0 /\
  nextindex Home (Some active) dragitems = 0 /\
  nextindex End_ (Some active) dragitems = Z.of_nat (length dragitems) - 1 /\
  (forall keyname, nextindex keyname None dragitems = -1).
Proof.
  intros Hnodup Hn.
  pose proof (lookup_lt_Some _ _ _ Hn) as Hlt.
  assert (Hat : forall keyname,
            nextindex keyname (Some active) dragitems
            = let lastindex := Z.of_nat (length dragitems) - 1 in
              let p := Z.of_nat n in
              match keyname with
              | ArrowDown | ArrowRight => if p =? lastindex then 0 else p + 1
              | PageDown => if lastindex <? p + 5 then lastindex else p + 5
              | End_ => lastindex
              | ArrowUp | ArrowLeft => if p =? 0 then lastindex else p - 1
              | PageUp => if p - 5 <? 0 then 0 else p - 5
              | Home => 0
              | _ => -1
              end).
  { intros keyname. unfold nextindex.
    pose proof (foldl_entries_once
                  (fun acc m =>
                     let lastindex := Z.of_nat (length dragitems) - 1 in
                     let p := Z.of_nat m in
                     match keyname with
                     | ArrowDown | ArrowRight =>
                         if p =? lastindex then 0 else p + 1
                     | PageDown =>
                         if lastindex <? p + 5 then lastindex else p + 5
                     | End_ => lastindex
                     | ArrowUp | ArrowLeft =>
                         if p =? 0 then lastindex else p - 1
                     | PageUp => if p - 5 <? 0 then 0 else p - 5
                     | Home => 0
                     | _ => acc
                     end)
                  active dragitems 0 n (-1) Hnodup Hn) as Honce.
    cbn beta zeta in Honce. cbn [Nat.add] in Honce.
    etransitivity; [exact Honce|]. by destruct keyname. }
  set (len := Z.of_nat (length dragitems)) in *.
  assert (Hlen : 0 <= Z.of_nat n < len) by (unfold len; lia).
  assert (Hnext : (if Z.of_nat n =? len - 1 then 0 else Z.of_nat n + 1)
                  = (Z.of_nat n + 1) mod len).
  { destruct (Z.eqb_spec (Z.of_nat n) (len - 1)) as [Heq|Hne].
    - rewrite Heq. replace (len - 1 + 1) with len by lia.
      by rewrite Z_mod_same_full.
    - symmetry. apply Z.mod_small. lia. }
  assert (Hprev : (if Z.of_nat n =? 0 then len - 1 else Z.of_nat n - 1)
                  = (Z.of_nat n - 1) mod len).
  { destruct (Z.eqb_spec (Z.of_nat n) 0) as [Heq|Hne].
    - rewrite Heq. apply (Z.mod_unique_pos _ _ (-1)); lia.
    - symmetry. apply Z.mod_small. lia. }
  rewrite !Hat. cbn zeta.
  split; [done|]. split; [done|]. split; [done|]. split; [done|].
  split; [destruct (Z.ltb_spec (len - 1) (Z.of_nat n + 5)); lia|].
  split; [destruct (Z.ltb_spec (Z.of_nat n - 5) 0); lia|].
  split; [done|]. split; [done|]. intros keyname. apply nextindex_None.
Qed.

Lemma navigation_keys_witness :
  nextindex ArrowDown (Some 4%nat) [1; 2; 3; 4]%nat = 0 /\
  nextindex ArrowUp (Some 1%nat) [1; 2; 3; 4]%nat = 3 /\
  nextindex PageDown (Some 2%nat) [1; 2; 3; 4]%nat = 3.
Proof.
  destruct (navigation_keys [1; 2; 3; 4]%nat 3 4) as (Hdown & _);
    [by apply (bool_decide_unpack _)|reflexivity|].
  destruct (navigation_keys [1; 2; 3; 4]%nat 0 1) as (_ & _ & Hup & _);
    [by apply (bool_decide_unpack _)|reflexivity|].
  destruct (navigation_keys [1; 2; 3; 4]%nat 1 2)
    as (_ & _ & _ & _ & Hpage & _);
    [by apply (bool_decide_unpack _)|reflexivity|].
  split; [exact Hdown|]. split; [exact Hup|exact Hpage].
Defined.

(** *** Droptargets locked to single selection *)

(** A drop set up by a listener, as in [drop_world], leaves nothing
    selected. *)
Lemma drop_clears this i' droptarget w :
  let i := instances w this in
  Inv_world w ->
  selection_dragitems i' = selection_dragitems i ->
  selection_owner i' = selection_owner i ->
  collection i' = collection i ->
  observing i' = observing i ->
  dom_items i' = dom_items i ->
  item_attrs i' = item_attrs i ->
  target_attrs i' = target_attrs i ->
  dragenter i' = dragenter i ->
  selection_droptarget i' = Some droptarget ->
  is_Some (collection i !! droptarget) ->
  is_Some (selection_owner i) ->
  exists w',
    doDropThing this (set_instance this i' w) = Some (w', true) /\
    Inv_world w' /\ selection_dragitems (instances w' this) = [].
Proof.
  intros i HW Hs Ho Hc Hob Hd Hi Ht He Hdt Hreg [owner Howner].
  pose proof (inv_instances w HW this) as Hinv. fold i in Hinv.
  assert (Hinv' : Inv i').
  { apply (Inv_frame i i'); try done.
    - intros c. rewrite Hdt. by intros [= <-].
    - intros entered c. rewrite He. apply (reg_entered i (proj1 Hinv)). }
  destruct (sel_owned i (proj2 Hinv) owner Howner) as (col & Hcol & _).
  destruct (doDropThing_world this droptarget owner col
              (set_instance this i' w)) as (w' & Hw' & HW' & Hsel' & _).
  - by apply Inv_world_same_selection.
  - by rewrite instances_set_instance.
  - rewrite instances_set_instance. congruence.
  - rewrite instances_set_instance. congruence.
  - by exists w'.
Qed.

(** X26. In a droptarget locked to single selection (default multimode
    0, a group of radio items) [#getMultimode] gives 0 whatever modifier
    keys are held, and the selection action called with it, as the
    listeners call it, leaves at most the dragitem it acts on selected,
    whatever was selected before. *)
Theorem locked_multimode_selects_at_most_one (this : nat) (e : Modifiers)
    (droptarget : Droptarget) (col : Collection) (x : Item) (w : World) :
  Inv_world w ->
  collection (instances w this) !! droptarget = Some col ->
  x ∈ dragitems col ->
  multimode col = 0 ->
  getMultimode (instances w this) e droptarget = Some 0 /\
  exists w',
    (multimode ← getMultimode (instances w this) e droptarget;
     doSelectionThing this droptarget x multimode w) = Some w' /\
    (selection_dragitems (instances w' this) = [] \/
     selection_dragitems (instances w' this) = [x]) /\
    Inv_world w'.
Proof.
  intros HW Hcol Hx Hmm.
  set (i := instances w this) in *.
  assert (Hmode : getMultimode i e droptarget = Some 0).
  { unfold getMultimode. rewrite Hcol. cbn [mbind option_bind].
    by rewrite Hmm. }
  split; [done|]. rewrite Hmode. cbn [mbind option_bind].
  unfold doSelectionThing. cbn [Z.eqb]. fold i.
  destruct (clear_world this None w HW) as (w1 & Hw1 & Hi1 & _ & HW1).
  fold i in Hi1. rewrite Hw1. cbn [mbind option_bind].
  assert (Hnil : selection_dragitems (instances w1 this) = [])
    by (rewrite Hi1; apply evicted_selection).
  destruct (negb ((length (selection_dragitems i) =? 1)%nat
                  && bool_decide (x ∈ selection_dragitems i))).
  - destruct (add_world this droptarget col x w1)
      as (w2 & Hw2 & Hi2 & HW2); try done.
    + rewrite Hi1. by destruct (evicted_same_registry i) as (-> & _).
    + left. by apply (sel_owner _ (proj2 (inv_instances w1 HW1 this))).
    + rewrite Hnil. apply not_elem_of_nil.
    + rewrite Hw2. cbn [mbind option_bind]. eexists. split; [done|].
      split; [|by apply addDragValid_world].
      rewrite instances_on_instance, Hi2.
      destruct (addDragValid_if_selected_same
                  (reselected [x] droptarget (instances w1 this)))
        as (-> & _).
      rewrite reselected_selection, Hnil, filter_nil. cbn [app].
      unfold enabled.
      destruct (decide (aria_disabled (item_attrs (instances w1 this) x)
                        = false)) as [Hen|Hdis].
      * right. by rewrite filter_cons_True.
      * left. by rewrite filter_cons_False.
  - exists w1. split; [done|]. split; [by left|done].
Qed.

Lemma radio_collection_lookup c col :
  radio_collection !! c = Some col ->
  (c = 10%nat /\ col = mkCollection [1; 2; 3; 4]%nat false 0) \/
  (c = 20%nat /\ col = mkCollection [5; 6; 7]%nat false 0).
Proof.
  unfold radio_collection. rewrite !lookup_insert_Some, lookup_empty.
  intros [[H1 H2]|[_ [[H1 H2]|[_ [=]]]]]; subst; [by left|by right].
Qed.

Lemma radio_page_initial : initial_world radio_page.
Proof.
  split; [|done]. intros k. cbn [instances radio_page].
  split; try done.
  split; try done.
  - by intros c col [[-> ->]|[-> ->]]%radio_collection_lookup.
  - intros c col [[-> ->]|[-> ->]]%radio_collection_lookup;
      cbn [dragitems]; by apply (bool_decide_unpack _).
  - intros c1 c2 col1 col2 x [[-> ->]|[-> ->]]%radio_collection_lookup
                              [[-> ->]|[-> ->]]%radio_collection_lookup;
      cbn [dragitems]; try done; rewrite !list_elem_of_In; simpl; lia.
  - intros c col [[-> ->]|[-> ->]]%radio_collection_lookup _;
      cbn [dragitems]; split; eexists; (split; [done|by left]).
Qed.

Example radio_page_multimode :
  getDefaultMultimode radio_instance 10 [1; 2; 3; 4]%nat = 0 /\
  getMultimode radio_instance with_shift 10 = Some 0.
Proof. split; reflexivity. Qed.

Lemma locked_multimode_selects_at_most_one_witness :
  getMultimode (instances radio_page 0) with_ctrl 10 = Some 0 /\
  exists w',
    (multimode ← getMultimode (instances radio_page 0) with_ctrl 10;
     doSelectionThing 0 10 2 multimode radio_page) = Some w' /\
    (selection_dragitems (instances w' 0) = [] \/
     selection_dragitems (instances w' 0) = [2%nat]).
Proof.
  destruct (locked_multimode_selects_at_most_one 0 with_ctrl 10
              (mkCollection [1; 2; 3; 4]%nat false 0) 2 radio_page)
    as (Hmode & w' & Hw' & Hsel & _).
  - apply initial_Inv_world. exact radio_page_initial.
  - reflexivity.
  - cbn [dragitems]. solve_elem_of.
  - reflexivity.
  - split; [exact Hmode|]. exists w'. split; [exact Hw'|exact Hsel].
Defined.

(** *** Dragging back to the owner *)

(** X27. When the instance that holds the drag is dragged over its own
    selection owner (not over a sort button) and the items are dropped
    there, nothing moves and nothing is unselected: [dragleave] resets the
    pending drop target, [#doDropThing] returns false, and the instance
    differs from what it was only in the remembered [dragenter] node, the
    cleared drop target and the sort flag. *)
Theorem drag_back_to_the_owner_moves_nothing (this : nat) (entered : Target)
    (owner : Droptarget) (w : World) :
  draginstance w = Some this ->
  selection_owner (instances w this) = Some owner ->
  t_droptarget entered = Some owner -> t_sorted entered = false ->
  exists w',
    run [(this, DragEnter entered); (this, DragLeave); (this, Drop)] w
    = Some w' /\
    instances w' this
    = set_selection_nodesort true
        (set_selection_droptarget None
           (set_dragenter (Some entered) (instances w this))) /\
    (forall k, k <> this -> instances w' k = instances w k) /\
    draginstance w' = draginstance w.
Proof.
  intros Hd Hown Hdt Hsorted. set (i := instances w this).
  set (i3 := set_selection_nodesort true
               (set_selection_droptarget None
                  (set_dragenter (Some entered) i))).
  exists (set_instance this i3
            (set_instance this
               (set_selection_droptarget None (set_dragenter (Some entered) i))
               (on_instance this (set_dragenter (Some entered)) w))).
  split.
  - unfold run. cbn [forEach listener fst snd].
    unfold on_dragenter. rewrite decide_True by done.
    cbn [mbind option_bind].
    unfold on_dragleave.
    rewrite decide_True by done.
    rewrite instances_on_instance. fold i.
    cbn [dragenter set_dragenter mbind option_bind selection_owner].
    rewrite Hdt. fold i in Hown. rewrite Hown.
    rewrite decide_True by done.
    unfold on_drop. rewrite instances_set_instance.
    cbn [dragenter set_selection_droptarget set_dragenter mbind option_bind].
    rewrite Hsorted. cbn [negb].
    rewrite doDropThing_unset; [done|].
    by rewrite instances_set_instance.
  - split; [apply instances_set_instance|]. split; [|done].
    intros k Hk. unfold on_instance.
    by rewrite !instances_set_instance_ne.
Qed.

Lemma drag_back_to_the_owner_moves_nothing_witness :
  exists w',
    run [(0%nat, DragEnter (on_droptarget 10)); (0%nat, DragLeave);
         (0%nat, Drop)] selected_page
    = Some w' /\
    dom_items (instances w' 0) = dom_items (instances selected_page 0) /\
    selection_dragitems (instances w' 0)
    = selection_dragitems (instances selected_page 0).
Proof.
  destruct (drag_back_to_the_owner_moves_nothing 0 (on_droptarget 10) 10
              selected_page) as (w' & Hw' & Hi' & _).
  - vm_compute. reflexivity.
  - vm_compute. reflexivity.
  - reflexivity.
  - reflexivity.
  - exists w'. split; [exact Hw'|]. rewrite Hi'. split; reflexivity.
Defined.

(** *** A range without its boundaries *)

Lemma findIndex_ge x l : -1 <= findIndex x l.
Proof.
  induction l as [|y l IH]; cbn [findIndex]; [done|].
  destruct (decide (y = x)); [done|].
  destruct (Z.ltb_spec (findIndex x l) 0); lia.
Qed.

Lemma forEach_undefined {S : Type} (f : Item -> S -> option S)
    (range : list (option Item)) :
  None ∈ range ->
  forall s,
    forEach (fun rangeitem s => rangeitem ← rangeitem; f rangeitem s) range s
    = None.
Proof.
  induction range as [|r range IH]; intros Hin s.
  - by apply elem_of_nil in Hin.
  - cbn [forEach]. destruct r as [r|]; [|done].
    apply elem_of_cons in Hin as [Hin|Hin]; [done|].
    cbn [mbind option_bind]. destruct (f r s) as [s'|]; [|done].
    cbn [mbind option_bind]. by apply IH.
Qed.

(** X28. [#addSelectionRange] needs both ends of the range: when
    [data-drag-lastdescendant] or [aria-activedescendant] of the droptarget
    is missing, or names no dragitem of its collection, the range it builds
    holds the undefined [dragitems[-1]], and the method throws. *)
Theorem range_selection_needs_both_boundaries (this : nat)
    (droptarget : Droptarget) (col : Collection) (w : World) :
  collection (instances w this) !! droptarget = Some col ->
  (forall x,
     data_drag_lastdescendant (target_attrs (instances w this) droptarget)
     = Some x -> x ∉ dragitems col) \/
  (forall x,
     aria_activedescendant (target_attrs (instances w this) droptarget)
     = Some x -> x ∉ dragitems col) ->
  addSelectionRange this droptarget w = None.
Proof.
  intros Hcol Hstale. unfold addSelectionRange. rewrite Hcol.
  cbn [mbind option_bind].
  set (i := instances w this) in *.
  set (find := fun attr : option Item =>
                 id ← attr;
                 if decide (id ∈ dragitems col) then Some id else None).
  set (boundary := fun rangeitem : option Item =>
                     match rangeitem with
                     | Some rangeitem => findIndex rangeitem (dragitems col)
                     | None => -1
                     end).
  set (b0 := boundary (find (data_drag_lastdescendant
                               (target_attrs i droptarget)))).
  set (b1 := boundary (find (aria_activedescendant
                               (target_attrs i droptarget)))).
  assert (Hfind : forall attr,
            (forall x, attr = Some x -> x ∉ dragitems col) ->
            boundary (find attr) = -1).
  { intros [x|] Hx; [|done]. unfold find. cbn [mbind option_bind].
    rewrite decide_False; [done|]. by apply Hx. }
  assert (Hge : forall attr, -1 <= boundary (find attr)).
  { intros [x|]; [|done]. unfold find. cbn [mbind option_bind].
    destruct (decide (x ∈ dragitems col)); [|done]. apply findIndex_ge. }
  assert (Hmin : Z.min b0 b1 = -1 /\ 0 <= Z.max b0 b1 - Z.min b0 b1).
  { pose proof (Hge (data_drag_lastdescendant (target_attrs i droptarget))).
    pose proof (Hge (aria_activedescendant (target_attrs i droptarget))).
    fold b0 in H. fold b1 in H0.
    destruct Hstale as [Hlast|Hactive].
    - apply Hfind in Hlast. fold b0 in Hlast. lia.
    - apply Hfind in Hactive. fold b1 in Hactive. lia. }
  destruct Hmin as [Hmin Hlen].
  apply forEach_undefined.
  assert (Hin : None ∈ map (at_index (dragitems col))
                         (seqZ (Z.min b0 b1)
                               (Z.max b0 b1 - Z.min b0 b1 + 1))).
  { apply (list_elem_of_fmap_2' _ _ (-1)); [|done].
    rewrite Hmin. apply elem_of_seqZ. lia. }
  change (None ∈ (if b1 <? b0
                  then reverse (map (at_index (dragitems col))
                                    (seqZ (Z.min b0 b1)
                                          (Z.max b0 b1 - Z.min b0 b1 + 1)))
                  else map (at_index (dragitems col))
                           (seqZ (Z.min b0 b1)
                                 (Z.max b0 b1 - Z.min b0 b1 + 1)))).
  destruct (b1 <? b0); [|done]. by apply elem_of_reverse.
Qed.

Lemma range_selection_needs_both_boundaries_witness :
  addSelectionRange 0 10
    (set_instance 0
       (set_target_attrs
          (<[10%nat := mkTargetAttrs (Some 1%nat) None false false]>
             page_target_attrs)
          page_instance)
       page)
  = None.
Proof.
  apply (range_selection_needs_both_boundaries 0 10
           (mkCollection [1; 2; 3; 4]%nat false (-1))).
  - rewrite instances_set_instance. vm_compute. reflexivity.
  - left. intros x. rewrite instances_set_instance.
    cbn [target_attrs set_target_attrs]. rewrite fn_lookup_insert.
    discriminate.
Defined.

End Widget.

(** ** Part 4. Tokens in strings: [#parseToken] and [#getID] *)

Module Tokens.

(** [GetSubstitution] of ECMAScript as [String.prototype.replace] uses it
    for a pattern that is a string: there are no captures, so of the [$]
    patterns of the replacement only [$$], [$&], [$`] and [$'] are
    replaced (by a dollar sign, the matched text, the text before and the
    text after the match); every other [$] stands for itself. *)
Fixpoint getSubstitution (matched before after replacement : string)
  : string :=
  match replacement with
  | EmptyString => EmptyString
  | String c tail =>
      if Ascii.eqb c "$" then
        match tail with
        | String d rest =>
            if Ascii.eqb d "$"
            then String "$" (getSubstitution matched before after rest)
            else if Ascii.eqb d "&"
            then matched ++ getSubstitution matched before after rest
            else if Ascii.eqb d "`"
            then before ++ getSubstitution matched before after rest
            else if Ascii.eqb d "'"
            then after ++ getSubstitution matched before after rest
            else String c (getSubstitution matched before after tail)
        | EmptyString => String c EmptyString
        end
      else String c (getSubstitution matched before after tail)
  end.

(** The string without its first [n] characters. *)
Fixpoint skip (n : nat) (s : string) : string :=
  match n, s with
  | S n', String _ s' => skip n' s'
  | _, _ => s
  end.

(** The first occurrence of [pattern] in [str]: the text before it and the
    text after it. *)
Fixpoint splitFirst (pattern str : string) : option (string * string) :=
  if String.prefix pattern str
  then Some (EmptyString, skip (String.length pattern) str)
  else match str with
       | EmptyString => None
       | String c rest =>
           match splitFirst pattern rest with
           | Some (before, after) => Some (String c before, after)
           | None => None
           end
       end.

(** [str.replace(pattern, replacement)] for strings [pattern] and
    [replacement]: only the first occurrence is replaced. *)
Definition replace (str pattern replacement : string) : string :=
  match splitFirst pattern str with
  | Some (before, after) =>
      before ++ getSubstitution pattern before after replacement ++ after
  | None => str
  end.

(** [#parseToken(str, token, value)]. *)
Definition parseToken (str token value : string) : string :=
  replace str ("{{" ++ token ++ "}}") value.

(** [#idformat]. *)
Definition idformat : string := "drag-act-{{index}}-{{type}}-{{counter}}".

(** [#getID(params)] over [Object.entries(params)], the values already
    converted to strings as [replace] converts them. *)
Definition getID (params : list (string * string)) : string :=
  foldl (fun id entry => replace id ("{{" ++ entry.1 ++ "}}") entry.2)
        idformat params.

(** The counts that a JS number holds exactly and that [++] still
    increases: the integers below 2^53. The index of an instance and its
    running counter start at 0 and grow by one. *)
Definition safe (n : N) : Prop := (n < 2 ^ 53)%N.

(** [Number::toString] of a count: the decimal numeral. This is what JS
    gives for the integers below 10^21, where it changes to the exponent
    notation, and a JS number holds an integer exactly only below 2^53;
    the statements below are about [safe] counts. *)
Definition toString (n : N) : string :=
  NilEmpty.string_of_uint (N.to_uint n).

(** The call [#getID({ index, type, counter })] as the class makes it for
    droptargets, dragitems, labels, descriptions and selection numbers. *)
Definition generatedID (index : N) (type : string) (counter : N) : string :=
  getID [("index", toString index); ("type", type);
         ("counter", toString counter)].

(** No character of the string satisfies [p]. *)
Fixpoint without (p : ascii -> bool) (s : string) : bool :=
  match s with
  | EmptyString => true
  | String c s' => negb (p c) && without p s'
  end.

Definition is_dollar (c : ascii) : bool := Ascii.eqb c "$".
Definition is_brace (c : ascii) : bool := Ascii.eqb c "{".
Definition is_special (c : ascii) : bool :=
  Ascii.eqb c "$" || Ascii.eqb c "{" || Ascii.eqb c "-".

(** *** Strings *)

Lemma append_String c s t : (String c s ++ t) = String c (s ++ t).
Proof. done. Qed.

Lemma append_nil_r (s : string) : s ++ "" = s.
Proof. induction s as [|c s IH]; [done|]. by rewrite append_String, IH. Qed.

Lemma append_assoc (s t u : string) : (s ++ t) ++ u = s ++ (t ++ u).
Proof.
  induction s as [|c s IH]; [done|]. by rewrite !append_String, IH.
Qed.

Lemma skip_append (s t : string) : skip (String.length s) (s ++ t) = t.
Proof. induction s as [|c s IH]; [by destruct t|]. done. Qed.

Lemma append_prefix (s t : string) : String.prefix s (s ++ t) = true.
Proof.
  induction s as [|c s IH]; [by destruct t|].
  rewrite append_String. cbn [String.prefix].
  by destruct (ascii_dec c c).
Qed.

(** *** The first occurrence *)

(** [splitFirst] finds the occurrence [indexOf] finds. *)
Lemma splitFirst_index pattern str :
  String.index 0 pattern str
  = (fun parts => String.length parts.1) <$> splitFirst pattern str.
Proof.
  induction str as [|c str IH].
  - by destruct pattern.
  - cbn [String.index splitFirst].
    destruct (String.prefix pattern (String c str)); [done|].
    rewrite IH. by destruct (splitFirst pattern str) as [[before after]|].
Qed.

Lemma splitFirst_append pattern str before after :
  splitFirst pattern str = Some (before, after) ->
  str = before ++ pattern ++ after.
Proof.
  revert before after. induction str as [|c str IH]; intros before after.
  - cbn [splitFirst]. destruct pattern; [|done]. by intros [= <- <-].
  - cbn [splitFirst].
    destruct (String.prefix pattern (String c str)) eqn:Hp.
    + intros [= <- <-]. change ("" ++ ?s) with s.
      apply prefix_correct in Hp.
      revert Hp. generalize (String c str). clear. intros str.
      revert str. induction pattern as [|a pattern IH]; intros str Hp.
      * by destruct str.
      * destruct str as [|b str]; [done|]. cbn in Hp.
        injection Hp as -> Hp. rewrite append_String. cbn [skip String.length].
        f_equal. by apply IH.
    + destruct (splitFirst pattern str) as [[b a]|]; [|done].
      intros [= <- <-]. rewrite append_String. f_equal. by apply IH.
Qed.

(** *** Replacements without a dollar sign *)

Lemma getSubstitution_literal matched before after replacement :
  without is_dollar replacement = true ->
  getSubstitution matched before after replacement = replacement.
Proof.
  induction replacement as [|c tail IH]; [done|].
  cbn [without getSubstitution]. unfold is_dollar at 1.
  intros [Hc Htail]%andb_true_iff. apply negb_true_iff in Hc.
  rewrite Hc. f_equal. by apply IH.
Qed.

Lemma without_weaken (p q : ascii -> bool) (s : string) :
  (forall c, p c = true -> q c = true) ->
  without q s = true -> without p s = true.
Proof.
  intros Hpq. induction s as [|c s IH]; [done|]. cbn [without].
  intros [Hc Hs]%andb_true_iff. apply andb_true_iff. split; [|by apply IH].
  apply negb_true_iff in Hc. apply negb_true_iff.
  destruct (p c) eqn:Hp; [|done]. apply Hpq in Hp. congruence.
Qed.

Lemma without_append (p : ascii -> bool) (s t : string) :
  without p (s ++ t) = without p s && without p t.
Proof.
  induction s as [|c s IH]; [done|].
  rewrite append_String. cbn [without]. by rewrite IH, andb_assoc.
Qed.

(** X29. [#parseToken] leaves a string without the token as it is and
    otherwise replaces the first occurrence of the token only (the one
    [indexOf] finds). A value without a dollar sign is put in as it is;
    a value with one is not: [$$] puts in a single dollar sign and [$&]
    the token itself. *)
Theorem parseToken_replaces_the_first_token (str token value : string) :
  (I18n.indexOf str ("{{" ++ token ++ "}}") < 0 ->
   parseToken str token value = str) /\
  (0 <= I18n.indexOf str ("{{" ++ token ++ "}}") ->
   exists before after,
     str = before ++ ("{{" ++ token ++ "}}") ++ after /\
     Z.of_nat (String.length before)
     = I18n.indexOf str ("{{" ++ token ++ "}}") /\
     (without is_dollar value = true ->
      parseToken str token value = before ++ value ++ after) /\
     parseToken str token "$$" = before ++ "$" ++ after /\
     parseToken str token "$&" = str).
Proof.
  unfold I18n.indexOf, parseToken, replace.
  set (pattern := "{{" ++ token ++ "}}").
  rewrite splitFirst_index.
  destruct (splitFirst pattern str) as [[before after]|] eqn:Hsplit;
    cbn [fmap option_fmap option_map fst]; split; try done; try lia.
  intros _. exists before, after.
  pose proof (splitFirst_append _ _ _ _ Hsplit) as Hstr.
  split; [done|]. split; [done|]. split; [|split].
  - intros Hvalue. by rewrite getSubstitution_literal.
  - done.
  - cbn [getSubstitution Ascii.eqb Bool.eqb]. by rewrite append_nil_r.
Qed.

Lemma parseToken_replaces_the_first_token_witness :
  parseToken "{{count}} {{items}} checked." "number" "3"
  = "{{count}} {{items}} checked." /\
  exists before after,
    "{{count}} {{items}} checked."
    = before ++ ("{{" ++ "count" ++ "}}") ++ after /\
    parseToken "{{count}} {{items}} checked." "count" "3"
    = before ++ "3" ++ after.
Proof.
  destruct (parseToken_replaces_the_first_token
              "{{count}} {{items}} checked." "count" "3") as [_ Hthere].
  destruct (parseToken_replaces_the_first_token
              "{{count}} {{items}} checked." "number" "3") as [Habsent _].
  split; [apply Habsent; vm_compute; reflexivity|].
  destruct Hthere as (before & after & Hstr & _ & Hvalue & _);
    [vm_compute; discriminate|].
  exists before, after. split; [exact Hstr|]. apply Hvalue. reflexivity.
Defined.

Example parseToken_count :
  parseToken "{{count}} {{items}} checked." "count" "3"
  = "3 {{items}} checked." /\
  parseToken (parseToken "{{count}} {{items}} checked." "count" "3")
    "items" "items"
  = "3 items checked." /\
  parseToken "{{items}}: {{items}}" "items" "$&s"
  = "{{items}}s: {{items}}".
Proof. vm_compute. repeat split. Qed.

(** *** Generated ids *)

Lemma splitFirst_past (rest p s : string) :
  without is_brace p = true ->
  splitFirst (String "{" rest) (p ++ s)
  = match splitFirst (String "{" rest) s with
    | Some (before, after) => Some (p ++ before, after)
    | None => None
    end.
Proof.
  intros Hp. induction p as [|c p IH].
  - change ("" ++ s) with s.
    by destruct (splitFirst (String "{" rest) s) as [[before after]|].
  - cbn [without] in Hp. apply andb_true_iff in Hp as [Hc Hp].
    rewrite append_String. cbn [splitFirst String.prefix].
    destruct (ascii_dec "{" c) as [<-|_]; [done|].
    rewrite IH by done.
    by destruct (splitFirst (String "{" rest) s) as [[before after]|].
Qed.

Lemma replace_past (rest p s before after value : string) :
  without is_brace p = true ->
  splitFirst (String "{" rest) s = Some (before, after) ->
  without is_dollar value = true ->
  replace (p ++ s) (String "{" rest) value
  = p ++ before ++ value ++ after.
Proof.
  intros Hp Hs Hvalue. unfold replace.
  rewrite splitFirst_past, Hs by done.
  by rewrite getSubstitution_literal, append_assoc.
Qed.

Lemma string_of_uint_plain (d : Decimal.uint) :
  without is_special (NilEmpty.string_of_uint d) = true.
Proof. induction d; cbn [NilEmpty.string_of_uint without]; done. Qed.

Lemma string_of_uint_inj (d d' : Decimal.uint) :
  NilEmpty.string_of_uint d = NilEmpty.string_of_uint d' -> d = d'.
Proof.
  revert d'. induction d as [|d IH|d IH|d IH|d IH|d IH|d IH|d IH|d IH|d IH|d IH];
    intros [|d'|d'|d'|d'|d'|d'|d'|d'|d'|d'];
    cbn [NilEmpty.string_of_uint]; try done;
    intros [= Heq]; f_equal; by apply IH.
Qed.

Lemma toString_plain (n : N) : without is_special (toString n) = true.
Proof. apply string_of_uint_plain. Qed.

Lemma toString_inj (n n' : N) : toString n = toString n' -> n = n'.
Proof. intros Heq%string_of_uint_inj. by apply Unsigned.to_uint_inj. Qed.

Lemma plain_without_brace s :
  without is_special s = true -> without is_brace s = true.
Proof.
  apply without_weaken. unfold is_brace, is_special. intros c ->.
  by rewrite orb_true_r.
Qed.

Lemma plain_without_dollar s :
  without is_special s = true -> without is_dollar s = true.
Proof.
  apply without_weaken. unfold is_dollar, is_special. by intros c ->.
Qed.

(** Two strings without a hyphen, each followed by a hyphen and more text,
    are told apart by the first hyphen. *)
Lemma hyphen_split (s s' r r' : string) :
  without is_special s = true -> without is_special s' = true ->
  s ++ String "-" r = s' ++ String "-" r' -> s = s' /\ r = r'.
Proof.
  revert s'. induction s as [|c s IH]; intros [|c' s'] Hs Hs'.
  - by intros [= <-].
  - rewrite append_String. intros [= <- _].
    cbn [without] in Hs'. by apply andb_true_iff in Hs' as [? _].
  - rewrite append_String. intros [= -> _].
    cbn [without] in Hs. by apply andb_true_iff in Hs as [? _].
  - rewrite !append_String. intros [= <- Heq].
    cbn [without] in Hs, Hs'.
    apply andb_true_iff in Hs as [_ Hs]. apply andb_true_iff in Hs' as [_ Hs'].
    destruct (IH s' Hs Hs' Heq) as [<- <-]. done.
Qed.

Lemma generatedID_eq (index counter : N) (type : string) :
  without is_special type = true ->
  generatedID index type counter
  = "drag-act-" ++ toString index ++ "-" ++ type ++ "-" ++ toString counter.
Proof.
  intros Htype. unfold generatedID, getID. cbn [foldl fst snd].
  change ("{{" ++ "index" ++ "}}") with "{{index}}".
  change ("{{" ++ "type" ++ "}}") with "{{type}}".
  change ("{{" ++ "counter" ++ "}}") with "{{counter}}".
  pose proof (toString_plain index) as Hindex.
  pose proof (toString_plain counter) as Hcounter.
  (* the index *)
  assert (H1 : replace idformat "{{index}}" (toString index)
               = ("drag-act-" ++ toString index ++ "-")
                 ++ "{{type}}-{{counter}}").
  { change idformat with ("" ++ idformat).
    rewrite (replace_past _ "" idformat "drag-act-" "-{{type}}-{{counter}}");
      [|done|done|by apply plain_without_dollar].
    change ("" ++ ?s) with s.
    change "-{{type}}-{{counter}}" with ("-" ++ "{{type}}-{{counter}}").
    by rewrite !append_assoc. }
  rewrite H1.
  (* the type *)
  assert (H2 : replace (("drag-act-" ++ toString index ++ "-")
                        ++ "{{type}}-{{counter}}") "{{type}}" type
               = ("drag-act-" ++ toString index ++ "-" ++ type ++ "-")
                 ++ "{{counter}}").
  { rewrite (replace_past _ _ _ "" "-{{counter}}");
      [|rewrite !without_append; by rewrite (plain_without_brace _ Hindex)
       |done|by apply plain_without_dollar].
    change ("" ++ ?s) with s.
    change "-{{counter}}" with ("-" ++ "{{counter}}").
    by rewrite !append_assoc. }
  rewrite H2.
  (* the counter *)
  rewrite (replace_past _ _ _ "" "");
    [|rewrite !without_append;
      by rewrite (plain_without_brace _ Hindex), (plain_without_brace _ Htype)
     |done|by apply plain_without_dollar].
  change ("" ++ ?s) with s.
  by rewrite append_nil_r, !append_assoc.
Qed.

(** X30. [#getID] called with an index and a counter below 2^53 and a
    type without [$], [{] and [-] (as the types the class uses) returns
    [drag-act-<index>-<type>-<counter>] with the two numbers in decimal,
    and two such calls return the same id only for the same index, type
    and counter: the ids an instance generates with its own index and its
    running counter are distinct from one another and from those of every
    other instance, as long as the counts stay below 2^53. *)
Theorem generated_ids_are_distinct (index counter : N) (type : string) :
  safe index -> safe counter ->
  without is_special type = true ->
  generatedID index type counter
  = "drag-act-" ++ toString index ++ "-" ++ type ++ "-" ++ toString counter /\
  (forall index' counter' type',
     safe index' -> safe counter' ->
     without is_special type' = true ->
     generatedID index' type' counter' = generatedID index type counter ->
     index' = index /\ type' = type /\ counter' = counter).
Proof.
  intros _ _ Htype. split; [by apply generatedID_eq|].
  intros index' counter' type' _ _ Htype'.
  rewrite !generatedID_eq by done.
  change ("drag-act-" ++ ?s) with
    (String "d" (String "r" (String "a" (String "g" (String "-"
      (String "a" (String "c" (String "t" (String "-" s))))))))).
  intros [= Heq].
  change ("-" ++ ?s) with (String "-" s) in Heq.
  apply hyphen_split in Heq as [Hindex Heq]; [|apply toString_plain..].
  apply hyphen_split in Heq as [Htypes Hcounter]; [|done..].
  split; [by apply toString_inj|]. split; [done|by apply toString_inj].
Qed.

Lemma generated_ids_are_distinct_witness :
  generatedID 1 "dragitem" 12
  = "drag-act-" ++ toString 1 ++ "-" ++ "dragitem" ++ "-" ++ toString 12 /\
  (forall index' counter' type',
     safe index' -> safe counter' ->
     without is_special type' = true ->
     generatedID index' type' counter' = generatedID 1 "dragitem" 12 ->
     index' = 1%N /\ type' = "dragitem" /\ counter' = 12%N).
Proof.
  apply generated_ids_are_distinct; [reflexivity..].
Defined.

Example generatedID_dragitem :
  generatedID 1 "dragitem" 12 = "drag-act-1-dragitem-12" /\
  forallb (without is_special)
    ["droptarget"; "description"; "dragitem"; "label"; "number"] = true.
Proof. vm_compute. split; reflexivity. Qed.

End Tokens.
